(** * ipp-usb: verification of the address lists, the HTTP proxy front end
      and the IPP / eSCL decoders

    The development is a shallow embedding of the Go sources:
    - [usbcommon.go]  : [UsbAddr], [UsbAddrList] ([Add], [Find], [Diff]),
                        [MapKey], [PnPStart], [UsbDeviceInfo.Ident];
    - the HTTP proxy  : [ServeHTTP], [httpRemoveHopByHopHeaders], ...;
    - the IPP decoder : [newIppDecoder], [getAttr], [decode], [getDuplex],
                        [getPaperMax], and [Decode] with the lookups of
                        [ipp.go];
    - [escl.go]       : [EsclService], [esclCapsDecoder].

    Go strings are byte strings and are modelled by [string]; Go maps are
    [gmap]s; slices are lists.  A Go [int] is 64 bits wide; it is modelled
    by [Z] wherever the code only compares or copies it, and by [nat] where
    it is a slice index or a slice length.  Run-time panics (an index out of
    range, a failed type assertion) are made explicit in the result type
    of the functions that can raise them.  Functions of the repository
    whose source files are not at hand, and the case table of package
    [unicode], are variables of the sections that use them. *)

From Stdlib Require Import ZArith Lia Sorted Permutation Ascii String.
From Equations Require Import Equations.
From stdpp Require Import gmap strings list fin_maps sorting pretty.

(** ** Results of computations that may panic *)

Inductive outcome (A : Type) : Type :=
| Ok (a : A)
| Panic (msg : string).
Arguments Ok {A} a.
Arguments Panic {A} msg.

Definition obind {A B} (x : outcome A) (k : A → outcome B) : outcome B :=
  match x with
  | Ok a => k a
  | Panic msg => Panic msg
  end.


(** * Module [GoSort]: [sort.Search] of the Go standard library *)

Module GoSort.

(** The loop of [sort.Search]:
<<
    i, j := 0, n
    for i < j {
        h := int(uint(i+j) >> 1)
        if !f(h) { i = h + 1 } else { j = h }
    }
    return i
>>
    The measure [j - i] decreases at each turn, so the loop is total. *)
Equations? search_loop (f : nat → bool) (i j : nat) : nat by wf (j - i) lt :=
  search_loop f i j with decide (i < j) := {
    | left _ =>
        if negb (f ((i + j) / 2)) then search_loop f ((i + j) / 2 + 1) j
        else search_loop f i ((i + j) / 2)
    | right _ => i }.
Proof.
  all: assert (i ≤ (i + j) / 2 < j)
    by (split; [apply Nat.div_le_lower_bound | apply Nat.Div0.div_lt_upper_bound]; lia);
    lia.
Qed.

Definition Search (n : nat) (f : nat → bool) : nat := search_loop f 0 n.

Lemma half_between i j : i < j → i ≤ (i + j) / 2 < j.
Proof.
  intros Hij. split.
  - apply Nat.div_le_lower_bound; lia.
  - apply Nat.Div0.div_lt_upper_bound; lia.
Qed.

(** The loop invariant of [sort.Search], without any assumption on [f]. *)
Lemma search_loop_bounds f i j :
  i ≤ j →
  i ≤ search_loop f i j ≤ j
  ∧ (search_loop f i j < j → f (search_loop f i j) = true)
  ∧ (i < search_loop f i j → f (search_loop f i j - 1) = false).
Proof.
  funelim (search_loop f i j); intros Hij.
  - clear Heq. pose proof (half_between i j l) as Hh.
    destruct (f ((i + j) / 2)) eqn:Hf; cbn [negb].
    + destruct (H0 ltac:(lia)) as (Hr & Ht & Hf').
      split; [lia |]. split; [| done].
      intros Hlt. destruct (decide (search_loop f i ((i + j) / 2) = (i + j) / 2)) as [->|Hne].
      * done.
      * apply Ht. lia.
    + destruct (H ltac:(lia)) as (Hr & Ht & Hf').
      split; [lia |]. split; [done |].
      intros Hlt. destruct (decide (search_loop f ((i + j) / 2 + 1) j = (i + j) / 2 + 1)) as [->|Hne].
      * by replace ((i + j) / 2 + 1 - 1) with ((i + j) / 2) by lia.
      * apply Hf'. lia.
  - split; [lia |]. split; intros; lia.
Qed.

Lemma search_loop_step f i j :
  search_loop f i j =
  if decide (i < j) then
    if negb (f ((i + j) / 2)) then search_loop f ((i + j) / 2 + 1) j
    else search_loop f i ((i + j) / 2)
  else i.
Proof. funelim (search_loop f i j); by rewrite Heq. Qed.

(** [sort.Search] calls [f] on indices below [n] only. *)
Lemma search_loop_ext f g i j :
  (∀ k, i ≤ k < j → f k = g k) → search_loop f i j = search_loop g i j.
Proof.
  funelim (search_loop f i j); intros Hfg;
    rewrite (search_loop_step g i j), Heq.
  - pose proof (half_between i j l) as Hh.
    rewrite <- (Hfg ((i + j) / 2)) by lia.
    destruct (f ((i + j) / 2)); cbn [negb].
    + apply H0. intros k Hk. apply Hfg. lia.
    + apply H. intros k Hk. apply Hfg. lia.
  - done.
Qed.

Lemma Search_ext n f g : (∀ k, k < n → f k = g k) → Search n f = Search n g.
Proof. intros H. apply search_loop_ext. intros k Hk. apply H. lia. Qed.

Definition monotone_upto (n : nat) (f : nat → bool) : Prop :=
  ∀ h k, h ≤ k < n → f h = true → f k = true.

(** On a predicate that is monotone on [0, n), [sort.Search] returns the
    least index at which it holds, or [n]. *)
Lemma Search_spec n f :
  monotone_upto n f →
  Search n f ≤ n
  ∧ (∀ k, k < Search n f → f k = false)
  ∧ (∀ k, Search n f ≤ k < n → f k = true).
Proof.
  intros Hmono. unfold Search.
  destruct (search_loop_bounds f 0 n ltac:(lia)) as (Hr & Ht & Hf).
  split; [lia |]. split.
  - intros k Hk. destruct (f k) eqn:Hfk; [| done].
    rewrite <- Hf by lia. symmetry. apply (Hmono k); [lia | done].
  - intros k Hk. apply (Hmono (search_loop f 0 n)); [lia |]. apply Ht. lia.
Qed.

End GoSort.

(** * Module [Usb]: USB addresses and sorted address lists (usbcommon.go) *)

Module Usb.
Import GoSort.

(** [UsbAddr]: the bus and the address of the device on that bus. *)
Record UsbAddr : Type := mkUsbAddr { Bus : Z; Address : Z }.

#[global] Instance UsbAddr_eq_dec : EqDecision UsbAddr.
Proof. solve_decision. Defined.

(** [func (addr UsbAddr) Less(addr2 UsbAddr) bool] *)
Definition Less (addr addr2 : UsbAddr) : bool :=
  (Bus addr <? Bus addr2)%Z
  || ((Bus addr =? Bus addr2)%Z && (Address addr <? Address addr2)%Z).

(** The closure handed to [sort.Search] by [Add] and [Find]:
    [func(n int) bool { return !list[n].Less(addr) }].  Indexing past the
    end of the slice panics in Go; [sort.Search] never does so
    ([GoSort.Search_ext]), and the value given here for such an index is
    immaterial. *)
Definition not_less_at (lst : list UsbAddr) (addr : UsbAddr) (n : nat) : bool :=
  match lst !! n with
  | Some a => negb (Less a addr)
  | None => true
  end.

(** [func (list *UsbAddrList) Add(addr UsbAddr)].  The result is the new
    value of [*list]. *)
Definition Add (lst : list UsbAddr) (addr : UsbAddr) : list UsbAddr :=
  let i := Search (length lst) (not_less_at lst addr) in
  (* Check for duplicate *)
  if bool_decide (i < length lst ∧ lst !! i = Some addr) then lst
  (* all items are less than the new one: append *)
  else if bool_decide (i = length lst) then lst ++ [addr]
  (* "Insert item in the middle": the item at index i is appended to the
     slice, then the slot at index i is overwritten with addr *)
  else match lst !! i with
       | Some a => <[i := addr]> (lst ++ [a])
       | None => lst (* i > len: not reachable, [Search] returns at most len *)
       end.

(** [func (list UsbAddrList) Find(addr UsbAddr) int] *)
Definition Find (lst : list UsbAddr) (addr : UsbAddr) : Z :=
  let i := Search (length lst) (not_less_at lst addr) in
  if bool_decide (i < length lst ∧ lst !! i = Some addr) then Z.of_nat i
  else (-1)%Z.

(** [func (list1 UsbAddrList) Diff(list2 UsbAddrList) (added, removed UsbAddrList)].
    Both results start as nil slices and grow through [Add]. *)
Definition Diff (list1 list2 : list UsbAddr) : list UsbAddr * list UsbAddr :=
  let added :=
    foldl (λ added a, if (Find list1 a <? 0)%Z then Add added a else added) [] list2 in
  let removed :=
    foldl (λ removed a, if (Find list2 a <? 0)%Z then Add removed a else removed) [] list1 in
  (added, removed).

(** ** The order on addresses *)

Definition addr_lt (a b : UsbAddr) : Prop := Less a b = true.

(** A list is sorted when it is ascending for [Less]; as [Less] is strict,
    a sorted list has no duplicates. *)
Definition sorted (l : list UsbAddr) : Prop := StronglySorted addr_lt l.

#[global] Instance sorted_dec l : Decision (sorted l).
Proof. unfold sorted, addr_lt. apply _. Defined.

Lemma Less_spec a b :
  Less a b = true ↔
  (Bus a < Bus b ∨ (Bus a = Bus b ∧ Address a < Address b))%Z.
Proof. unfold Less. destruct a, b; simpl. lia. Qed.

Lemma Less_irrefl a : Less a a = false.
Proof. apply not_true_is_false. rewrite Less_spec. lia. Qed.

Lemma Less_trans a b c : Less a b = true → Less b c = true → Less a c = true.
Proof. rewrite !Less_spec. lia. Qed.

Lemma Less_asym a b : Less a b = true → Less b a = false.
Proof. intros H. apply not_true_is_false. revert H. rewrite !Less_spec. lia. Qed.

Lemma Less_total a b : Less a b = false → Less b a = false → a = b.
Proof.
  intros H1 H2. apply not_true_iff_false in H1, H2.
  rewrite Less_spec in H1, H2. destruct a, b; simpl in *. f_equal; lia.
Qed.

#[global] Instance addr_lt_trans : Transitive addr_lt.
Proof. intros a b c. apply Less_trans. Qed.

Lemma sorted_lookup_lt l h k x y :
  sorted l → l !! h = Some x → l !! k = Some y → h < k → addr_lt x y.
Proof.
  intros Hs. revert h k x y.
  induction Hs as [|a l Hs IH Hall]; intros h k x y Hh Hk Hlt.
  - done.
  - destruct k as [|k]; [lia |]. destruct h as [|h]; simpl in *.
    + inversion Hh; subst. rewrite Forall_forall in Hall. apply Hall.
      by apply list_elem_of_lookup_2 with k.
    + apply (IH h k); [done | done | lia].
Qed.

Lemma sorted_NoDup l : sorted l → NoDup l.
Proof.
  induction 1 as [|a l Hs IH Hall]; constructor; [| done].
  intros Hin. rewrite Forall_forall in Hall.
  apply Hall in Hin. unfold addr_lt in Hin.
  by rewrite Less_irrefl in Hin.
Qed.

Lemma not_less_at_monotone l addr :
  sorted l → monotone_upto (length l) (not_less_at l addr).
Proof.
  intros Hs h k [Hhk Hk] Hh. unfold not_less_at in *.
  destruct (l !! k) as [y|] eqn:Hy; [| done].
  destruct (l !! h) as [x|] eqn:Hx.
  - destruct (decide (h = k)) as [->|Hne]; [congruence |].
    assert (addr_lt x y) as Hxy by (eapply sorted_lookup_lt; eauto; lia).
    apply negb_true_iff in Hh. apply negb_true_iff.
    destruct (Less y addr) eqn:Hya; [| done].
    by rewrite (Less_trans x y addr Hxy Hya) in Hh.
  - apply lookup_ge_None in Hx. lia.
Qed.

(** ** Binary search in a sorted list *)

(** Where [sort.Search] stops in a sorted list: everything before the
    returned index is less than [addr], nothing from it on is. *)
Lemma Search_sorted l addr :
  sorted l →
  Search (length l) (not_less_at l addr) ≤ length l
  ∧ (∀ k x, k < Search (length l) (not_less_at l addr) →
            l !! k = Some x → Less x addr = true)
  ∧ (∀ k x, Search (length l) (not_less_at l addr) ≤ k →
            l !! k = Some x → Less x addr = false).
Proof.
  intros Hs.
  destruct (Search_spec (length l) (not_less_at l addr)) as (Hle & Hlo & Hhi);
    [by apply not_less_at_monotone |].
  split; [done |]. split.
  - intros k x Hk Hx. specialize (Hlo k Hk). unfold not_less_at in Hlo.
    rewrite Hx in Hlo. by apply negb_false_iff in Hlo.
  - intros k x Hk Hx. pose proof (lookup_lt_Some _ _ _ Hx) as Hlen.
    specialize (Hhi k (conj Hk Hlen)). unfold not_less_at in Hhi.
    rewrite Hx in Hhi. by apply negb_true_iff in Hhi.
Qed.

(** In a sorted list the search lands on [addr] whenever it is there. *)
Lemma Search_hit l addr :
  sorted l → addr ∈ l →
  Search (length l) (not_less_at l addr) < length l
  ∧ l !! Search (length l) (not_less_at l addr) = Some addr.
Proof.
  intros Hs [k Hk]%list_elem_of_lookup_1.
  destruct (Search_sorted l addr Hs) as (Hle & Hlo & Hhi).
  set (i := Search (length l) (not_less_at l addr)) in *.
  pose proof (lookup_lt_Some _ _ _ Hk) as Hklen.
  assert (i ≤ k) as Hik.
  { destruct (decide (i ≤ k)); [done |].
    specialize (Hlo k addr ltac:(lia) Hk). by rewrite Less_irrefl in Hlo. }
  destruct (decide (i = k)) as [->|Hne]; [done |].
  destruct (lookup_lt_is_Some_2 l i ltac:(lia)) as [x Hx].
  specialize (Hhi i x ltac:(lia) Hx).
  assert (addr_lt x addr) as Hlt by (eapply sorted_lookup_lt; eauto; lia).
  unfold addr_lt in Hlt. congruence.
Qed.

Lemma Find_found l addr i : Find l addr = Z.of_nat i → l !! i = Some addr.
Proof.
  unfold Find. case_bool_decide as Hc; [| lia].
  intros Heq. apply Nat2Z.inj in Heq. subst i. by destruct Hc.
Qed.

Lemma Find_range l addr :
  Find l addr = (-1)%Z ∨ (0 ≤ Find l addr < Z.of_nat (length l))%Z.
Proof. unfold Find. case_bool_decide as Hc; [right; lia | by left]. Qed.

(** [Find] answers membership in a sorted list. *)
Lemma Find_neg_iff l addr : sorted l → (Find l addr < 0)%Z ↔ addr ∉ l.
Proof.
  intros Hs. unfold Find. case_bool_decide as Hc.
  - split; [lia |]. intros Hn. destruct Hn. destruct Hc as [_ Hc].
    by apply list_elem_of_lookup_2 in Hc.
  - split; [| lia]. intros _ Hin. apply Hc. by apply Search_hit.
Qed.

(** ** [Add] *)

(** Adding an address that is already in a sorted list changes nothing. *)
Lemma Add_existing l addr : sorted l → addr ∈ l → Add l addr = l.
Proof.
  intros Hs Hin. unfold Add.
  rewrite bool_decide_eq_true_2; [done | by apply Search_hit].
Qed.

(** Adding an address greater than all the others appends it. *)
Lemma Add_append l addr :
  (∀ x, x ∈ l → Less x addr = true) → Add l addr = l ++ [addr].
Proof.
  intros Hall.
  assert (Search (length l) (not_less_at l addr) = length l) as Hi.
  { unfold Search.
    destruct (search_loop_bounds (not_less_at l addr) 0 (length l) ltac:(lia))
      as (Hr & Ht & _).
    destruct (decide (search_loop (not_less_at l addr) 0 (length l) = length l))
      as [|Hne]; [done |].
    set (r := search_loop (not_less_at l addr) 0 (length l)) in *.
    specialize (Ht ltac:(lia)). unfold not_less_at in Ht.
    destruct (l !! r) as [x|] eqn:Hx.
    - apply list_elem_of_lookup_2, Hall in Hx. rewrite Hx in Ht. done.
    - apply lookup_ge_None in Hx. lia. }
  unfold Add. rewrite Hi.
  rewrite bool_decide_eq_false_2 by lia.
  by rewrite bool_decide_eq_true_2.
Qed.

(** What the "insert in the middle" branch builds: the displaced item goes
    to the end of the slice. *)
Lemma Add_middle l addr a :
  l !! Search (length l) (not_less_at l addr) = Some a → a ≠ addr →
  Add l addr = <[Search (length l) (not_less_at l addr) := addr]> (l ++ [a]).
Proof.
  intros Ha Hne. pose proof (lookup_lt_Some _ _ _ Ha) as Hlt. unfold Add.
  rewrite bool_decide_eq_false_2 by (intros [_ ?]; congruence).
  rewrite bool_decide_eq_false_2 by lia. by rewrite Ha.
Qed.

Lemma insert_snoc_Permutation {A} (l : list A) i a b :
  l !! i = Some a → <[i := b]> (l ++ [a]) ≡ₚ b :: l.
Proof.
  revert i. induction l as [|c l IH]; intros [|i] Hi; simplify_eq/=.
  - f_equiv. symmetry. apply Permutation_cons_append.
  - rewrite (IH i Hi). apply perm_swap.
Qed.

(** Whatever the branch, [Add] keeps the items of the list and adds
    [addr] when it was not there. *)
Lemma Add_Permutation l addr :
  sorted l → addr ∉ l → Add l addr ≡ₚ addr :: l.
Proof.
  intros Hs Hnin. unfold Add.
  rewrite bool_decide_eq_false_2
    by (intros [_ ?%list_elem_of_lookup_2]; done).
  case_bool_decide as Hlen.
  - symmetry. apply Permutation_cons_append.
  - destruct (Search_sorted l addr Hs) as (Hle & _ & _).
    destruct (lookup_lt_is_Some_2 l (Search (length l) (not_less_at l addr))
                ltac:(lia)) as [a Ha].
    rewrite Ha. by apply insert_snoc_Permutation.
Qed.

Lemma Add_elem_of l addr x :
  sorted l → x ∈ Add l addr ↔ x = addr ∨ x ∈ l.
Proof.
  intros Hs. destruct (decide (addr ∈ l)) as [Hin|Hnin].
  - rewrite Add_existing by done. split; [by right | by intros [->|]].
  - rewrite (Add_Permutation l addr Hs Hnin). apply elem_of_cons.
Qed.

Lemma Add_NoDup l addr : sorted l → NoDup (Add l addr).
Proof.
  intros Hs. destruct (decide (addr ∈ l)) as [Hin|Hnin].
  - rewrite Add_existing by done. by apply sorted_NoDup.
  - rewrite (Add_Permutation l addr Hs Hnin).
    constructor; [done | by apply sorted_NoDup].
Qed.

(** ** [Diff] *)

(** One loop of [Diff]: the items of an ascending list that pass the test
    are appended, in order, to an accumulator that lies below them. *)
Lemma foldl_Add_filter (P : UsbAddr → Prop) `{!∀ a, Decision (P a)}
    (keep : UsbAddr → bool) :
  (∀ a, keep a = true ↔ P a) →
  ∀ l acc, sorted (acc ++ l) →
    foldl (λ acc a, if keep a then Add acc a else acc) acc l = acc ++ filter P l.
Proof.
  intros Hkeep. induction l as [|a l IH]; intros acc Hs; simpl.
  - by rewrite filter_nil, app_nil_r.
  - destruct (keep a) eqn:Hka.
    + rewrite filter_cons_True by (by apply Hkeep).
      rewrite Add_append.
      * rewrite IH; [by rewrite <- app_assoc |].
        by rewrite <- app_assoc.
      * intros x Hx. apply (StronglySorted_app_1_elem_of _ _ _ _ _ Hs Hx).
        apply elem_of_cons. by left.
    + rewrite filter_cons_False
        by (rewrite <- Hkeep; congruence).
      apply IH. apply StronglySorted_app in Hs as (Hlt & Hacc & Hal).
      apply StronglySorted_app_2; [| done | by inversion Hal].
      intros x1 x2 Hx1 Hx2. apply Hlt; [done |]. apply elem_of_cons. by right.
Qed.

Lemma sorted_filter (P : UsbAddr → Prop) `{!∀ a, Decision (P a)} l :
  sorted l → sorted (filter P l).
Proof.
  induction 1 as [|a l Hs IH Hall]; [constructor |].
  rewrite filter_cons. case_decide; [| done].
  constructor; [done |]. rewrite Forall_forall in *.
  intros x [_ Hx]%list_elem_of_filter. by apply Hall.
Qed.

(** The two results of [Diff] in closed form. *)
Lemma Diff_filter list1 list2 :
  sorted list1 → sorted list2 →
  Diff list1 list2 =
    (filter (λ a, a ∉ list1) list2, filter (λ a, a ∉ list2) list1).
Proof.
  intros Hs1 Hs2. unfold Diff. f_equal.
  - rewrite (foldl_Add_filter (λ a, a ∉ list1)); [done | | done].
    intros a. rewrite Z.ltb_lt. by apply Find_neg_iff.
  - rewrite (foldl_Add_filter (λ a, a ∉ list2)); [done | | done].
    intros a. rewrite Z.ltb_lt. by apply Find_neg_iff.
Qed.

(** C2.  For sorted (hence duplicate-free) lists [list1] and [list2],
    [Diff list1 list2] returns [(added, removed)] where [added] holds
    exactly the addresses of [list2] that are not in [list1], [removed]
    exactly those of [list1] that are not in [list2], both are sorted in
    ascending order of (bus, address), no address is in both, and
    ([list1] ∪ [added]) \ [removed] has the same members as [list2]. *)
Theorem Diff_correct (list1 list2 : list UsbAddr) :
  sorted list1 → sorted list2 →
  let '(added, removed) := Diff list1 list2 in
  (∀ a, a ∈ added ↔ a ∈ list2 ∧ a ∉ list1)
  ∧ (∀ a, a ∈ removed ↔ a ∈ list1 ∧ a ∉ list2)
  ∧ sorted added ∧ sorted removed
  ∧ (∀ a, ¬ (a ∈ added ∧ a ∈ removed))
  ∧ (∀ a, ((a ∈ list1 ∨ a ∈ added) ∧ a ∉ removed) ↔ a ∈ list2).
Proof.
  intros Hs1 Hs2. rewrite Diff_filter by done.
  assert (∀ a, a ∈ filter (λ a, a ∉ list1) list2 ↔ a ∈ list2 ∧ a ∉ list1) as Hadd.
  { intros a. rewrite list_elem_of_filter. tauto. }
  assert (∀ a, a ∈ filter (λ a, a ∉ list2) list1 ↔ a ∈ list1 ∧ a ∉ list2) as Hrem.
  { intros a. rewrite list_elem_of_filter. tauto. }
  split; [done |]. split; [done |].
  split; [by apply sorted_filter |]. split; [by apply sorted_filter |].
  split.
  - intros a. rewrite Hadd, Hrem. tauto.
  - intros a. rewrite Hadd, Hrem.
    destruct (decide (a ∈ list1)), (decide (a ∈ list2)); tauto.
Qed.

(** A run of [Diff_correct] on two concrete bus snapshots. *)
Lemma Diff_correct_witness :
  let l1 := [mkUsbAddr 1 2; mkUsbAddr 1 5; mkUsbAddr 2 1] in
  let l2 := [mkUsbAddr 1 3; mkUsbAddr 1 5; mkUsbAddr 3 1] in
  sorted l1 ∧ sorted l2 ∧
  let '(added, removed) := Diff l1 l2 in
  (∀ a, a ∈ added ↔ a ∈ l2 ∧ a ∉ l1)
  ∧ (∀ a, a ∈ removed ↔ a ∈ l1 ∧ a ∉ l2)
  ∧ sorted added ∧ sorted removed
  ∧ (∀ a, ¬ (a ∈ added ∧ a ∈ removed))
  ∧ (∀ a, ((a ∈ l1 ∨ a ∈ added) ∧ a ∉ removed) ↔ a ∈ l2).
Proof.
  intros l1 l2.
  assert (sorted l1) as H1 by (vm_compute; repeat constructor).
  assert (sorted l2) as H2 by (vm_compute; repeat constructor).
  split; [exact H1 |]. split; [exact H2 |].
  exact (Diff_correct l1 l2 H1 H2).
Defined.

Example Diff_example :
  Diff [mkUsbAddr 1 2; mkUsbAddr 1 5; mkUsbAddr 2 1]
       [mkUsbAddr 1 3; mkUsbAddr 1 5; mkUsbAddr 3 1]
  = ([mkUsbAddr 1 3; mkUsbAddr 3 1], [mkUsbAddr 1 2; mkUsbAddr 2 1]).
Proof. reflexivity. Qed.

(** ** The defect of [Add] *)

(** C9 (defect).  When the new address belongs strictly inside the list
    and not at its last position, the "insert in the middle" branch moves
    the displaced item to the end instead of shifting the tail: the result
    of [Add] on a sorted list is no longer sorted. *)
Theorem Add_breaks_sorted :
  let l := [mkUsbAddr 1 1; mkUsbAddr 1 3; mkUsbAddr 1 5] in
  sorted l
  ∧ Add l (mkUsbAddr 1 2)
    = [mkUsbAddr 1 1; mkUsbAddr 1 2; mkUsbAddr 1 5; mkUsbAddr 1 3]
  ∧ ¬ sorted (Add l (mkUsbAddr 1 2)).
Proof.
  split; [vm_compute; repeat constructor |].
  split; [reflexivity |].
  intros Hs. eapply (sorted_lookup_lt _ 2 3) in Hs; [| reflexivity | reflexivity | lia].
  discriminate Hs.
Qed.

(** ** Further properties of the address lists *)

(** X1.  [Less] is a strict total order on addresses: irreflexive,
    transitive, asymmetric, and any two distinct addresses are ordered. *)
Theorem Less_strict_total_order :
  (∀ a, Less a a = false)
  ∧ (∀ a b c, Less a b = true → Less b c = true → Less a c = true)
  ∧ (∀ a b, Less a b = true → Less b a = false)
  ∧ (∀ a b, Less a b = true ∨ a = b ∨ Less b a = true).
Proof.
  split; [apply Less_irrefl |]. split; [apply Less_trans |].
  split; [apply Less_asym |].
  intros a b. destruct (Less a b) eqn:Hab; [by left |].
  destruct (Less b a) eqn:Hba; [by right; right |].
  right; left. by apply Less_total.
Qed.

(** X2.  On a sorted list [Find] returns the index of the address when it
    is in the list and -1 when it is not. *)
Theorem Find_sorted (l : list UsbAddr) (addr : UsbAddr) :
  sorted l →
  (addr ∈ l → ∃ i, Find l addr = Z.of_nat i ∧ l !! i = Some addr)
  ∧ (addr ∉ l → Find l addr = (-1)%Z).
Proof.
  intros Hs. split.
  - intros Hin. destruct (Search_hit l addr Hs Hin) as [Hlt Hi].
    exists (Search (length l) (not_less_at l addr)). split; [| done].
    unfold Find. by rewrite bool_decide_eq_true_2.
  - intros Hnin. apply (Find_neg_iff l addr Hs) in Hnin.
    destruct (Find_range l addr); [done | lia].
Qed.

Lemma Find_sorted_witness :
  let l := [mkUsbAddr 1 2; mkUsbAddr 1 5; mkUsbAddr 2 1] in
  sorted l ∧ Find l (mkUsbAddr 1 5) = 1%Z ∧ Find l (mkUsbAddr 1 4) = (-1)%Z.
Proof.
  intros l.
  assert (sorted l) as Hs by (vm_compute; repeat constructor).
  split; [exact Hs |]. split; [reflexivity |].
  apply (proj2 (Find_sorted l (mkUsbAddr 1 4) Hs)).
  intros Hin. by vm_compute in Hin; repeat (apply elem_of_cons in Hin as [?|Hin]);
    try discriminate; apply elem_of_nil in Hin.
Defined.

(** Whatever the order of the list, a result of [Find] other than -1
    is the index of an occurrence of the address: [Find] never points at
    another item or past the end. *)
Theorem Find_never_wrong (l : list UsbAddr) (addr : UsbAddr) :
  Find l addr = (-1)%Z
  ∨ ∃ i, Find l addr = Z.of_nat i ∧ i < length l ∧ l !! i = Some addr.
Proof.
  unfold Find. case_bool_decide as Hc; [| by left].
  right. eexists. split; [done |]. by destruct Hc.
Qed.

(** X3.  On a sorted list [Add] keeps every item, adds the address when
    it was missing, and creates no duplicate; the length grows by one
    exactly when the address is new. *)
Theorem Add_members (l : list UsbAddr) (addr : UsbAddr) :
  sorted l →
  (∀ x, x ∈ Add l addr ↔ x = addr ∨ x ∈ l)
  ∧ NoDup (Add l addr)
  ∧ length (Add l addr) = (if decide (addr ∈ l) then length l else S (length l)).
Proof.
  intros Hs. split; [intros x; by apply Add_elem_of |].
  split; [by apply Add_NoDup |].
  case_decide as Hin.
  - by rewrite Add_existing.
  - by rewrite (Add_Permutation l addr Hs Hin).
Qed.

Lemma Add_members_witness :
  let l := [mkUsbAddr 1 1; mkUsbAddr 1 3; mkUsbAddr 1 5] in
  sorted l
  ∧ (∀ x, x ∈ Add l (mkUsbAddr 1 2) ↔ x = mkUsbAddr 1 2 ∨ x ∈ l)
  ∧ NoDup (Add l (mkUsbAddr 1 2))
  ∧ length (Add l (mkUsbAddr 1 2)) = 4.
Proof.
  intros l.
  assert (sorted l) as Hs by (vm_compute; repeat constructor).
  destruct (Add_members l (mkUsbAddr 1 2) Hs) as (Hm & Hn & _).
  split; [exact Hs |]. split; [exact Hm |]. split; [exact Hn | reflexivity].
Defined.

Lemma insert_snoc_middle {A} (l : list A) i a b :
  i < length l →
  <[i := b]> (l ++ [a]) = take i l ++ b :: drop (S i) l ++ [a].
Proof.
  intros Hi. rewrite insert_take_drop by (rewrite length_app; simpl; lia).
  rewrite take_app_le by lia. by rewrite drop_app_le by lia.
Qed.

(** X4.  Where [Add] keeps the order: adding a new address to a sorted
    list gives a sorted list exactly when every item but possibly the last
    is less than the new address. *)
Theorem Add_sorted_iff (l : list UsbAddr) (addr : UsbAddr) :
  sorted l → addr ∉ l →
  sorted (Add l addr)
  ↔ (∀ j x, S j < length l → l !! j = Some x → Less x addr = true).
Proof.
  intros Hs Hnin.
  destruct (Search_sorted l addr Hs) as (Hle & Hlo & Hhi).
  set (i := Search (length l) (not_less_at l addr)) in *.
  destruct (decide (i = length l)) as [Hlen|Hlen].
  { (* the new address goes to the end *)
    rewrite Add_append.
    - split.
      + intros _ j x Hj Hx. apply (Hlo j x); [lia | done].
      + intros _. apply StronglySorted_app_2; [| done | repeat constructor].
        intros x1 x2 Hx1 ->%list_elem_of_singleton.
        apply list_elem_of_lookup_1 in Hx1 as [k Hk].
        apply (Hlo k x1); [| done]. apply lookup_lt_Some in Hk. lia.
    - intros x [k Hk]%list_elem_of_lookup_1.
      apply (Hlo k x); [| done]. apply lookup_lt_Some in Hk. lia. }
  destruct (lookup_lt_is_Some_2 l i ltac:(lia)) as [a Ha].
  assert (a ≠ addr) as Hne by (intros ->; by apply list_elem_of_lookup_2 in Ha).
  assert (Less addr a = true) as Haddr_a.
  { pose proof (Hhi i a ltac:(lia) Ha) as Hna.
    destruct (Less addr a) eqn:E; [done |].
    destruct Hne. by apply Less_total. }
  fold i in Ha. rewrite (Add_middle l addr a Ha Hne). fold i.
  rewrite insert_snoc_middle by lia.
  split.
  - intros Hsorted j x Hj Hx.
    destruct (decide (j < i)) as [Hji|Hji]; [by apply (Hlo j x) |].
    exfalso.
    (* the item after index i precedes the displaced item, now last *)
    destruct (lookup_lt_is_Some_2 l (S i) ltac:(lia)) as [b Hb].
    assert (addr_lt a b) as Hab
      by (apply (sorted_lookup_lt l i (S i) a b Hs Ha Hb); lia).
    assert (drop (S i) l = b :: drop (S (S i)) l) as Hd
      by (by apply drop_S).
    rewrite Hd in Hsorted.
    apply StronglySorted_app_1_r in Hsorted.
    apply StronglySorted_inv in Hsorted as [Hsorted _].
    apply StronglySorted_inv in Hsorted as [_ Hall].
    rewrite Forall_forall in Hall.
    assert (addr_lt b a) as Hba
      by (apply Hall, elem_of_app; right; by apply list_elem_of_singleton).
    unfold addr_lt in *. by rewrite (Less_asym a b Hab) in Hba.
  - intros Hall.
    assert (S i = length l) as Hlast.
    { destruct (decide (S i = length l)); [done |].
      pose proof (Hall i a ltac:(lia) Ha) as Hlt.
      pose proof (Hhi i a ltac:(lia) Ha). congruence. }
    rewrite drop_ge by lia. simpl.
    apply StronglySorted_app_2.
    + intros x1 x2 [k [Hk Hki]]%elem_of_take Hx2.
      assert (Less x1 addr = true) as Hx1 by (by apply (Hlo k x1)).
      apply elem_of_cons in Hx2 as [->|Hx2]; [done |].
      apply list_elem_of_singleton in Hx2 as ->.
      by apply (Less_trans x1 addr a).
    + rewrite <- (take_drop i l) in Hs. by apply StronglySorted_app_1_l in Hs.
    + repeat constructor. done.
Qed.

Lemma Add_sorted_iff_witness :
  let l := [mkUsbAddr 1 1; mkUsbAddr 1 3; mkUsbAddr 1 5] in
  sorted l ∧ (mkUsbAddr 1 4 ∉ l) ∧ sorted (Add l (mkUsbAddr 1 4)).
Proof.
  intros l.
  assert (sorted l) as Hs by (vm_compute; repeat constructor).
  assert (mkUsbAddr 1 4 ∉ l) as Hn.
  { intros Hin. repeat (apply elem_of_cons in Hin as [?|Hin]; [discriminate |]).
    by apply elem_of_nil in Hin. }
  split; [exact Hs |]. split; [exact Hn |].
  apply (proj2 (Add_sorted_iff l (mkUsbAddr 1 4) Hs Hn)).
  intros [|[|j]] x Hj Hx; simpl in *; simplify_eq; [reflexivity | reflexivity | lia].
Defined.

Lemma filter_all_true {A} (P : A → Prop) `{!∀ x, Decision (P x)} (l : list A) :
  (∀ x, x ∈ l → P x) → filter P l = l.
Proof.
  induction l as [|x l IH]; intros Hall; [done |].
  rewrite filter_cons_True by (apply Hall; left).
  f_equal. apply IH. intros y Hy. apply Hall. by right.
Qed.

Lemma filter_all_false {A} (P : A → Prop) `{!∀ x, Decision (P x)} (l : list A) :
  (∀ x, x ∈ l → ¬ P x) → filter P l = [].
Proof.
  induction l as [|x l IH]; intros Hall; [done |].
  rewrite filter_cons_False by (apply Hall; left).
  apply IH. intros y Hy. apply Hall. by right.
Qed.

(** X5.  The corner cases of [Diff] on a sorted list: against itself
    nothing is added or removed; from the empty list everything is added,
    in order; to the empty list everything is removed, in order. *)
Theorem Diff_corner_cases (l : list UsbAddr) :
  sorted l →
  Diff l l = ([], []) ∧ Diff [] l = (l, []) ∧ Diff l [] = ([], l).
Proof.
  intros Hs. assert (sorted []) as Hnil by constructor.
  rewrite !Diff_filter by done.
  rewrite (filter_all_false (λ a, a ∉ l) l) by (intros x Hx Hn; done).
  rewrite (filter_all_true (λ a, a ∉ []) l) by (intros x _; apply not_elem_of_nil).
  by rewrite !filter_nil.
Qed.

Lemma Diff_corner_cases_witness :
  let l := [mkUsbAddr 1 2; mkUsbAddr 1 5; mkUsbAddr 2 1] in
  sorted l ∧ Diff l l = ([], []) ∧ Diff [] l = (l, []) ∧ Diff l [] = ([], l).
Proof.
  intros l.
  assert (sorted l) as Hs by (vm_compute; repeat constructor).
  split; [exact Hs | exact (Diff_corner_cases l Hs)].
Defined.

End Usb.

(** * Module [GoStrings]: the functions of the Go library in use

    Go strings are sequences of bytes, read as UTF-8 where a function
    works on runes.  The module holds the byte-level behaviour of
    [strings.Split] (one-byte separator), [strings.HasPrefix] and
    [textproto.CanonicalMIMEHeaderKey], the decoding and encoding of runes
    of [unicode/utf8], and on top of it [strings.TrimSpace] /
    [bytes.TrimSpace], [strings.Map] and [strings.ToLower]. *)

Module GoStrings.

Definition byte_in (lo hi : nat) (c : ascii) : bool :=
  (lo <=? nat_of_ascii c) && (nat_of_ascii c <=? hi).

Definition is_lower (c : ascii) : bool := byte_in 97 122 c.
Definition is_upper (c : ascii) : bool := byte_in 65 90 c.
Definition is_digit (c : ascii) : bool := byte_in 48 57 c.

Definition to_upper (c : ascii) : ascii :=
  if is_lower c then ascii_of_nat (nat_of_ascii c - 32) else c.
Definition to_lower (c : ascii) : ascii :=
  if is_upper c then ascii_of_nat (nat_of_ascii c + 32) else c.

Fixpoint string_forallb (p : ascii → bool) (s : string) : bool :=
  match s with
  | EmptyString => true
  | String c s' => p c && string_forallb p s'
  end.

Fixpoint string_map (f : ascii → ascii) (s : string) : string :=
  match s with
  | EmptyString => EmptyString
  | String c s' => String (f c) (string_map f s')
  end.

Definition HasPrefix (s pre : string) : bool := String.prefix pre s.

(** [strings.TrimPrefix] *)
Definition TrimPrefix (s pre : string) : string :=
  if HasPrefix s pre
  then String.substring (String.length pre) (String.length s - String.length pre) s
  else s.

(** ** Runes: package [unicode/utf8] *)

Section utf8.

Local Open Scope Z_scope.

(** A byte as a number, and a number below 256 as a byte. *)
Definition byteval (c : ascii) : Z := Z.of_nat (nat_of_ascii c).
Definition mkbyte (n : Z) : ascii := ascii_of_nat (Z.to_nat (n mod 256)).

(** [s[i]]; the callers stay within the string. *)
Definition byteAt (s : string) (i : Z) : Z :=
  match String.get (Z.to_nat i) s with
  | Some c => byteval c
  | None => 0
  end.

(** [s[i:j]] *)
Definition slice (s : string) (i j : Z) : string :=
  String.substring (Z.to_nat i) (Z.to_nat (j - i)) s.

(** [utf8.RuneError], U+FFFD. *)
Definition RuneError : Z := 0xFFFD.

(** A continuation byte within the bounds the first byte allows. *)
Definition accepted (lo hi : Z) (c : ascii) : bool :=
  (lo <=? byteval c) && (byteval c <=? hi).

Definition cont (c : ascii) : Z := Z.land (byteval c) 0x3F.

(** [utf8.DecodeRuneInString]: the first rune of [s] and its width in
    bytes.  A byte below 0x80 is a rune.  The first byte of a longer rune
    tells the width and the bounds of the second byte (the table [first]:
    0xC2..0xDF two bytes; 0xE0..0xEF three, second byte from 0xA0 after
    0xE0 and up to 0x9F after 0xED; 0xF0..0xF4 four, second byte from 0x90
    after 0xF0 and up to 0x8F after 0xF4; a further byte from 0x80 to
    0xBF).  Anything else is [RuneError] of width 1; the empty string is
    [RuneError] of width 0. *)
Definition DecodeRuneInString (s : string) : Z * nat :=
  match s with
  | EmptyString => (RuneError, 0%nat)
  | String c0 rest =>
      let s0 := byteval c0 in
      if (s0 <? 0x80) then (s0, 1%nat)
      else if (s0 <? 0xC2) || (0xF4 <? s0) then (RuneError, 1%nat)
      else
        let lo := if (s0 =? 0xE0) then 0xA0 else if (s0 =? 0xF0) then 0x90 else 0x80 in
        let hi := if (s0 =? 0xED) then 0x9F else if (s0 =? 0xF4) then 0x8F else 0xBF in
        if (s0 <? 0xE0) then
          match rest with
          | String c1 _ =>
              if accepted lo hi c1
              then (Z.lor (Z.shiftl (Z.land s0 0x1F) 6) (cont c1), 2%nat)
              else (RuneError, 1%nat)
          | _ => (RuneError, 1%nat)
          end
        else if (s0 <? 0xF0) then
          match rest with
          | String c1 (String c2 _) =>
              if accepted lo hi c1 && accepted 0x80 0xBF c2
              then (Z.lor (Z.lor (Z.shiftl (Z.land s0 0x0F) 12)
                                 (Z.shiftl (cont c1) 6)) (cont c2), 3%nat)
              else (RuneError, 1%nat)
          | _ => (RuneError, 1%nat)
          end
        else
          match rest with
          | String c1 (String c2 (String c3 _)) =>
              if accepted lo hi c1 && accepted 0x80 0xBF c2 && accepted 0x80 0xBF c3
              then (Z.lor (Z.lor (Z.lor (Z.shiftl (Z.land s0 0x07) 18)
                                        (Z.shiftl (cont c1) 12))
                                 (Z.shiftl (cont c2) 6)) (cont c3), 4%nat)
              else (RuneError, 1%nat)
          | _ => (RuneError, 1%nat)
          end
  end.

(** [utf8.RuneStart]: not a continuation byte. *)
Definition RuneStart (b : Z) : bool := negb (Z.land b 0xC0 =? 0x80).

(** The loop [for start--; start >= lim; start-- { if RuneStart(s[start])
    { break } }] of [DecodeLastRuneInString]; it runs [UTFMax - 1] times
    at most. *)
Fixpoint backToRuneStart (n : nat) (s : string) (start lim : Z) : Z :=
  match n with
  | O => start
  | S n =>
      if (start <? lim) then start
      else if RuneStart (byteAt s start) then start
      else backToRuneStart n s (start - 1) lim
  end.

(** [utf8.DecodeLastRuneInString]: the last rune of [s] and its width. *)
Definition DecodeLastRuneInString (s : string) : Z * nat :=
  let end_ := Z.of_nat (String.length s) in
  if (end_ =? 0) then (RuneError, 0%nat)
  else
    let start := (end_ - 1) in
    let r := byteAt s start in
    if (r <? 0x80) then (r, 1%nat)
    else
      let lim := Z.max 0 (end_ - 4) in
      let start := backToRuneStart 4%nat s (start - 1) lim in
      let start := if (start <? 0) then 0%Z else start in
      let '(r, size) := DecodeRuneInString (slice s start end_) in
      if (start + Z.of_nat size =? end_) then (r, size) else (RuneError, 1%nat).

(** [utf8.AppendRune] / [WriteRune]: the UTF-8 encoding of a rune; a
    surrogate or a value beyond U+10FFFF is written as U+FFFD. *)
Definition EncodeRune (r : Z) : string :=
  let tail (r : Z) (shift : Z) : ascii :=
    mkbyte (Z.lor 0x80 (Z.land (Z.shiftr r shift) 0x3F)) in
  let three (r : Z) : string :=
    String (mkbyte (Z.lor 0xE0 (Z.shiftr r 12)))
      (String (tail r 6) (String (tail r 0) EmptyString)) in
  if (r <? 0) || (0x10FFFF <? r) || ((0xD800 <=? r) && (r <=? 0xDFFF))
  then three RuneError
  else if (r <=? 0x7F) then String (mkbyte r) EmptyString
  else if (r <=? 0x7FF) then
    String (mkbyte (Z.lor 0xC0 (Z.shiftr r 6))) (String (tail r 0) EmptyString)
  else if (r <=? 0xFFFF) then three r
  else
    String (mkbyte (Z.lor 0xF0 (Z.shiftr r 18)))
      (String (tail r 12) (String (tail r 6) (String (tail r 0) EmptyString))).

(** ** Package [unicode] *)

(** [unicode.IsSpace]: the Latin-1 spaces, and beyond Latin-1 the table
    [White_Space]. *)
Definition IsSpace (r : Z) : bool :=
  if (0 <=? r) && (r <=? 0xFF) then
    ((0x09 <=? r) && (r <=? 0x0D)) || (r =? 0x20)
    || (r =? 0x85) || (r =? 0xA0)
  else
    (r =? 0x1680) || ((0x2000 <=? r) && (r <=? 0x200A))
    || (r =? 0x2028) || (r =? 0x2029) || (r =? 0x202F)
    || (r =? 0x205F) || (r =? 0x3000).

(** ** Package [strings] *)

(** [indexFunc]: the index of the first rune [r] of [s] with
    [f(r) == truth], or -1.  [range] over a string goes rune by rune, an
    invalid byte being the rune U+FFFD of width 1; [skip] counts the bytes
    of the current rune still to pass. *)
Fixpoint indexFunc_from (f : Z → bool) (truth : bool) (s : string)
    (i : Z) (skip : nat) : Z :=
  match s with
  | EmptyString => (-1)
  | String _ s' =>
      match skip with
      | S skip => indexFunc_from f truth s' (i + 1) skip
      | O =>
          let '(r, width) := DecodeRuneInString s in
          if Bool.eqb (f r) truth then i
          else indexFunc_from f truth s' (i + 1) (width - 1)%nat
      end
  end.

Definition indexFunc (s : string) (f : Z → bool) (truth : bool) : Z :=
  indexFunc_from f truth s 0 0%nat.

(** [lastIndexFunc]: the index of the last rune [r] of [s] with
    [f(r) == truth], or -1; the runes are read from the end with
    [DecodeLastRuneInString].  [i] is the end of the part still to read. *)
Fixpoint lastIndexFunc_from (f : Z → bool) (truth : bool) (s : string)
    (i : nat) (skip : nat) : Z :=
  match i with
  | O => (-1)
  | S i' =>
      match skip with
      | S skip => lastIndexFunc_from f truth s i' skip
      | O =>
          let '(r, size) := DecodeLastRuneInString (slice s 0 (Z.of_nat i)) in
          if Bool.eqb (f r) truth then (Z.of_nat i - Z.of_nat size)
          else lastIndexFunc_from f truth s i' (size - 1)%nat
      end
  end.

Definition lastIndexFunc (s : string) (f : Z → bool) (truth : bool) : Z :=
  lastIndexFunc_from f truth s (String.length s) 0%nat.

(** [strings.TrimLeftFunc] *)
Definition TrimLeftFunc (s : string) (f : Z → bool) : string :=
  let i := indexFunc s f false in
  if (i =? -1) then EmptyString
  else slice s i (Z.of_nat (String.length s)).

(** [strings.TrimRightFunc] *)
Definition TrimRightFunc (s : string) (f : Z → bool) : string :=
  let i := lastIndexFunc s f false in
  let i :=
    if (0 <=? i) && (0x80 <=? byteAt s i) then
      (i + Z.of_nat (DecodeRuneInString (slice s i (Z.of_nat (String.length s)))).2)
    else (i + 1) in
  slice s 0 i.

(** [strings.TrimFunc] *)
Definition TrimFunc (s : string) (f : Z → bool) : string :=
  TrimRightFunc (TrimLeftFunc s f) f.

(** [strings.TrimSpace] and [bytes.TrimSpace]: [s] without the white
    space, as [unicode.IsSpace] defines it, at its two ends.  The library
    passes the ASCII spaces in a loop of its own before it turns to
    [TrimFunc]; the result is that of [TrimFunc]. *)
Definition TrimSpace (s : string) : string := TrimFunc s IsSpace.

(** [strings.Map]: the runes of [s], each replaced by its image and
    written in UTF-8; a rune with a negative image is dropped.  An invalid
    byte is handed to [mapping] as U+FFFD. *)
Fixpoint Map_from (mapping : Z → Z) (s : string) (skip : nat) : string :=
  match s with
  | EmptyString => EmptyString
  | String _ s' =>
      match skip with
      | S skip => Map_from mapping s' skip
      | O =>
          let '(c, width) := DecodeRuneInString s in
          let r := mapping c in
          (if (0 <=? r) then EncodeRune r else EmptyString)
          +:+ Map_from mapping s' (width - 1)%nat
      end
  end.

Definition Map (mapping : Z → Z) (s : string) : string := Map_from mapping s 0%nat.

Section case_table.

(** [unicode.ToLower] above U+007F is a lookup in the table [CaseRanges]
    of package [unicode], which comes with the Go release and is taken as
    given. *)
Variable CaseRanges_lower : Z → Z.

(** [unicode.ToLower] *)
Definition unicode_ToLower (r : Z) : Z :=
  if (r <=? 0x7F) then
    if (0x41 <=? r) && (r <=? 0x5A) then (r + 0x20) else r
  else CaseRanges_lower r.

(** [strings.ToLower]: a string of ASCII bytes has its upper-case letters
    lowered byte by byte; any other string is mapped rune by rune. *)
Definition ToLower (s : string) : string :=
  if string_forallb (λ c, (byteval c <? 0x80)) s then string_map to_lower s
  else Map unicode_ToLower s.

End case_table.

End utf8.

(** [strings.Split(s, sep)] for a separator of one byte: the pieces of [s]
    between the occurrences of [sep]; always at least one piece. *)
Fixpoint Split (s : string) (sep : ascii) : list string :=
  match s with
  | EmptyString => [EmptyString]
  | String c s' =>
      if Ascii.eqb c sep then EmptyString :: Split s' sep
      else match Split s' sep with
           | piece :: rest => String c piece :: rest
           | [] => [String c EmptyString]
           end
  end.

(** [validHeaderFieldByte]: the token characters of RFC 7230. *)
Definition validHeaderFieldByte (c : ascii) : bool :=
  is_lower c || is_upper c || is_digit c
  || existsb (Ascii.eqb c) (list_ascii_of_string "!#$%&'*+-.^_`|~").

Fixpoint canon (upper : bool) (s : string) : string :=
  match s with
  | EmptyString => EmptyString
  | String c s' =>
      let c' := if upper then to_upper c else to_lower c in
      String c' (canon (Ascii.eqb c' "-"%char) s')
  end.

(** [textproto.CanonicalMIMEHeaderKey]: a key with a byte that is not a
    token character is returned unchanged; otherwise the first letter and
    every letter after a hyphen are upper-cased, the others lower-cased. *)
Definition CanonicalMIMEHeaderKey (s : string) : string :=
  if string_forallb validHeaderFieldByte s then canon true s else s.

Example Split_example :
  Split "close, X-Foo,,te" ","%char = ["close"; " X-Foo"; EmptyString; "te"].
Proof. reflexivity. Qed.

Example TrimSpace_example : TrimSpace "  keep alive  " = "keep alive".
Proof. reflexivity. Qed.

(** U+00A0, the no-break space, and U+212A, the Kelvin sign, in UTF-8. *)
Definition nbsp : string := String (mkbyte 194) (String (mkbyte 160) EmptyString).
Definition kelvin : string :=
  String (mkbyte 226) (String (mkbyte 132) (String (mkbyte 170) EmptyString)).

Example TrimSpace_nbsp :
  TrimSpace (nbsp +:+ " X-Token" +:+ nbsp) = "X-Token"
  ∧ TrimSpace ("a" +:+ String (mkbyte 160) " ") = "a" +:+ String (mkbyte 160) EmptyString.
Proof. split; reflexivity. Qed.

Example ToLower_example :
  (∀ table, ToLower table "RGB24" = "rgb24")
  ∧ ToLower (λ r, if (r =? 8490)%Z then 107%Z else r) ("Blac" +:+ kelvin) = "black".
Proof. split; reflexivity. Qed.

Example Canonical_example :
  CanonicalMIMEHeaderKey "x-fOO-bar" = "X-Foo-Bar"
  ∧ CanonicalMIMEHeaderKey "bad key" = "bad key".
Proof. split; reflexivity. Qed.

End GoStrings.

(** * Module [Http]: the HTTP reverse proxy *)

Module Http.
Import GoStrings.

(** ** [http.Header] *)

(** [http.Header] is [map[string][]string]; the keys stored by the HTTP
    server and client are in canonical form. *)
Abbreviation Header := (gmap string (list string)).

(** [func (h Header) Get(key string) string]: the first value of the
    canonical key, or the empty string. *)
Definition Get (h : Header) (key : string) : string :=
  match h !! CanonicalMIMEHeaderKey key with
  | Some (v :: _) => v
  | _ => EmptyString
  end.

(** [func (h Header) Del(key string)] *)
Definition Del (h : Header) (key : string) : Header :=
  delete (CanonicalMIMEHeaderKey key) h.

(** [func (h Header) Set(key, value string)] *)
Definition Set_ (h : Header) (key value : string) : Header :=
  <[CanonicalMIMEHeaderKey key := [value]]> h.

(** ** Requests, responses and the response writer *)

(** The parts of [url.URL] the proxy reads or writes; [Rest] stands for
    the path, the query and the other fields, which it leaves alone. *)
Record URL : Type := mkURL {
  Scheme : string;
  URLHost : string;
  Rest : string
}.

(** [func (u *URL) IsAbs() bool] *)
Definition IsAbs (u : URL) : bool :=
  negb (bool_decide (Scheme u = EmptyString)).

(** [http.Request].  [LocalAddr] is the value found in the request
    context under [http.LocalAddrContextKey], rendered by [String()];
    [None] when the context has no such value or it is not a [net.Addr]. *)
Record Request : Type := mkRequest {
  Method : string;
  ReqURL : URL;
  ReqHeader : Header;
  Host : string;
  ReqBody : string;
  LocalAddr : option string
}.

(** [http.Response].  [RespBody] stands for the bytes that [io.Copy] takes
    from [resp.Body] and gives to the writer: the whole body, unless a read
    from the device or a write to the client fails on the way. *)
Record Response : Type := mkResponse {
  StatusCode : Z;
  RespHeader : Header;
  RespBody : string
}.

(** What the handler has handed to its [http.ResponseWriter]: the header
    map [w.Header()], the status code given to [WriteHeader], and the
    bytes given to [Write], in order.  What the server of [net/http] then
    puts on the wire (no body for HEAD or after a status 1xx, 204 or 304,
    the headers it adds, the check of Content-Length) is the business of
    the library and not part of the model. *)
Record ResponseWriter : Type := mkResponseWriter {
  WHeader : Header;
  WStatus : option Z;
  WBody : string
}.

(** The writer the server hands to the handler for each request. *)
Definition newResponseWriter : ResponseWriter :=
  mkResponseWriter ∅ None EmptyString.

(** [w.WriteHeader]: the status code of the first call is the one kept. *)
Definition WriteHeader (w : ResponseWriter) (status : Z) : ResponseWriter :=
  match WStatus w with
  | Some _ => w
  | None => mkResponseWriter (WHeader w) (Some status) (WBody w)
  end.

(** [w.Write]: the data follows what was written before; a first write
    without [WriteHeader] stands for status 200. *)
Definition Write (w : ResponseWriter) (data : string) : ResponseWriter :=
  let w := WriteHeader w 200 in
  mkResponseWriter (WHeader w) (WStatus w) (WBody w +:+ data).

Definition withHeader (w : ResponseWriter) (h : Header) : ResponseWriter :=
  mkResponseWriter h (WStatus w) (WBody w).

(** ** The session counter *)

(** Two's complement wrap-around of [int32] arithmetic. *)
Definition wrap32 (x : Z) : Z := ((x + 2 ^ 31) mod 2 ^ 32 - 2 ^ 31)%Z.

(** [atomic.AddInt32(&v, delta)]: the new value of the variable, which is
    also the value returned. *)
Definition AddInt32 (v delta : Z) : Z := wrap32 (v + delta).

(** [session := atomic.AddInt32(&httpSessionId, 1) - 1]: the new value of
    the counter and the session id. *)
Definition session_enter (httpSessionId : Z) : Z * Z :=
  let v := AddInt32 httpSessionId 1 in (v, wrap32 (v - 1)).

(** [defer atomic.AddInt32(&httpSessionId, -1)] *)
Definition session_leave (httpSessionId : Z) : Z :=
  AddInt32 httpSessionId (-1).

(** ** Header rewriting *)

(** The fixed list of [httpRemoveHopByHopHeaders]. *)
Definition hopByHopHeaders : list string :=
  ["Connection"; "Keep-Alive"; "Proxy-Authenticate"; "Proxy-Connection";
   "Proxy-Authorization"; "Te"; "Trailer"; "Transfer-Encoding"].

(** One turn of the loop over the fields of the Connection header. *)
Definition delConnectionField (hdr : Header) (f : string) : Header :=
  let f := TrimSpace f in
  if bool_decide (f ≠ EmptyString) then Del hdr f else hdr.

(** [func httpRemoveHopByHopHeaders(hdr http.Header)]; the result is the
    header map after the call. *)
Definition httpRemoveHopByHopHeaders (hdr : Header) : Header :=
  let c := Get hdr "Connection" in
  let hdr :=
    if bool_decide (c ≠ EmptyString)
    then foldl delConnectionField hdr (Split c ","%char)
    else hdr in
  foldl Del hdr hopByHopHeaders.

(** [func httpCopyHeaders(dst, src http.Header)] *)
Definition httpCopyHeaders (dst src : Header) : Header :=
  map_fold (λ k v dst, <[k := v]> dst) dst src.

(** [func httpNoCache(w http.ResponseWriter)] *)
Definition httpNoCache (w : ResponseWriter) : ResponseWriter :=
  let h := Set_ (WHeader w) "Cache-Control" "no-cache, no-store, must-revalidate" in
  let h := Set_ h "Pragma" "no-cache" in
  let h := Set_ h "Expires" "0" in
  withHeader w h.

Definition newline : string := String (ascii_of_nat 10) EmptyString.

Section proxy.

(** [fmt.Sprintf(format)] without operands.  A text without percent sign
    comes back as it is; a verb in it is replaced by a note such as
    [%!s(MISSING)].  The facts below that depend on the text written say
    which of the two they assume. *)
Variable Sprintf : string → string.

(** The [http.RoundTripper] of the proxy: a response or an error text. *)
Variable RoundTrip : Request → Response + string.

(** [func httpError(session, w, r, status, format, args...)]; every call
    in the proxy passes no [args]. *)
Definition httpError (w : ResponseWriter) (status : Z) (format : string)
  : ResponseWriter :=
  let w := withHeader w (Set_ (WHeader w) "Content-Type" "text/plain; charset=utf-8") in
  let w := httpNoCache w in
  let w := WriteHeader w status in
  let msg := Sprintf format +:+ newline in
  let w := Write w msg in
  Write w newline.

(** The outcome of one call of the handler: the session id it logged
    under, what it wrote to the response writer, and the requests handed
    to the transport, in order. *)
Record Exchange : Type := mkExchange {
  Session : Z;
  Written : ResponseWriter;
  Forwarded : list Request
}.

(** The adjustment of the request between the sanity checks and the
    round trip. *)
Definition adjustRequest (r : Request) : Request :=
  (* Adjust request headers *)
  let hdr := httpRemoveHopByHopHeaders (ReqHeader r) in
  let host :=
    if bool_decide (Host r = EmptyString) then
      match LocalAddr r with
      | Some addr => addr
      | None => Host r
      end
    else Host r in
  (* r.URL.Scheme = "http"; r.URL.Host = r.Host *)
  mkRequest (Method r) (mkURL "http" host (Rest (ReqURL r))) hdr host
            (ReqBody r) (LocalAddr r).

(** The body of [func (proxy *HttpProxy) ServeHTTP(w, r)], between the two
    updates of the session counter. *)
Definition serve (session : Z) (w : ResponseWriter) (r : Request) : Exchange :=
  (* Perform sanity checking *)
  if bool_decide (Method r = "CONNECT") then
    mkExchange session (httpError w 405 "CONNECT not allowed") []
  else if bool_decide (Get (ReqHeader r) "Upgrade" ≠ EmptyString) then
    mkExchange session (httpError w 503 "Protocol upgrade is not implemented") []
  else if IsAbs (ReqURL r) then
    mkExchange session (httpError w 503 "Absolute URL not allowed") []
  else
    let r := adjustRequest r in
    (* Serve the request *)
    match RoundTrip r with
    | inr err => mkExchange session (httpError w 503 err) [r]
    | inl resp =>
        let hdr := httpRemoveHopByHopHeaders (RespHeader resp) in
        let w := withHeader w (httpCopyHeaders (WHeader w) hdr) in
        let w := WriteHeader w (StatusCode resp) in
        let w := Write w (RespBody resp) in
        mkExchange session w [r]
    end.

(** [ServeHTTP] run from start to end with no other handler in between:
    the exchange and the value of [httpSessionId] when it returns. *)
Definition ServeHTTP (httpSessionId : Z) (r : Request) : Exchange * Z :=
  let '(counter, session) := session_enter httpSessionId in
  let ex := serve session newResponseWriter r in
  (ex, session_leave counter).

Lemma ServeHTTP_serve httpSessionId r :
  (ServeHTTP httpSessionId r).1
  = serve (session_enter httpSessionId).2 newResponseWriter r.
Proof. reflexivity. Qed.

End proxy.

(** ** What [httpRemoveHopByHopHeaders] removes *)

(** The keys deleted by the loop over the Connection fields [fs]. *)
Definition connectionKeys (fs : list string) : list string :=
  CanonicalMIMEHeaderKey <$> filter (λ f, f ≠ EmptyString) (TrimSpace <$> fs).

Lemma lookup_Del (h : Header) key k :
  Del h key !! k = if decide (CanonicalMIMEHeaderKey key = k) then None else h !! k.
Proof. unfold Del. apply lookup_delete. Qed.

Lemma lookup_foldl_Del keys : ∀ (h : Header) k,
  foldl Del h keys !! k =
  if decide (k ∈ CanonicalMIMEHeaderKey <$> keys) then None else h !! k.
Proof.
  induction keys as [|key keys IH]; intros h k; cbn [foldl].
  - case_decide as Hin; [by apply not_elem_of_nil in Hin | done].
  - rewrite IH, lookup_Del, fmap_cons.
    destruct (decide (k ∈ CanonicalMIMEHeaderKey <$> keys)) as [Hin|Hnin].
    + by rewrite decide_True by (by apply list_elem_of_further).
    + destruct (decide (CanonicalMIMEHeaderKey key = k)) as [<-|Hne].
      * by rewrite decide_True by apply list_elem_of_here.
      * rewrite decide_False; [done |].
        intros [?|?]%elem_of_cons; congruence.
Qed.

Lemma lookup_foldl_delConnectionField fs : ∀ (h : Header) k,
  foldl delConnectionField h fs !! k =
  if decide (k ∈ connectionKeys fs) then None else h !! k.
Proof.
  unfold connectionKeys.
  induction fs as [|f fs IH]; intros h k; cbn [foldl].
  - case_decide as Hin; [by apply not_elem_of_nil in Hin | done].
  - rewrite IH. unfold delConnectionField.
    rewrite fmap_cons, filter_cons.
    case_bool_decide as Hf;
      (destruct (decide (TrimSpace f ≠ EmptyString)) as [Hf'|Hf']; [| done]);
      [| done].
    rewrite fmap_cons, lookup_Del.
    destruct (decide (k ∈ _ <$> filter _ (TrimSpace <$> fs))) as [Hin|Hnin].
    + by rewrite decide_True by (by apply list_elem_of_further).
    + destruct (decide (CanonicalMIMEHeaderKey (TrimSpace f) = k)) as [<-|Hne].
      * by rewrite decide_True by apply list_elem_of_here.
      * rewrite decide_False; [done |].
        intros [?|?]%elem_of_cons; congruence.
Qed.

(** All the keys [httpRemoveHopByHopHeaders] deletes from [hdr]. *)
Definition removedKeys (hdr : Header) : list string :=
  connectionKeys (Split (Get hdr "Connection") ","%char)
  ++ (CanonicalMIMEHeaderKey <$> hopByHopHeaders).

(** [httpRemoveHopByHopHeaders] deletes the keys of [removedKeys] and
    leaves every other entry as it is. *)
Lemma lookup_httpRemoveHopByHopHeaders (hdr : Header) k :
  httpRemoveHopByHopHeaders hdr !! k =
  if decide (k ∈ removedKeys hdr) then None else hdr !! k.
Proof.
  unfold httpRemoveHopByHopHeaders, removedKeys.
  rewrite lookup_foldl_Del.
  destruct (decide (k ∈ CanonicalMIMEHeaderKey <$> hopByHopHeaders)) as [Hin|Hnin].
  { rewrite decide_True; [done |]. apply elem_of_app. by right. }
  case_bool_decide as Hc.
  - rewrite lookup_foldl_delConnectionField.
    destruct (decide (k ∈ connectionKeys _)) as [Hin|Hnin'].
    + rewrite decide_True; [done |]. apply elem_of_app. by left.
    + rewrite decide_False; [done |]. by intros [?|?]%elem_of_app.
  - rewrite Hc.
    rewrite decide_False; [done |].
    intros [Hin|?]%elem_of_app; [| done]. vm_compute in Hin. by inversion Hin.
Qed.

Lemma hopByHopHeaders_canonical c :
  c ∈ hopByHopHeaders → CanonicalMIMEHeaderKey c = c.
Proof.
  unfold hopByHopHeaders. rewrite !elem_of_cons, elem_of_nil.
  intros H. repeat (destruct H as [->|H]; [reflexivity |]). done.
Qed.

Lemma httpRemoveHopByHopHeaders_fixed (hdr : Header) c :
  c ∈ hopByHopHeaders → httpRemoveHopByHopHeaders hdr !! c = None.
Proof.
  intros Hc. rewrite lookup_httpRemoveHopByHopHeaders, decide_True; [done |].
  apply elem_of_app. right. apply list_elem_of_fmap. exists c.
  by rewrite hopByHopHeaders_canonical.
Qed.

Lemma httpRemoveHopByHopHeaders_named (hdr : Header) f :
  f ∈ Split (Get hdr "Connection") ","%char → TrimSpace f ≠ EmptyString →
  httpRemoveHopByHopHeaders hdr !! CanonicalMIMEHeaderKey (TrimSpace f) = None.
Proof.
  intros Hf Hne. rewrite lookup_httpRemoveHopByHopHeaders, decide_True; [done |].
  apply elem_of_app. left. unfold connectionKeys.
  apply list_elem_of_fmap. exists (TrimSpace f). split; [done |].
  apply list_elem_of_filter. split; [done |].
  apply list_elem_of_fmap. by exists f.
Qed.

Lemma httpRemoveHopByHopHeaders_Get (hdr : Header) key :
  Get hdr key = EmptyString → Get (httpRemoveHopByHopHeaders hdr) key = EmptyString.
Proof.
  unfold Get. rewrite lookup_httpRemoveHopByHopHeaders.
  by case_decide.
Qed.

Lemma lookup_httpCopyHeaders (dst src : Header) k :
  httpCopyHeaders dst src !! k =
  match src !! k with Some v => Some v | None => dst !! k end.
Proof.
  unfold httpCopyHeaders.
  apply (map_fold_weak_ind (λ r m, r !! k =
           match m !! k with Some v => Some v | None => dst !! k end)).
  - by rewrite lookup_empty.
  - intros i x m r Hi IH. rewrite !lookup_insert. case_decide; [done | exact IH].
Qed.

Lemma httpCopyHeaders_empty (src : Header) : httpCopyHeaders ∅ src = src.
Proof.
  apply map_eq. intros k. rewrite lookup_httpCopyHeaders, lookup_empty.
  by destruct (src !! k).
Qed.

(** ** Sample requests and transports *)

Definition sampleURL : URL := mkURL EmptyString EmptyString "/ipp/print".

Definition plainGet : Request :=
  mkRequest "GET" sampleURL ∅ "localhost:60000" EmptyString (Some "127.0.0.1:60000").

(** A device that answers every request with the same response. *)
Definition fixedDevice (resp : Response) (r : Request) : Response + string :=
  inl resp.

Definition okResponse : Response := mkResponse 200 ∅ "ok".

(** ** Sanity checks (C4) *)

Section proxy_facts.

Variable Sprintf : string → string.
Variable RoundTrip : Request → Response + string.

Lemma httpError_status status format :
  WStatus (httpError Sprintf newResponseWriter status format) = Some status.
Proof. reflexivity. Qed.

(** C4 (amended).  A request with method CONNECT is answered 405; a
    request whose Upgrade header has a first value that is not empty (the
    value [Header.Get] returns), and a request with an absolute URI, are
    answered 503 (405 when the method is CONNECT, which is checked first);
    none of them reaches the transport.  Every other request is handed to
    the transport, once. *)
Theorem ServeHTTP_sanity_checks (session : Z) (r : Request) :
  let ex := serve Sprintf RoundTrip session newResponseWriter r in
  (Method r = "CONNECT" →
     WStatus (Written ex) = Some 405%Z ∧ Forwarded ex = [])
  ∧ (Get (ReqHeader r) "Upgrade" ≠ EmptyString →
     Forwarded ex = []
     ∧ (Method r ≠ "CONNECT" → WStatus (Written ex) = Some 503%Z))
  ∧ (IsAbs (ReqURL r) = true →
     Forwarded ex = []
     ∧ (Method r ≠ "CONNECT" → WStatus (Written ex) = Some 503%Z))
  ∧ (Method r ≠ "CONNECT" → Get (ReqHeader r) "Upgrade" = EmptyString →
     IsAbs (ReqURL r) = false →
     Forwarded ex = [adjustRequest r]).
Proof.
  unfold serve. cbv zeta.
  case_bool_decide as Hm; [by repeat split |].
  case_bool_decide as Hu; [by repeat split |].
  destruct (IsAbs (ReqURL r)) eqn:Ha; [by repeat split |].
  destruct (RoundTrip (adjustRequest r)); by repeat split.
Qed.

End proxy_facts.

Definition connectRequest : Request :=
  mkRequest "CONNECT" sampleURL ∅ "localhost:60000" EmptyString None.
Definition upgradeRequest : Request :=
  mkRequest "GET" sampleURL {["Upgrade" := ["websocket"]]} "localhost:60000"
            EmptyString None.
Definition absoluteRequest : Request :=
  mkRequest "GET" (mkURL "http" "example.com" "/") ∅ "example.com" EmptyString None.

(** The four cases of [ServeHTTP_sanity_checks] on concrete requests. *)
Lemma ServeHTTP_sanity_checks_witness :
  let serve' := serve id (fixedDevice okResponse) 0 newResponseWriter in
  (WStatus (Written (serve' connectRequest)) = Some 405%Z
   ∧ Forwarded (serve' connectRequest) = [])
  ∧ (Forwarded (serve' upgradeRequest) = []
     ∧ WStatus (Written (serve' upgradeRequest)) = Some 503%Z)
  ∧ (Forwarded (serve' absoluteRequest) = []
     ∧ WStatus (Written (serve' absoluteRequest)) = Some 503%Z)
  ∧ Forwarded (serve' plainGet) = [adjustRequest plainGet].
Proof.
  intros serve'.
  pose proof (ServeHTTP_sanity_checks id (fixedDevice okResponse) 0) as H.
  split; [| split; [| split]].
  - apply (H connectRequest). reflexivity.
  - destruct (H upgradeRequest) as (_ & Hu & _).
    destruct Hu as [Hf Hs]; [by vm_compute |].
    split; [exact Hf | apply Hs; by vm_compute].
  - destruct (H absoluteRequest) as (_ & _ & Ha & _).
    destruct Ha as [Hf Hs]; [reflexivity |].
    split; [exact Hf | apply Hs; by vm_compute].
  - apply (H plainGet); [by vm_compute | reflexivity | reflexivity].
Defined.

(** A request with two Upgrade field lines, the first of them empty:
<<
  GET /ipp/print HTTP/1.1
  Host: localhost:60000
  Upgrade:
  Upgrade: websocket
>> *)
Definition secondUpgradeRequest : Request :=
  mkRequest "GET" sampleURL {["Upgrade" := [EmptyString; "websocket"]]}
            "localhost:60000" EmptyString (Some "127.0.0.1:60000").

(** C4 (as stated, refuted).  The check reads the Upgrade header with
    [Header.Get], which returns the first value only.  A request whose
    second Upgrade field line asks for websocket after an empty first one
    carries a non-empty Upgrade header, is neither CONNECT nor absolute,
    and is not rejected: it is handed to the transport, and the status of
    the device's answer is written back. *)
Lemma later_Upgrade_value_is_forwarded :
  let ex := serve id (fixedDevice okResponse) 0 newResponseWriter secondUpgradeRequest in
  ReqHeader secondUpgradeRequest !! "Upgrade" = Some [EmptyString; "websocket"]
  ∧ Method secondUpgradeRequest ≠ "CONNECT"
  ∧ IsAbs (ReqURL secondUpgradeRequest) = false
  ∧ Forwarded ex = [adjustRequest secondUpgradeRequest]
  ∧ WStatus (Written ex) = Some 200%Z.
Proof.
  split; [reflexivity |]. split; [discriminate |]. split; [reflexivity |].
  split; vm_compute; reflexivity.
Qed.

(** ** Hop-by-hop headers (C1) *)

(** A device whose response carries an Upgrade header. *)
Definition upgradeResponse : Response :=
  mkResponse 200 {["Upgrade" := ["h2c"]; "Content-Type" := ["text/html"]]} "ok".

(** A request that names X-Token in its Connection header, and a device
    whose response carries a header of that name. *)
Definition tokenRequest : Request :=
  mkRequest "GET" sampleURL
    {["Connection" := ["X-Token"]; "X-Token" := ["from-client"]]}
    "localhost:60000" EmptyString (Some "127.0.0.1:60000").

Definition tokenResponse : Response :=
  mkResponse 200 {["X-Token" := ["from-device"]]} "ok".

(** A request with two Connection field lines, the second of which names
    X-Token:
<<
  GET /ipp/print HTTP/1.1
  Host: localhost:60000
  Connection: close
  Connection: X-Token
  X-Token: from-client
>> *)
Definition twoConnectionsRequest : Request :=
  mkRequest "GET" sampleURL
    {["Connection" := ["close"; "X-Token"]; "X-Token" := ["from-client"]]}
    "localhost:60000" EmptyString (Some "127.0.0.1:60000").

(** C1 (as stated, refuted).  Upgrade is not in the list of
    [httpRemoveHopByHopHeaders]: an Upgrade header of the device's response
    is copied to the client.  What is removed from a response is what the
    Connection header of the response names, not what the Connection
    header of the request named.  The Connection header is read with
    [Header.Get], which returns its first field line: a header named in a
    second Connection line stays in the forwarded request.  And a request
    with a later Upgrade value passes the check and is forwarded with its
    Upgrade header. *)
Lemma hop_by_hop_headers_that_pass :
  let ex := serve id (fixedDevice upgradeResponse) 0 newResponseWriter plainGet in
  let ex' := serve id (fixedDevice tokenResponse) 0 newResponseWriter tokenRequest in
  let ex2 := serve id (fixedDevice okResponse) 0 newResponseWriter twoConnectionsRequest in
  let ex3 := serve id (fixedDevice okResponse) 0 newResponseWriter secondUpgradeRequest in
  (Forwarded ex = [adjustRequest plainGet]
   ∧ WStatus (Written ex) = Some 200%Z
   ∧ WHeader (Written ex) !! "Upgrade" = Some ["h2c"])
  ∧ (Get (ReqHeader tokenRequest) "Connection" = "X-Token"
     ∧ Forwarded ex' = [adjustRequest tokenRequest]
     ∧ ReqHeader (adjustRequest tokenRequest) !! "X-Token" = None
     ∧ WHeader (Written ex') !! "X-Token" = Some ["from-device"])
  ∧ (ReqHeader twoConnectionsRequest !! "Connection" = Some ["close"; "X-Token"]
     ∧ Forwarded ex2 = [adjustRequest twoConnectionsRequest]
     ∧ ReqHeader (adjustRequest twoConnectionsRequest) !! "X-Token"
       = Some ["from-client"])
  ∧ (Forwarded ex3 = [adjustRequest secondUpgradeRequest]
     ∧ ReqHeader (adjustRequest secondUpgradeRequest) !! "Upgrade"
       = Some [EmptyString; "websocket"]).
Proof. vm_compute. repeat split. Qed.

Section hop_by_hop.

Variable Sprintf : string → string.
Variable RoundTrip : Request → Response + string.

(** C1 (amended).  In every request handed to the transport, and in the
    headers copied to the client from every response, none of Connection,
    Keep-Alive, Proxy-Authenticate, Proxy-Connection, Proxy-Authorization,
    Te, Trailer and Transfer-Encoding is present, and neither is any header
    named in the first field line of the Connection header of that same
    message.  The first value of the Upgrade header of a forwarded request,
    if it has one, is empty.  Headers named in further Connection lines
    and further values of Upgrade are left out of the statement. *)
Theorem proxy_removes_hop_by_hop (session : Z) (r r' : Request) :
  Forwarded (serve Sprintf RoundTrip session newResponseWriter r) = [r'] →
  ((∀ c, c ∈ hopByHopHeaders → ReqHeader r' !! c = None)
   ∧ (∀ f, f ∈ Split (Get (ReqHeader r) "Connection") ","%char →
           TrimSpace f ≠ EmptyString →
           ReqHeader r' !! CanonicalMIMEHeaderKey (TrimSpace f) = None)
   ∧ Get (ReqHeader r') "Upgrade" = EmptyString)
  ∧ (∀ resp, RoundTrip r' = inl resp →
       let h := WHeader (Written (serve Sprintf RoundTrip session newResponseWriter r)) in
       (∀ c, c ∈ hopByHopHeaders → h !! c = None)
       ∧ (∀ f, f ∈ Split (Get (RespHeader resp) "Connection") ","%char →
               TrimSpace f ≠ EmptyString →
               h !! CanonicalMIMEHeaderKey (TrimSpace f) = None)).
Proof.
  unfold serve.
  case_bool_decide as Hm; [done |].
  case_bool_decide as Hu; [done |].
  destruct (IsAbs (ReqURL r)) eqn:Ha; [done |].
  intros Hfw.
  assert (r' = adjustRequest r) as ->.
  { destruct (RoundTrip (adjustRequest r)); by inversion Hfw. }
  clear Hfw. split.
  - cbn [adjustRequest ReqHeader]. split; [| split].
    + intros c Hc. by apply httpRemoveHopByHopHeaders_fixed.
    + intros f Hf Hne. by apply httpRemoveHopByHopHeaders_named.
    + by apply httpRemoveHopByHopHeaders_Get.
  - intros resp ->. cbn [Written WHeader Write WriteHeader withHeader
                         newResponseWriter WStatus].
    rewrite httpCopyHeaders_empty. split.
    + intros c Hc. by apply httpRemoveHopByHopHeaders_fixed.
    + intros f Hf Hne. by apply httpRemoveHopByHopHeaders_named.
Qed.

End hop_by_hop.

Definition keepAliveRequest : Request :=
  mkRequest "POST" sampleURL
    {["Connection" := ["close, X-Token"]; "X-Token" := ["s3cr3t"];
      "Keep-Alive" := ["timeout=5"]; "Content-Type" := ["application/ipp"]]}
    "localhost:60000" "job" (Some "127.0.0.1:60000").

Definition chunkedResponse : Response :=
  mkResponse 200
    {["Connection" := ["x-trace"]; "X-Trace" := ["42"];
      "Transfer-Encoding" := ["chunked"]; "Content-Type" := ["application/ipp"]]}
    "done".

(** [proxy_removes_hop_by_hop] on a request and a response that both carry
    hop-by-hop headers. *)
Lemma proxy_removes_hop_by_hop_witness :
  let ex := serve id (fixedDevice chunkedResponse) 0 newResponseWriter keepAliveRequest in
  Forwarded ex = [adjustRequest keepAliveRequest]
  ∧ ((∀ c, c ∈ hopByHopHeaders → ReqHeader (adjustRequest keepAliveRequest) !! c = None)
     ∧ (∀ f, f ∈ Split (Get (ReqHeader keepAliveRequest) "Connection") ","%char →
             TrimSpace f ≠ EmptyString →
             ReqHeader (adjustRequest keepAliveRequest)
               !! CanonicalMIMEHeaderKey (TrimSpace f) = None)
     ∧ Get (ReqHeader (adjustRequest keepAliveRequest)) "Upgrade" = EmptyString)
  ∧ ((∀ c, c ∈ hopByHopHeaders → WHeader (Written ex) !! c = None)
     ∧ (∀ f, f ∈ Split (Get (RespHeader chunkedResponse) "Connection") ","%char →
             TrimSpace f ≠ EmptyString →
             WHeader (Written ex) !! CanonicalMIMEHeaderKey (TrimSpace f) = None))
  ∧ WHeader (Written ex) !! "X-Trace" = None
  ∧ WHeader (Written ex) !! "Content-Type" = Some ["application/ipp"].
Proof.
  intros ex.
  assert (Forwarded ex = [adjustRequest keepAliveRequest]) as Hfw
    by (vm_compute; reflexivity).
  destruct (proxy_removes_hop_by_hop id (fixedDevice chunkedResponse) 0
              keepAliveRequest (adjustRequest keepAliveRequest) Hfw)
    as [Hreq Hresp].
  split; [exact Hfw |]. split; [exact Hreq |].
  split; [exact (Hresp chunkedResponse eq_refl) |].
  split; vm_compute; reflexivity.
Defined.

(** ** Host and scheme of the forwarded request (C5) *)

Definition foreignHostRequest : Request :=
  mkRequest "GET" sampleURL ∅ "printer.example:631" EmptyString
            (Some "127.0.0.1:60000").

(** C5 (as stated, refuted).  A Host sent by the client is forwarded as it
    is; the listener's address is not substituted for it. *)
Lemma client_Host_is_kept :
  let ex := serve id (fixedDevice okResponse) 0 newResponseWriter foreignHostRequest in
  LocalAddr foreignHostRequest = Some "127.0.0.1:60000"
  ∧ ∃ r', Forwarded ex = [r']
          ∧ Host r' = "printer.example:631"
          ∧ Host r' ≠ "127.0.0.1:60000".
Proof.
  split; [reflexivity |]. eexists. split; [vm_compute; reflexivity |].
  split; [reflexivity | by vm_compute].
Qed.

Section host_rewriting.

Variable Sprintf : string → string.
Variable RoundTrip : Request → Response + string.

(** C5 (amended).  In every request handed to the transport the URL scheme
    is "http" and the URL host equals the Host of the request; the Host is
    the one the client sent when it sent one, and the listener's local
    address when the client sent none. *)
Theorem forwarded_host_and_scheme (session : Z) (r r' : Request) :
  Forwarded (serve Sprintf RoundTrip session newResponseWriter r) = [r'] →
  Scheme (ReqURL r') = "http"
  ∧ URLHost (ReqURL r') = Host r'
  ∧ (Host r ≠ EmptyString → Host r' = Host r)
  ∧ (Host r = EmptyString → ∀ addr, LocalAddr r = Some addr → Host r' = addr).
Proof.
  unfold serve.
  case_bool_decide as Hm; [done |].
  case_bool_decide as Hu; [done |].
  destruct (IsAbs (ReqURL r)) eqn:Ha; [done |].
  intros Hfw.
  assert (r' = adjustRequest r) as ->.
  { destruct (RoundTrip (adjustRequest r)); by inversion Hfw. }
  unfold adjustRequest. cbn [ReqURL Scheme URLHost Host].
  split; [done |]. split; [done |].
  case_bool_decide as Hh; split; try done.
  intros _ addr ->. done.
Qed.

End host_rewriting.

Definition noHostRequest : Request :=
  mkRequest "GET" sampleURL ∅ EmptyString EmptyString (Some "127.0.0.1:60000").

(** [forwarded_host_and_scheme] on an HTTP/1.0 request without Host. *)
Lemma forwarded_host_and_scheme_witness :
  Forwarded (serve id (fixedDevice okResponse) 0 newResponseWriter noHostRequest)
    = [adjustRequest noHostRequest]
  ∧ Scheme (ReqURL (adjustRequest noHostRequest)) = "http"
  ∧ URLHost (ReqURL (adjustRequest noHostRequest)) = "127.0.0.1:60000"
  ∧ Host (adjustRequest noHostRequest) = "127.0.0.1:60000".
Proof.
  assert (Forwarded (serve id (fixedDevice okResponse) 0 newResponseWriter
                       noHostRequest) = [adjustRequest noHostRequest]) as Hfw
    by (vm_compute; reflexivity).
  destruct (forwarded_host_and_scheme id (fixedDevice okResponse) 0
              noHostRequest (adjustRequest noHostRequest) Hfw)
    as (Hs & Hu & _ & Hh).
  specialize (Hh eq_refl "127.0.0.1:60000" eq_refl).
  split; [exact Hfw |]. split; [exact Hs |].
  split; [by rewrite Hu, Hh | exact Hh].
Defined.

(** ** Session ids (C8) *)

(** C8 (as stated, refuted).  The handler gives the counter back when it
    returns: two requests served one after the other log under the same
    session id. *)
Lemma session_id_is_reused :
  let '(ex1, counter1) := ServeHTTP id (fixedDevice okResponse) 0 plainGet in
  let '(ex2, counter2) := ServeHTTP id (fixedDevice okResponse) counter1 plainGet in
  Session ex1 = 0%Z ∧ Session ex2 = 0%Z ∧ ¬ (Session ex1 < Session ex2)%Z.
Proof. vm_compute. repeat split; discriminate. Qed.

(** The handlers of concurrent requests interleave; each of the two
    updates of [httpSessionId] is atomic.  A schedule is the sequence of
    these updates: [Enter] when a handler starts, [Leave] when one
    returns. *)
Inductive event : Type := Enter | Leave.

(** The session ids given out along a schedule, in order of acceptance. *)
Fixpoint sessions (httpSessionId : Z) (schedule : list event) : list Z :=
  match schedule with
  | [] => []
  | Enter :: rest =>
      let '(counter, session) := session_enter httpSessionId in
      session :: sessions counter rest
  | Leave :: rest => sessions (session_leave httpSessionId) rest
  end.

Fixpoint counter_after (httpSessionId : Z) (schedule : list event) : Z :=
  match schedule with
  | [] => httpSessionId
  | Enter :: rest => counter_after (fst (session_enter httpSessionId)) rest
  | Leave :: rest => counter_after (session_leave httpSessionId) rest
  end.

(** Handlers that have started and not returned yet. *)
Fixpoint in_flight (schedule : list event) : Z :=
  match schedule with
  | [] => 0
  | Enter :: rest => in_flight rest + 1
  | Leave :: rest => in_flight rest - 1
  end.

Lemma wrap32_range x : (- 2 ^ 31 ≤ wrap32 x < 2 ^ 31)%Z.
Proof. unfold wrap32. pose proof (Z.mod_pos_bound (x + 2 ^ 31) (2 ^ 32)). lia. Qed.

Lemma wrap32_small x : (- 2 ^ 31 ≤ x < 2 ^ 31)%Z → wrap32 x = x.
Proof. intros H. unfold wrap32. rewrite Z.mod_small; lia. Qed.

Lemma wrap32_add x d : wrap32 (wrap32 x + d) = wrap32 (x + d).
Proof.
  unfold wrap32. f_equal.
  replace ((x + 2 ^ 31) mod 2 ^ 32 - 2 ^ 31 + d + 2 ^ 31)%Z
    with ((x + 2 ^ 31) mod 2 ^ 32 + d)%Z by lia.
  rewrite Zplus_mod_idemp_l. f_equal. lia.
Qed.

Lemma wrap32_idem x : wrap32 (wrap32 x) = wrap32 x.
Proof. apply wrap32_small, wrap32_range. Qed.

Lemma session_enter_wrap32 c :
  session_enter (wrap32 c) = (wrap32 (c + 1), wrap32 c).
Proof.
  unfold session_enter, AddInt32. rewrite wrap32_add. f_equal.
  replace (wrap32 (c + 1) - 1)%Z with (wrap32 (c + 1) + -1)%Z by lia.
  rewrite wrap32_add. f_equal. lia.
Qed.

Lemma session_leave_wrap32 c : session_leave (wrap32 c) = wrap32 (c - 1).
Proof. unfold session_leave, AddInt32. by rewrite wrap32_add. Qed.

Lemma sessions_app c pre post :
  sessions c (pre ++ post) = sessions c pre ++ sessions (counter_after c pre) post.
Proof.
  revert c. induction pre as [|[|] pre IH]; intros c; simpl; [done | |].
  - by rewrite IH.
  - by rewrite IH.
Qed.

Lemma counter_after_in_flight c schedule :
  counter_after (wrap32 c) schedule = wrap32 (c + in_flight schedule).
Proof.
  revert c. induction schedule as [|[|] rest IH]; intros c;
    cbn [counter_after in_flight].
  - by rewrite Z.add_0_r.
  - rewrite session_enter_wrap32. cbn [fst]. rewrite IH. f_equal. lia.
  - rewrite session_leave_wrap32, IH. f_equal. lia.
Qed.

Section session_ids.

Variable Sprintf : string → string.
Variable RoundTrip : Request → Response + string.

Lemma Session_serve session w r : Session (serve Sprintf RoundTrip session w r) = session.
Proof. unfold serve. by repeat case_match. Qed.

(** C8 (amended).  The session id of a request is the number of handlers
    in flight when it is accepted, in [int32] arithmetic: the counter goes
    up when a handler starts and down again when it returns.  A handler
    that runs alone logs under the value of the counter it found and
    leaves the counter as it found it. *)
Theorem session_id_counts_in_flight :
  (∀ pre post,
     sessions 0 (pre ++ Enter :: post) !! length (sessions 0 pre)
     = Some (wrap32 (in_flight pre)))
  ∧ (∀ counter r,
       Session (ServeHTTP Sprintf RoundTrip (wrap32 counter) r).1 = wrap32 counter
       ∧ (ServeHTTP Sprintf RoundTrip (wrap32 counter) r).2 = wrap32 counter).
Proof.
  split.
  - intros pre post. rewrite sessions_app.
    rewrite lookup_app_r by lia. rewrite Nat.sub_diag.
    change 0%Z with (wrap32 0) at 1.
    rewrite counter_after_in_flight. cbn [sessions].
    rewrite session_enter_wrap32. cbn [lookup list_lookup]. by rewrite Z.add_0_l.
  - intros counter r. unfold ServeHTTP. rewrite session_enter_wrap32.
    cbn [fst snd]. rewrite Session_serve, session_leave_wrap32.
    split; [done |]. f_equal. lia.
Qed.

End session_ids.

Example sessions_example :
  sessions 0 [Enter; Enter; Leave; Enter; Leave; Leave; Enter] = [0; 1; 1; 0]%Z.
Proof. reflexivity. Qed.

(** ** Further properties of the proxy *)

(** X6.  [httpRemoveHopByHopHeaders] removes the keys of [removedKeys]
    and nothing else: every other header is kept with its values, and no
    header is added or changed. *)
Theorem httpRemoveHopByHopHeaders_keeps (hdr : Header) (k : string)
    (v : list string) :
  httpRemoveHopByHopHeaders hdr !! k = Some v
  ↔ hdr !! k = Some v ∧ k ∉ removedKeys hdr.
Proof.
  rewrite lookup_httpRemoveHopByHopHeaders. case_decide as Hk.
  - split; [done | by intros [_ ?]].
  - split; [done | by intros [? _]].
Qed.

(** The names of the Connection header are trimmed of white space as
    [unicode.IsSpace] defines it: a no-break space around a name does not
    protect the header of that name. *)
Example httpRemoveHopByHopHeaders_nbsp :
  httpRemoveHopByHopHeaders
    {["Connection" := [nbsp +:+ "x-token" +:+ nbsp +:+ ", close"];
      "X-Token" := ["s3cr3t"]; "Accept" := ["*/*"]]}
  = {["Accept" := ["*/*"]]}.
Proof. by vm_compute. Qed.

Lemma removedKeys_after (hdr : Header) :
  removedKeys (httpRemoveHopByHopHeaders hdr)
  = CanonicalMIMEHeaderKey <$> hopByHopHeaders.
Proof.
  unfold removedKeys.
  assert (Get (httpRemoveHopByHopHeaders hdr) "Connection" = EmptyString) as ->.
  { unfold Get.
    change (CanonicalMIMEHeaderKey "Connection") with "Connection".
    rewrite httpRemoveHopByHopHeaders_fixed; [done |]. by left. }
  reflexivity.
Qed.

(** X7.  [httpRemoveHopByHopHeaders] is idempotent: a second pass over
    the same headers changes nothing. *)
Theorem httpRemoveHopByHopHeaders_idempotent (hdr : Header) :
  httpRemoveHopByHopHeaders (httpRemoveHopByHopHeaders hdr)
  = httpRemoveHopByHopHeaders hdr.
Proof.
  apply map_eq. intros k.
  rewrite (lookup_httpRemoveHopByHopHeaders (httpRemoveHopByHopHeaders hdr)).
  rewrite removedKeys_after. case_decide as Hk; [| done].
  apply list_elem_of_fmap in Hk as (c & -> & Hc).
  rewrite hopByHopHeaders_canonical by done.
  symmetry. by apply httpRemoveHopByHopHeaders_fixed.
Qed.

(** X8.  [httpCopyHeaders] is a union in which the source wins: every
    key of [src] is set to the values of [src], the other keys of [dst]
    stay. *)
Theorem httpCopyHeaders_union (dst src : Header) :
  httpCopyHeaders dst src = src ∪ dst.
Proof.
  apply map_eq. intros k. rewrite lookup_httpCopyHeaders, lookup_union.
  destruct (src !! k), (dst !! k); done.
Qed.

(** The headers of a response the proxy makes up itself. *)
Definition errorHeaders : Header :=
  {["Content-Type" := ["text/plain; charset=utf-8"];
    "Cache-Control" := ["no-cache, no-store, must-revalidate"];
    "Pragma" := ["no-cache"];
    "Expires" := ["0"]]}.

(** A text without percent sign, which [fmt.Sprintf] copies as it is. *)
Definition plain (text : string) : bool :=
  string_forallb (λ c, negb (Ascii.eqb c "%"%char)) text.

(** The texts of the three sanity checks of [ServeHTTP]. *)
Definition rejections : list string :=
  ["CONNECT not allowed"; "Protocol upgrade is not implemented";
   "Absolute URL not allowed"].

Lemma rejections_plain text : text ∈ rejections → plain text = true.
Proof.
  unfold rejections. rewrite !elem_of_cons, elem_of_nil.
  intros H. repeat (destruct H as [->|H]; [reflexivity |]). done.
Qed.

Section proxy_responses.

Variable Sprintf : string → string.
Variable RoundTrip : Request → Response + string.

Lemma httpError_fresh status format :
  httpError Sprintf newResponseWriter status format
  = mkResponseWriter errorHeaders (Some status)
      (Sprintf format +:+ newline +:+ newline).
Proof.
  unfold httpError, httpNoCache, Write, WriteHeader, withHeader, newResponseWriter.
  cbn [WHeader WStatus WBody]. f_equal.
  change (EmptyString +:+ (Sprintf format +:+ newline))
    with (Sprintf format +:+ newline).
  generalize (Sprintf format). intros s.
  induction s as [|c s IH]; [done |].
  change ((String c s +:+ newline) +:+ newline)
    with (String c ((s +:+ newline) +:+ newline)).
  by rewrite IH.
Qed.

(** X9.  Whenever the proxy answers by itself, because it rejects the
    request or because the transport fails, the handler writes status 405
    or 503, exactly the headers Content-Type, Cache-Control, Pragma and
    Expires that forbid caching, and a plain-text body that ends with two
    newlines.  The body of a rejection is one of three fixed texts.  A
    transport failure gives 503; its error text is handed to [Sprintf] as
    the format, so the body is the error text itself when that holds no
    percent sign. *)
Theorem own_response (session : Z) (r : Request) :
  (∀ text, plain text = true → Sprintf text = text) →
  let ex := serve Sprintf RoundTrip session newResponseWriter r in
  (Forwarded ex = [] ∨ ∃ err, RoundTrip (adjustRequest r) = inr err) →
  WHeader (Written ex) = errorHeaders
  ∧ (WStatus (Written ex) = Some 405%Z ∨ WStatus (Written ex) = Some 503%Z)
  ∧ (Forwarded ex = [] →
     WBody (Written ex) ∈ (λ text, text +:+ newline +:+ newline) <$> rejections)
  ∧ (∀ err, Forwarded ex = [adjustRequest r] →
            RoundTrip (adjustRequest r) = inr err →
            WStatus (Written ex) = Some 503%Z
            ∧ WBody (Written ex) = Sprintf err +:+ newline +:+ newline
            ∧ (plain err = true →
               WBody (Written ex) = err +:+ newline +:+ newline)).
Proof.
  intros Hplain.
  assert (∀ status text,
            (status = 405%Z ∨ status = 503%Z) → text ∈ rejections →
            let ex := mkExchange session
                        (httpError Sprintf newResponseWriter status text) [] in
            WHeader (Written ex) = errorHeaders
            ∧ (WStatus (Written ex) = Some 405%Z ∨ WStatus (Written ex) = Some 503%Z)
            ∧ (Forwarded ex = [] →
               WBody (Written ex)
               ∈ (λ text, text +:+ newline +:+ newline) <$> rejections)
            ∧ (∀ err, Forwarded ex = [adjustRequest r] →
                      RoundTrip (adjustRequest r) = inr err →
                      WStatus (Written ex) = Some 503%Z
                      ∧ WBody (Written ex) = Sprintf err +:+ newline +:+ newline
                      ∧ (plain err = true →
                         WBody (Written ex) = err +:+ newline +:+ newline)))
    as Hreject.
  { intros status text Hst Htext. cbv zeta. rewrite httpError_fresh.
    cbn [Written WHeader WStatus WBody Forwarded].
    split; [done |]. split; [destruct Hst as [-> | ->]; [by left | by right] |].
    split; [| by intros err [=]]. intros _.
    rewrite Hplain by (by apply rejections_plain).
    apply list_elem_of_fmap. by exists text. }
  unfold serve. cbv zeta.
  case_bool_decide as Hm;
    [intros _; apply Hreject; [by left | apply list_elem_of_here] |].
  case_bool_decide as Hu;
    [intros _; apply Hreject;
       [by right | apply list_elem_of_further, list_elem_of_here] |].
  destruct (IsAbs (ReqURL r)) eqn:Ha;
    [intros _; apply Hreject;
       [by right | do 2 apply list_elem_of_further; apply list_elem_of_here] |].
  destruct (RoundTrip (adjustRequest r)) as [resp|err] eqn:Hrt.
  - intros [Hf|[err Herr]]; [discriminate Hf | discriminate Herr].
  - intros _. rewrite httpError_fresh. cbn [Written WHeader WStatus WBody Forwarded].
    split; [done |]. split; [by right |]. split; [by intros [=] |].
    intros err' _ [= <-]. split; [done |]. split; [done |].
    intros Hp. by rewrite Hplain.
Qed.

(** X10.  When the transport answers, the handler leaves in the header
    map of the writer the headers of the response without those of
    [removedKeys], so that every end-to-end header is there with its
    values; it hands the status code of the device to [WriteHeader] (which
    takes the codes from 100 to 999) and then the bytes copied from the
    body of the response to [Write], unchanged. *)
Theorem response_passed_through (session : Z) (r : Request) (resp : Response) :
  Method r ≠ "CONNECT" → Get (ReqHeader r) "Upgrade" = EmptyString →
  IsAbs (ReqURL r) = false →
  RoundTrip (adjustRequest r) = inl resp →
  (100 ≤ StatusCode resp ≤ 999)%Z →
  let ex := serve Sprintf RoundTrip session newResponseWriter r in
  WStatus (Written ex) = Some (StatusCode resp)
  ∧ WBody (Written ex) = RespBody resp
  ∧ (∀ k v, WHeader (Written ex) !! k = Some v
            ↔ RespHeader resp !! k = Some v ∧ k ∉ removedKeys (RespHeader resp)).
Proof.
  intros Hm Hu Ha Hrt _. unfold serve. cbv zeta.
  rewrite bool_decide_eq_false_2 by done.
  rewrite bool_decide_eq_false_2 by (intros ?; done).
  rewrite Ha, Hrt.
  cbn [Written WHeader WStatus WBody Write WriteHeader withHeader
       newResponseWriter String.append].
  split; [done |]. split; [done |].
  intros k v. rewrite httpCopyHeaders_empty.
  apply httpRemoveHopByHopHeaders_keeps.
Qed.

(** X11.  The request handed to the transport has the method, the body
    and the path of the client's request, and every header of it that is
    not in [removedKeys], with its values. *)
Theorem request_passed_through (session : Z) (r r' : Request) :
  Forwarded (serve Sprintf RoundTrip session newResponseWriter r) = [r'] →
  Method r' = Method r ∧ ReqBody r' = ReqBody r
  ∧ Rest (ReqURL r') = Rest (ReqURL r)
  ∧ (∀ k v, ReqHeader r' !! k = Some v
            ↔ ReqHeader r !! k = Some v ∧ k ∉ removedKeys (ReqHeader r)).
Proof.
  unfold serve.
  case_bool_decide as Hm; [done |].
  case_bool_decide as Hu; [done |].
  destruct (IsAbs (ReqURL r)) eqn:Ha; [done |].
  intros Hfw.
  assert (r' = adjustRequest r) as ->.
  { destruct (RoundTrip (adjustRequest r)); by inversion Hfw. }
  cbn [adjustRequest Method ReqBody ReqURL Rest ReqHeader].
  split; [done |]. split; [done |]. split; [done |].
  intros k v. apply httpRemoveHopByHopHeaders_keeps.
Qed.

End proxy_responses.

(** A transport that always fails. *)
Definition brokenDevice (r : Request) : Response + string :=
  inr "usb: device stalled".

Lemma own_response_witness :
  let ex := serve id brokenDevice 0 newResponseWriter keepAliveRequest in
  (∀ text, plain text = true → id text = text)
  ∧ (Forwarded ex = [] ∨ ∃ err, brokenDevice (adjustRequest keepAliveRequest) = inr err)
  ∧ WHeader (Written ex) = errorHeaders
  ∧ WStatus (Written ex) = Some 503%Z
  ∧ WBody (Written ex) = "usb: device stalled" +:+ newline +:+ newline.
Proof.
  intros ex.
  assert (∀ text, plain text = true → id text = text) as Hplain by done.
  assert (Forwarded ex = [] ∨ ∃ err, brokenDevice (adjustRequest keepAliveRequest) = inr err)
    as H by (right; by eexists).
  destruct (own_response id brokenDevice 0 keepAliveRequest Hplain H)
    as (Hh & _ & _ & Hb).
  destruct (Hb "usb: device stalled" eq_refl eq_refl) as (Hs & _ & Hbody).
  split; [exact Hplain |]. split; [exact H |]. split; [exact Hh |].
  split; [exact Hs | exact (Hbody eq_refl)].
Defined.

Lemma response_passed_through_witness :
  let ex := serve id (fixedDevice chunkedResponse) 0 newResponseWriter keepAliveRequest in
  WStatus (Written ex) = Some 200%Z
  ∧ WBody (Written ex) = "done"
  ∧ (∀ k v, WHeader (Written ex) !! k = Some v
            ↔ RespHeader chunkedResponse !! k = Some v
              ∧ k ∉ removedKeys (RespHeader chunkedResponse)).
Proof.
  apply (response_passed_through id (fixedDevice chunkedResponse) 0
           keepAliveRequest chunkedResponse).
  - by vm_compute.
  - reflexivity.
  - reflexivity.
  - reflexivity.
  - cbn. lia.
Defined.

Lemma request_passed_through_witness :
  Forwarded (serve id (fixedDevice okResponse) 0 newResponseWriter keepAliveRequest)
    = [adjustRequest keepAliveRequest]
  ∧ Method (adjustRequest keepAliveRequest) = "POST"
  ∧ ReqBody (adjustRequest keepAliveRequest) = "job"
  ∧ ReqHeader (adjustRequest keepAliveRequest) !! "Content-Type"
    = Some ["application/ipp"].
Proof.
  assert (Forwarded (serve id (fixedDevice okResponse) 0 newResponseWriter
                       keepAliveRequest) = [adjustRequest keepAliveRequest]) as Hfw
    by (vm_compute; reflexivity).
  destruct (request_passed_through id (fixedDevice okResponse) 0
              keepAliveRequest (adjustRequest keepAliveRequest) Hfw)
    as (Hm & Hb & _ & Hh).
  split; [exact Hfw |]. split; [exact Hm |]. split; [exact Hb |].
  apply Hh. split; [reflexivity |].
  intros Hin. vm_compute in Hin.
  repeat (apply elem_of_cons in Hin as [?|Hin]; [discriminate |]).
  by apply elem_of_nil in Hin.
Defined.

(** X12.  The session counter does not drift: once every handler that
    started has returned, [httpSessionId] is back at the value it had. *)
Theorem session_counter_restored (httpSessionId : Z) (schedule : list event) :
  (- 2 ^ 31 ≤ httpSessionId < 2 ^ 31)%Z → in_flight schedule = 0%Z →
  counter_after httpSessionId schedule = httpSessionId.
Proof.
  intros Hrange Hzero.
  rewrite <- (wrap32_small httpSessionId Hrange) at 1.
  rewrite counter_after_in_flight, Hzero, Z.add_0_r.
  by apply wrap32_small.
Qed.

Lemma session_counter_restored_witness :
  counter_after 5 [Enter; Enter; Leave; Enter; Leave; Leave] = 5%Z.
Proof.
  apply session_counter_restored; [lia | reflexivity].
Defined.

End Http.

(** * Module [Ipp]: the decoder of IPP printer attributes *)

Module Ipp.

(** ** The parts of the [goipp] library the decoder relies on *)

(** [goipp.Type]: the Go type a value is represented with. *)
Inductive Type_ : Type :=
| TypeInvalid | TypeVoid | TypeInteger | TypeBoolean | TypeString
| TypeDateTime | TypeResolution | TypeRange | TypeTextWithLang
| TypeBinary | TypeCollection.

#[global] Instance Type_eq_dec : EqDecision Type_.
Proof. solve_decision. Defined.

(** [goipp.Value] and [goipp.Attribute].  [goipp.Values] is a slice of
    (tag, value) pairs; the tag is the IPP syntax tag read from the wire. *)
Inductive Value : Type :=
| Void
| Integer (n : Z)
| Boolean (b : bool)
| String_ (s : string)
| Time (t : Z)
| Resolution (xres yres units : Z)
| Range (lower upper : Z)
| TextWithLang (lang text : string)
| Binary (data : string)
| Collection (attrs : list Attribute)
with Attribute : Type :=
| MakeAttr (name : string) (values : list (Z * Value)).

Definition Name (a : Attribute) : string :=
  match a with MakeAttr name _ => name end.
Definition Values (a : Attribute) : list (Z * Value) :=
  match a with MakeAttr _ values => values end.

(** [func (v Value) Type() Type] *)
Definition TypeOf (v : Value) : Type_ :=
  match v with
  | Void => TypeVoid
  | Integer _ => TypeInteger
  | Boolean _ => TypeBoolean
  | String_ _ => TypeString
  | Time _ => TypeDateTime
  | Resolution _ _ _ => TypeResolution
  | Range _ _ => TypeRange
  | TextWithLang _ _ => TypeTextWithLang
  | Binary _ => TypeBinary
  | Collection _ => TypeCollection
  end.

(** ** [ippAttrs] *)

(** [type ippAttrs map[string]goipp.Values] *)
Abbreviation ippAttrs := (gmap string (list (Z * Value))).

(** [func newIppDecoder(msg *goipp.Message) ippAttrs], on [msg.Printer].
    The loop runs from the last attribute to the first and stores each one
    under its name. *)
Definition newIppDecoder (printer : list Attribute) : ippAttrs :=
  foldr (λ attr attrs, <[Name attr := Values attr]> attrs) ∅ printer.

(** [func (attrs ippAttrs) getAttr(t goipp.Type, name string) []goipp.Value].
    [v[0]] is evaluated as soon as the name is found: an attribute without
    values makes the call panic.  The nil slice is the empty list. *)
Definition getAttr (attrs : ippAttrs) (t : Type_) (name : string)
  : outcome (list Value) :=
  match attrs !! name with
  | Some [] => Panic "index out of range [0] with length 0"
  | Some ((tag0, v0) :: rest) =>
      if decide (TypeOf v0 = t) then Ok (snd <$> ((tag0, v0) :: rest))
      else Ok []
  | None => Ok []
  end.

(** [string(vals[i].(goipp.String))]: the type assertion panics on a value
    of another type. *)
Definition assertString (v : Value) : outcome string :=
  match v with
  | String_ s => Ok s
  | _ => Panic "interface conversion: goipp.Value is not goipp.String"
  end.

Fixpoint assertStrings (vals : list Value) : outcome (list string) :=
  match vals with
  | [] => Ok []
  | v :: vals =>
      obind (assertString v) (λ s,
      obind (assertStrings vals) (λ strs, Ok (s :: strs)))
  end.

(** [func (attrs ippAttrs) getStrings(name string) []string] *)
Definition getStrings (attrs : ippAttrs) (name : string) : outcome (list string) :=
  obind (getAttr attrs TypeString name) assertStrings.

(** [func (attrs ippAttrs) strSingle(name string) string] *)
Definition strSingle (attrs : ippAttrs) (name : string) : outcome string :=
  obind (getStrings attrs name) (λ strs,
    match strs with
    | [] => Ok EmptyString
    | s :: _ => Ok s
    end).

(** [func (attrs ippAttrs) getBool(name string) string] *)
Definition getBool (attrs : ippAttrs) (name : string) : outcome string :=
  obind (getAttr attrs TypeBoolean name) (λ vals,
    match vals with
    | [] => Ok EmptyString
    | Boolean true :: _ => Ok "T"
    | Boolean false :: _ => Ok "F"
    | _ :: _ => Panic "interface conversion: goipp.Value is not goipp.Boolean"
    end).

(** [UsbDeviceInfo] as the decoder sees it: [MfgAndProduct] is the
    manufacturer and product string read from the USB descriptors. *)
Record UsbDeviceInfo : Type := mkUsbDeviceInfo {
  MfgAndProduct : string
}.

(** The statements of [decode] under the comment "Obtain DNSSdName": the
    value they leave in [ippinfo.DNSSdName].  [decode] itself, with the
    lookups before and after them, is defined further down. *)
Definition decode_DNSSdName (attrs : ippAttrs) (usbinfo : UsbDeviceInfo)
  : outcome string :=
  obind (strSingle attrs "printer-dns-sd-name") (λ name,
  obind (if bool_decide (name = EmptyString)
         then strSingle attrs "printer-info" else Ok name) (λ name,
  obind (if bool_decide (name = EmptyString)
         then strSingle attrs "printer-make-and-model" else Ok name) (λ name,
  Ok (if bool_decide (name = EmptyString) then MfgAndProduct usbinfo else name)))).

(** ** Duplicate attributes and type mismatches (C6) *)

Lemma lookup_newIppDecoder_first pre a post :
  (∀ b, b ∈ pre → Name b ≠ Name a) →
  newIppDecoder (pre ++ a :: post) !! Name a = Some (Values a).
Proof.
  induction pre as [|b pre IH]; intros Hpre; simpl.
  - apply lookup_insert_eq.
  - rewrite lookup_insert_ne by (apply Hpre, list_elem_of_here).
    apply IH. intros c Hc. by apply Hpre, list_elem_of_further.
Qed.

Lemma lookup_newIppDecoder_None printer name :
  (∀ b, b ∈ printer → Name b ≠ name) → newIppDecoder printer !! name = None.
Proof.
  induction printer as [|b printer IH]; intros Hall; simpl.
  - apply lookup_empty.
  - rewrite lookup_insert_ne by (apply Hall, list_elem_of_here).
    apply IH. intros c Hc. by apply Hall, list_elem_of_further.
Qed.

(** The lookups depend on the entry stored under the name only. *)
Lemma getAttr_ext (attrs attrs' : ippAttrs) t name :
  attrs !! name = attrs' !! name → getAttr attrs t name = getAttr attrs' t name.
Proof. unfold getAttr. by intros ->. Qed.

(** C6.  When a name occurs several times among the printer attributes,
    the map holds the values of its first occurrence, and every lookup
    answers as if that occurrence were the only attribute of the message.
    A lookup for a type other than the type of the first value of the
    attribute answers as if the attribute were absent. *)
Theorem first_occurrence_wins_mismatch_is_absent :
  (∀ pre a post t,
     (∀ b, b ∈ pre → Name b ≠ Name a) →
     newIppDecoder (pre ++ a :: post) !! Name a = Some (Values a)
     ∧ getAttr (newIppDecoder (pre ++ a :: post)) t (Name a)
       = getAttr (newIppDecoder [a]) t (Name a)
     ∧ getStrings (newIppDecoder (pre ++ a :: post)) (Name a)
       = getStrings (newIppDecoder [a]) (Name a)
     ∧ getBool (newIppDecoder (pre ++ a :: post)) (Name a)
       = getBool (newIppDecoder [a]) (Name a))
  ∧ (∀ (attrs : ippAttrs) t name tag v rest,
       attrs !! name = Some ((tag, v) :: rest) → TypeOf v ≠ t →
       getAttr attrs t name = getAttr (delete name attrs) t name
       ∧ getAttr attrs t name = Ok []
       ∧ (t = TypeString →
          getStrings attrs name = getStrings (delete name attrs) name
          ∧ strSingle attrs name = strSingle (delete name attrs) name)
       ∧ (t = TypeBoolean →
          getBool attrs name = getBool (delete name attrs) name)).
Proof.
  split.
  - intros pre a post t Hpre.
    pose proof (lookup_newIppDecoder_first pre a post Hpre) as Hl.
    assert (newIppDecoder (pre ++ a :: post) !! Name a
            = newIppDecoder [a] !! Name a) as Heq
      by (rewrite Hl; simpl; by rewrite lookup_insert_eq).
    split; [done |]. unfold getStrings, getBool.
    by rewrite !(getAttr_ext _ _ _ _ Heq).
  - intros attrs t name tag v rest Hl Hne.
    assert (getAttr attrs t name = getAttr (delete name attrs) t name) as Heq.
    { unfold getAttr. rewrite Hl, lookup_delete_eq. by rewrite decide_False. }
    split; [exact Heq |]. split.
    { unfold getAttr. rewrite Hl. by rewrite decide_False. }
    split; intros ->; unfold strSingle, getStrings, getBool; by rewrite Heq.
Qed.

Definition duplicatedInfo : list Attribute :=
  [MakeAttr "printer-location" [(65, String_ "Room 1")%Z];
   MakeAttr "printer-info" [(65, String_ "first")%Z];
   MakeAttr "color-supported" [(34, Boolean true)%Z];
   MakeAttr "printer-info" [(65, String_ "second")%Z]].

(** [first_occurrence_wins_mismatch_is_absent] on a message with a
    repeated attribute, and on a lookup of a boolean as a string. *)
Lemma first_occurrence_wins_mismatch_is_absent_witness :
  (newIppDecoder duplicatedInfo !! "printer-info" = Some [(65, String_ "first")%Z]
   ∧ getStrings (newIppDecoder duplicatedInfo) "printer-info" = Ok ["first"])
  ∧ getAttr (newIppDecoder duplicatedInfo) TypeString "color-supported"
    = getAttr (delete "color-supported" (newIppDecoder duplicatedInfo))
              TypeString "color-supported".
Proof.
  destruct first_occurrence_wins_mismatch_is_absent as [Hfirst Hmis].
  split.
  - destruct (Hfirst [MakeAttr "printer-location" [(65, String_ "Room 1")%Z]]
                     (MakeAttr "printer-info" [(65, String_ "first")%Z])
                     [MakeAttr "color-supported" [(34, Boolean true)%Z];
                      MakeAttr "printer-info" [(65, String_ "second")%Z]]
                     TypeString) as (Hl & _ & Hs & _).
    { intros b Hb. apply list_elem_of_singleton in Hb. subst b. by vm_compute. }
    split; [exact Hl | exact Hs].
  - apply (Hmis (newIppDecoder duplicatedInfo) TypeString "color-supported"
                34%Z (Boolean true) []); [reflexivity | discriminate].
Defined.

(** ** The name block of [decode] *)


(** The values of an attribute are of one type, and there is at least
    one: what an IPP attribute with a single syntax decodes to. *)
Definition oneTyped (vs : list (Z * Value)) : Prop :=
  match vs with
  | [] => False
  | (_, v0) :: rest => Forall (λ tv, TypeOf tv.2 = TypeOf v0) rest
  end.

#[global] Instance oneTyped_dec vs : Decision (oneTyped vs).
Proof. destruct vs as [|[? ?] ?]; simpl; apply _. Defined.










Example decode_DNSSdName_usb_fallback :
  decode_DNSSdName (newIppDecoder []) (mkUsbDeviceInfo "ACME LaserStar")
  = Ok "ACME LaserStar".
Proof. reflexivity. Qed.

(** ** Further lookups of the decoder *)

Import GoStrings.

(** The loop of [getDuplex] over the values of sides-supported. *)
Fixpoint duplexLoop (vals : list Value) (one two : bool) : outcome (bool * bool) :=
  match vals with
  | [] => Ok (one, two)
  | v :: vals =>
      obind (assertString v) (λ s,
        if HasPrefix s "one" then duplexLoop vals true two
        else if HasPrefix s "two" then duplexLoop vals one true
        else duplexLoop vals one two)
  end.

(** [func (attrs ippAttrs) getDuplex() string] *)
Definition getDuplex (attrs : ippAttrs) : outcome string :=
  obind (getAttr attrs TypeString "sides-supported") (λ vals,
  obind (duplexLoop vals false false) (λ '(one, two),
    Ok (if two then "T" else if one then "F" else EmptyString))).

(** [strings.SplitN(s, sep, 2)] for a separator of one byte: [s] cut at
    the first separator, or [s] alone when it has none. *)
Fixpoint cut (s : string) (sep : ascii) : option (string * string) :=
  match s with
  | EmptyString => None
  | String c s' =>
      if Ascii.eqb c sep then Some (EmptyString, s')
      else match cut s' sep with
           | Some (k, v) => Some (String c k, v)
           | None => None
           end
  end.

Definition SplitN2 (s : string) (sep : ascii) : list string :=
  match cut s sep with
  | Some (k, v) => [k; v]
  | None => [s]
  end.

(** One turn of the loop of [decode] over the fields of the IEEE 1284
    device id. *)
Definition devidField (devid : gmap string string) (id : string)
  : gmap string string :=
  match SplitN2 id ":"%char with
  | [k; v] => <[k := v]> devid
  | _ => devid
  end.

(** The map [devid] that [decode] builds from the printer-device-id
    string. *)
Definition parseDeviceId (id : string) : gmap string string :=
  foldl devidField ∅ (Split id ";"%char).

(** [goipp.Attribute{}]: the zero attribute. *)
Definition zeroAttr : Attribute := MakeAttr EmptyString [].

(** The inner loop of [getPaperMax]: it runs from the last attribute of
    the collection to the first and keeps the attribute it saw last under
    each of the two names. *)
Definition findDims (attrs : list Attribute) : Attribute * Attribute :=
  foldr (λ a dims,
           if bool_decide (Name a = "x-dimension") then (a, dims.2)
           else if bool_decide (Name a = "y-dimension") then (dims.1, a)
           else dims)
        (zeroAttr, zeroAttr) attrs.

(** The update of a running maximum by the first value of a dimension
    attribute: an integer, or the upper end of a range. *)
Definition dimMax (a : Attribute) (dim_max : Z) : Z :=
  match Values a with
  | (_, Integer n) :: _ => if (dim_max <? n)%Z then n else dim_max
  | (_, Range _ upper) :: _ => if (dim_max <? upper)%Z then upper else dim_max
  | _ => dim_max
  end.

(** The loop of [getPaperMax] over the members of media-size-supported;
    [collection.(goipp.Collection)] panics on a member of another type. *)
Fixpoint paperLoop (vals : list Value) (x_dim_max y_dim_max : Z)
  : outcome (Z * Z) :=
  match vals with
  | [] => Ok (x_dim_max, y_dim_max)
  | Collection attrs :: vals =>
      let dims := findDims attrs in
      paperLoop vals (dimMax dims.1 x_dim_max) (dimMax dims.2 y_dim_max)
  | _ :: _ => Panic "interface conversion: goipp.Value is not goipp.Collection"
  end.

Section paper.

(** [PaperSize{x, y}.Classify()], of a source file that is not at hand. *)
Variable Classify : Z → Z → string.

(** [func (attrs ippAttrs) getPaperMax() string] *)
Definition getPaperMax (attrs : ippAttrs) : outcome string :=
  obind (getAttr attrs TypeCollection "media-size-supported") (λ vals,
    match vals with
    | [] => Ok EmptyString
    | _ =>
        obind (paperLoop vals 0 0) (λ '(x_dim_max, y_dim_max),
          if (x_dim_max =? 0)%Z || (y_dim_max =? 0)%Z then Ok EmptyString
          else Ok (Classify x_dim_max y_dim_max))
    end).

End paper.

(** X13.  The attribute map has a name exactly when some printer
    attribute of the message carries it. *)
Theorem newIppDecoder_dom (printer : list Attribute) (name : string) :
  is_Some (newIppDecoder printer !! name) ↔ ∃ a, a ∈ printer ∧ Name a = name.
Proof.
  induction printer as [|b printer IH]; cbn [newIppDecoder foldr].
  - rewrite lookup_empty. split; [by intros [? ?] |].
    by intros (a & Ha%elem_of_nil & _).
  - fold (newIppDecoder printer). rewrite lookup_insert. case_decide as Hb.
    + split; [| by eexists]. intros _. exists b. split; [by left | done].
    + rewrite IH. split.
      * intros (a & Ha & Hn). exists a. split; [by right | done].
      * intros (a & [->|Ha]%elem_of_cons & Hn); [done |]. by exists a.
Qed.

(** [getAttr] checks the type of the first value only.  It panics
    exactly on an attribute without values; otherwise it returns all the
    values of the attribute, of whatever type, when the first one has the
    requested type, and nil when it has not or the name is absent. *)
Theorem getAttr_cases (attrs : ippAttrs) (t : Type_) (name : string) :
  match attrs !! name with
  | None => getAttr attrs t name = Ok []
  | Some [] => ∃ msg, getAttr attrs t name = Panic msg
  | Some ((tag0, v0) :: rest) =>
      (TypeOf v0 = t → getAttr attrs t name = Ok (v0 :: (snd <$> rest)))
      ∧ (TypeOf v0 ≠ t → getAttr attrs t name = Ok [])
  end.
Proof.
  unfold getAttr. destruct (attrs !! name) as [[|[tag0 v0] rest]|]; [by eexists | | done].
  split; intros Ht; [by rewrite decide_True | by rewrite decide_False].
Qed.

Lemma assertStrings_Ok_iff vals :
  (∃ strs, assertStrings vals = Ok strs)
  ↔ Forall (λ v, TypeOf v = TypeString) vals.
Proof.
  induction vals as [|v vals IH]; cbn [assertStrings].
  - split; [constructor | by eexists].
  - rewrite Forall_cons, <- IH. destruct v; cbn [assertString obind TypeOf];
      try (split; [by intros [? [=]] | by intros [[=] _]]).
    destruct (assertStrings vals) as [strs|msg]; cbn [obind].
    + split; [intros _; split; [done | by eexists] | by eexists].
    + split; [by intros [? [=]] | by intros [_ [? [=]]]].
Qed.

(** X14.  On an attribute whose first value is a string, [getStrings]
    returns exactly when every value of the attribute is a string; a
    value of another type further on makes it panic. *)
Theorem getStrings_returns_iff (attrs : ippAttrs) (name : string)
    (tag : Z) (s : string) (rest : list (Z * Value)) :
  attrs !! name = Some ((tag, String_ s) :: rest) →
  (∃ strs, getStrings attrs name = Ok strs)
  ↔ Forall (λ tv, TypeOf tv.2 = TypeString) rest.
Proof.
  intros Hl. unfold getStrings, getAttr. rewrite Hl.
  rewrite decide_True by done. cbn [obind].
  rewrite assertStrings_Ok_iff, fmap_cons, Forall_cons, Forall_fmap.
  cbn [snd TypeOf]. split; [by intros [_ ?] | done].
Qed.

Definition mixedSides : ippAttrs :=
  {["sides-supported" := [(68, String_ "one-sided"); (33, Integer 2)]%Z;
    "printer-info" := [(65, String_ "a"); (65, String_ "b")]%Z]}.

Lemma getStrings_returns_iff_witness :
  mixedSides !! "printer-info" = Some [(65, String_ "a"); (65, String_ "b")]%Z
  ∧ ∃ strs, getStrings mixedSides "printer-info" = Ok strs.
Proof.
  assert (mixedSides !! "printer-info"
          = Some [(65, String_ "a"); (65, String_ "b")]%Z) as Hl by reflexivity.
  split; [exact Hl |].
  apply (proj2 (getStrings_returns_iff mixedSides "printer-info" 65%Z "a"
                  [(65, String_ "b")%Z] Hl)).
  repeat constructor.
Defined.

(** X15.  [getBool] never panics on an attribute that has values: it
    returns "T" or "F" after the first value when that is a boolean, and
    the empty string for any other attribute or none. *)
Theorem getBool_cases (attrs : ippAttrs) (name : string) :
  attrs !! name ≠ Some [] →
  getBool attrs name =
  Ok match attrs !! name with
     | Some ((_, Boolean true) :: _) => "T"
     | Some ((_, Boolean false) :: _) => "F"
     | _ => EmptyString
     end.
Proof.
  intros Hne. unfold getBool, getAttr.
  destruct (attrs !! name) as [[|[tag0 v0] rest]|]; [done | | done].
  destruct v0 as [| |[|]| | | | | | |]; done.
Qed.

Lemma getBool_cases_witness :
  newIppDecoder duplicatedInfo !! "color-supported" ≠ Some []
  ∧ getBool (newIppDecoder duplicatedInfo) "color-supported" = Ok "T".
Proof.
  assert (newIppDecoder duplicatedInfo !! "color-supported" ≠ Some []) as Hne
    by (by vm_compute).
  split; [exact Hne |].
  exact (getBool_cases (newIppDecoder duplicatedInfo) "color-supported" Hne).
Defined.

Lemma HasPrefix_one_two s : HasPrefix s "one" = true → HasPrefix s "two" = false.
Proof.
  unfold HasPrefix. destruct s as [|c s]; [done |]. cbn [String.prefix].
  destruct (ascii_dec "o" c) as [<-|]; [| done]. intros _.
  by destruct (ascii_dec "t" "o").
Qed.

Lemma duplexLoop_strings (strs : list string) : ∀ one two,
  duplexLoop (String_ <$> strs) one two =
  Ok (one || existsb (λ s, HasPrefix s "one") strs,
      two || existsb (λ s, HasPrefix s "two") strs).
Proof.
  induction strs as [|s strs IH]; intros one two;
    cbn [duplexLoop fmap list_fmap existsb assertString obind].
  - by rewrite !orb_false_r.
  - destruct (HasPrefix s "one") eqn:H1.
    + rewrite IH, (HasPrefix_one_two s H1). by rewrite orb_true_r.
    + destruct (HasPrefix s "two") eqn:H2; rewrite IH; [| done].
      cbn [orb]. by rewrite orb_true_r.
Qed.

(** X16.  [getDuplex] on a sides-supported attribute made of strings:
    "T" when some value begins with "two", wherever it stands in the list;
    otherwise "F" when some value begins with "one"; otherwise the empty
    string. *)
Theorem getDuplex_two_wins (attrs : ippAttrs) (sides : list (Z * string)) :
  sides ≠ [] →
  attrs !! "sides-supported" = Some (prod_map id String_ <$> sides) →
  getDuplex attrs =
  Ok (if existsb (λ s, HasPrefix s "two") sides.*2 then "T"
      else if existsb (λ s, HasPrefix s "one") sides.*2 then "F"
      else EmptyString).
Proof.
  intros Hne Hl. unfold getDuplex, getAttr. rewrite Hl.
  destruct sides as [|[tag0 s0] sides]; [done |].
  rewrite fmap_cons. cbn [prod_map fst snd id]. rewrite decide_True by done.
  cbn [obind].
  replace (((tag0, String_ s0) :: (prod_map id String_ <$> sides)).*2)
    with (String_ <$> ((tag0, s0) :: sides).*2).
  - rewrite duplexLoop_strings. cbn [obind orb]. done.
  - rewrite !fmap_cons. cbn [snd]. f_equal.
    rewrite <- !list_fmap_compose. by apply list_fmap_ext.
Qed.

Definition bothSides : ippAttrs :=
  {["sides-supported" :=
      [(68, String_ "one-sided"); (68, String_ "two-sided-long-edge")]%Z]}.

Lemma getDuplex_two_wins_witness : getDuplex bothSides = Ok "T".
Proof.
  apply (getDuplex_two_wins bothSides
           [(68, "one-sided"); (68, "two-sided-long-edge")]%Z);
    [discriminate | reflexivity].
Defined.

(** *** The IEEE 1284 device id *)

Lemma Split_nonempty s sep : Split s sep ≠ [].
Proof.
  induction s as [|c s IH]; cbn [Split]; [done |].
  destruct (Ascii.eqb c sep); [done |]. by destruct (Split s sep).
Qed.

Lemma Split_app_sep s1 s2 sep :
  Split (s1 +:+ String sep s2) sep = Split s1 sep ++ Split s2 sep.
Proof.
  induction s1 as [|c s1 IH].
  - change (EmptyString +:+ String sep s2) with (String sep s2).
    cbn [Split]. by rewrite Ascii.eqb_refl.
  - change (String c s1 +:+ String sep s2) with (String c (s1 +:+ String sep s2)).
    cbn [Split]. rewrite IH.
    destruct (Ascii.eqb c sep); [done |].
    pose proof (Split_nonempty s1 sep).
    by destruct (Split s1 sep).
Qed.

Lemma foldl_devidField (fields : list string) : ∀ devid,
  foldl devidField devid fields = foldl devidField ∅ fields ∪ devid.
Proof.
  induction fields as [|f fields IH]; intros devid; cbn [foldl].
  - by rewrite (left_id_L ∅ (∪)).
  - rewrite IH, (IH (devidField ∅ f)). rewrite <- (assoc_L (∪)). f_equal.
    unfold devidField. destruct (SplitN2 f ":") as [|k [|v [|? ?]]];
      try by rewrite (left_id_L ∅ (∪)).
    by rewrite !insert_union_singleton_l, (right_id_L ∅ (∪)).
Qed.

(** X17.  The device id is read field by field, and a later field
    overrides an earlier one with the same key: the map of two ids joined
    by a semicolon is the map of the second, completed by the map of the
    first. *)
Theorem parseDeviceId_join (id1 id2 : string) :
  parseDeviceId (id1 +:+ ";" +:+ id2) = parseDeviceId id2 ∪ parseDeviceId id1.
Proof.
  unfold parseDeviceId.
  change (id1 +:+ ";" +:+ id2) with (id1 +:+ String ";"%char id2).
  rewrite Split_app_sep, foldl_app. apply foldl_devidField.
Qed.

Fixpoint has_byte (c : ascii) (s : string) : bool :=
  match s with
  | EmptyString => false
  | String c' s => Ascii.eqb c' c || has_byte c s
  end.

Lemma Split_no_sep s sep : has_byte sep s = false → Split s sep = [s].
Proof.
  induction s as [|c s IH]; cbn [has_byte Split]; [done |].
  intros [Hc Hs]%orb_false_iff. rewrite Hc, IH; done.
Qed.

Lemma cut_no_sep s sep : has_byte sep s = false → cut s sep = None.
Proof.
  induction s as [|c s IH]; cbn [has_byte cut]; [done |].
  intros [Hc Hs]%orb_false_iff. by rewrite Hc, IH.
Qed.

Lemma cut_first k v sep :
  has_byte sep k = false → cut (k +:+ String sep v) sep = Some (k, v).
Proof.
  induction k as [|c k IH]; intros Hk.
  - change (EmptyString +:+ String sep v) with (String sep v).
    cbn [cut]. by rewrite Ascii.eqb_refl.
  - change (String c k +:+ String sep v) with (String c (k +:+ String sep v)).
    cbn [has_byte cut] in *. apply orb_false_iff in Hk as [Hc Hk].
    by rewrite Hc, IH.
Qed.

Lemma has_byte_app c s t : has_byte c (s +:+ t) = has_byte c s || has_byte c t.
Proof.
  induction s as [|c' s IH]; [done |].
  change (String c' s +:+ t) with (String c' (s +:+ t)).
  cbn [has_byte]. by rewrite IH, orb_assoc.
Qed.

(** X18.  A single field KEY:VALUE gives the one entry KEY to VALUE, cut
    at the first colon, so the value may hold colons; a field without a
    colon gives no entry. *)
Theorem parseDeviceId_field (k v : string) :
  has_byte ":" k = false → has_byte ";" k = false → has_byte ";" v = false →
  parseDeviceId (k +:+ ":" +:+ v) = {[k := v]}
  ∧ parseDeviceId k = ∅.
Proof.
  intros Hk Hks Hv. unfold parseDeviceId. split.
  - rewrite Split_no_sep.
    + cbn [foldl]. unfold devidField, SplitN2.
      change (k +:+ ":" +:+ v) with (k +:+ String ":"%char v).
      rewrite cut_first by done. by rewrite insert_empty.
    + rewrite has_byte_app, Hks. cbn [orb String.append has_byte].
      change (":" +:+ v) with (String ":"%char v). cbn [has_byte]. by rewrite Hv.
  - rewrite Split_no_sep by done. cbn [foldl]. unfold devidField, SplitN2.
    by rewrite cut_no_sep.
Qed.

Lemma parseDeviceId_field_witness :
  parseDeviceId "URL:http://acme.example/p" = {["URL" := "http://acme.example/p"]}
  ∧ parseDeviceId "MFG" = ∅.
Proof.
  apply (parseDeviceId_field "URL" "http://acme.example/p"); reflexivity.
Defined.

Example parseDeviceId_example :
  parseDeviceId "MFG:ACME;MDL:LaserStar 5;CMD:PCL,PS;stray;MDL:LaserStar 5e;"
  = {["MFG" := "ACME"; "MDL" := "LaserStar 5e"; "CMD" := "PCL,PS"]}.
Proof. by vm_compute. Qed.

(** *** PaperMax *)

Lemma dimMax_comm a b z : dimMax a (dimMax b z) = dimMax b (dimMax a z).
Proof.
  unfold dimMax.
  destruct (Values a) as [|[? []] ?], (Values b) as [|[? []] ?]; try done;
    repeat (case_match; try rewrite Z.ltb_lt in *; try rewrite Z.ltb_ge in *);
    try done; lia.
Qed.

(** The loop of [getPaperMax] does not look at the order of the members:
    neither the maxima nor the panic on a member that is not a collection
    depend on it. *)
Lemma paperLoop_Permutation (vals vals' : list Value) (x y : Z) :
  vals ≡ₚ vals' → paperLoop vals x y = paperLoop vals' x y.
Proof.
  intros Hp. revert x y.
  induction Hp as [|v vals vals' Hp IH|v w vals|vals vals' vals'' _ IH1 _ IH2];
    intros x y.
  - done.
  - cbn [paperLoop]. destruct v; done || apply IH.
  - cbn [paperLoop]. destruct v, w; try done.
    cbv zeta.
    by rewrite (dimMax_comm (findDims attrs).1), (dimMax_comm (findDims attrs).2).
  - by rewrite IH1.
Qed.

(** The attribute begins with a collection: what [getAttr] asks of
    media-size-supported before [getPaperMax] goes through its members. *)
Definition beginsWithCollection (vs : list (Z * Value)) : Prop :=
  match vs with
  | (_, Collection _) :: _ => True
  | _ => False
  end.

Section paper_facts.

Variable Classify : Z → Z → string.

Lemma getPaperMax_lookup (attrs : ippAttrs) (vs : list (Z * Value)) :
  attrs !! "media-size-supported" = Some vs → beginsWithCollection vs →
  getPaperMax Classify attrs =
  obind (paperLoop vs.*2 0 0) (λ '(x_dim_max, y_dim_max),
    if (x_dim_max =? 0)%Z || (y_dim_max =? 0)%Z then Ok EmptyString
    else Ok (Classify x_dim_max y_dim_max)).
Proof.
  intros Hl Hvs. unfold getPaperMax, getAttr. rewrite Hl.
  destruct vs as [|[tag0 []] rest]; try done.
Qed.

(** X19.  [getPaperMax] does not depend on the order in which the printer
    lists its media sizes, as long as the list begins with a collection
    ([getAttr] looks at the type of the first member only): the size
    class, the empty string, and the panic on a member that is not a
    collection are the same for two orders of the same members. *)
Theorem getPaperMax_Permutation (attrs attrs' : ippAttrs)
    (vs vs' : list (Z * Value)) :
  attrs !! "media-size-supported" = Some vs →
  attrs' !! "media-size-supported" = Some vs' →
  vs ≡ₚ vs' → beginsWithCollection vs → beginsWithCollection vs' →
  getPaperMax Classify attrs = getPaperMax Classify attrs'.
Proof.
  intros Hl Hl' Hp Hvs Hvs'.
  rewrite (getPaperMax_lookup attrs vs), (getPaperMax_lookup attrs' vs') by done.
  by rewrite (paperLoop_Permutation vs.*2 vs'.*2 0 0) by (by apply fmap_Permutation).
Qed.

End paper_facts.

Definition a4 : Value :=
  Collection [MakeAttr "x-dimension" [(33, Integer 21000)%Z];
              MakeAttr "y-dimension" [(33, Integer 29700)%Z]].
Definition roll : Value :=
  Collection [MakeAttr "x-dimension" [(33, Integer 21590)%Z];
              MakeAttr "y-dimension" [(51, Range 10000 35560)%Z]].

(** A size class that shows the two maxima. *)
Definition showSize (x y : Z) : string := pretty x +:+ "x" +:+ pretty y.

Lemma getPaperMax_Permutation_witness :
  let attrs : ippAttrs := {["media-size-supported" := [(52, a4); (52, roll)]%Z]} in
  let attrs' : ippAttrs := {["media-size-supported" := [(52, roll); (52, a4)]%Z]} in
  getPaperMax showSize attrs = getPaperMax showSize attrs'
  ∧ getPaperMax showSize attrs = Ok "21590x35560".
Proof.
  intros attrs attrs'. split; [| by vm_compute].
  apply (getPaperMax_Permutation showSize attrs attrs'
           [(52, a4); (52, roll)]%Z [(52, roll); (52, a4)]%Z);
    [reflexivity | reflexivity | apply perm_swap | exact I | exact I].
Defined.

(** Without that condition the order matters: a member that is not a
    collection makes [getPaperMax] panic when it comes second and return
    the empty string when it comes first. *)
Example getPaperMax_first_member :
  getPaperMax showSize {["media-size-supported" := [(52, a4); (33, Integer 1)]%Z]}
  = Panic "interface conversion: goipp.Value is not goipp.Collection"
  ∧ getPaperMax showSize {["media-size-supported" := [(33, Integer 1); (52, a4)]%Z]}
    = Ok EmptyString.
Proof. split; reflexivity. Qed.

(** ** The whole of [decode] *)

(** [IppPrinterInfo] *)
Record IppPrinterInfo : Type := mkIppPrinterInfo {
  DNSSdName : string;
  UUID : string;
  AdminURL : string;
  IconURL : string;
  IppSvcIndex : Z
}.

(** [DNSSdSvcInfo], over the type of its TXT record. *)
Record DNSSdSvcInfo (Txt : Type) : Type := mkDNSSdSvcInfo {
  SvcType : string;
  SubTypes : list string;
  Port : Z;
  SvcTxt : Txt
}.
Arguments mkDNSSdSvcInfo {Txt} _ _ _ _.
Arguments SvcTxt {Txt} _.

(** [func (attrs ippAttrs) strJoined(name string) string] *)
Definition strJoined (attrs : ippAttrs) (name : string) : outcome string :=
  obind (getStrings attrs name) (λ strs, Ok (String.concat "," strs)).

(** [func (attrs ippAttrs) strBrackets(name string) string] *)
Definition strBrackets (attrs : ippAttrs) (name : string) : outcome string :=
  obind (strSingle attrs name) (λ s,
    Ok (if bool_decide (s ≠ EmptyString) then "(" +:+ s +:+ ")" else s)).

(** [devid[key]]: the empty string for a key that is not in the map. *)
Definition devidGet (devid : gmap string string) (key : string) : string :=
  default EmptyString (devid !! key).

Section decoder.

(** The parts of the repository that [decode] calls and whose source files
    are not at hand, taken as functions that return: the TXT record
    [svc.Txt], empty at first, with its methods [Add], [IfNotEmpty] and
    [URLIfNotEmpty], the latter two telling whether they added the pair;
    [UUIDNormalize]; the method [UUID] of [UsbDeviceInfo]; and
    [PaperSize.Classify]. *)
Variable Txt : Type.
Variable Txt_zero : Txt.
Variable Txt_Add : Txt → string → string → Txt.
Variable Txt_IfNotEmpty : Txt → string → string → Txt * bool.
Variable Txt_URLIfNotEmpty : Txt → string → string → Txt * bool.
Variable UUIDNormalize : string → string.
Variable UsbDeviceInfo_UUID : UsbDeviceInfo → string.
Variable Classify : Z → Z → string.

(** [func (attrs ippAttrs) getUUID() string] *)
Definition getUUID (attrs : ippAttrs) : outcome string :=
  obind (strSingle attrs "printer-uuid") (λ uuid, Ok (UUIDNormalize uuid)).

(** The statements of [decode] that fill [svc.Txt], in order. *)
Definition decode_Txt (attrs : ippAttrs) (devid : gmap string string)
    (uuid adminURL : string) : outcome Txt :=
  let txt := Txt_Add Txt_zero "air" "none" in
  obind (strSingle attrs "mopria-certified") (λ v,
  let txt := (Txt_IfNotEmpty txt "mopria-certified" v).1 in
  let txt := Txt_Add txt "rp" "ipp/print" in
  let txt := Txt_Add txt "priority" "50" in
  obind (strJoined attrs "printer-kind") (λ v,
  let txt := (Txt_IfNotEmpty txt "kind" v).1 in
  obind (getPaperMax Classify attrs) (λ v,
  let txt := (Txt_IfNotEmpty txt "PaperMax" v).1 in
  obind (strJoined attrs "urf-supported") (λ v,
  let '(txt, added) := Txt_IfNotEmpty txt "URF" v in
  let txt := if added then txt
             else (Txt_IfNotEmpty txt "URF" (devidGet devid "URF")).1 in
  let txt := (Txt_IfNotEmpty txt "UUID" uuid).1 in
  obind (getBool attrs "color-supported") (λ v,
  let txt := (Txt_IfNotEmpty txt "Color" v).1 in
  obind (getDuplex attrs) (λ v,
  let txt := (Txt_IfNotEmpty txt "Duplex" v).1 in
  obind (strSingle attrs "printer-location") (λ v,
  let txt := Txt_Add txt "note" v in
  let txt := Txt_Add txt "qtotal" "1" in
  let txt := (Txt_IfNotEmpty txt "usb_MDL" (devidGet devid "MDL")).1 in
  let txt := (Txt_IfNotEmpty txt "usb_MFG" (devidGet devid "MFG")).1 in
  let txt := (Txt_IfNotEmpty txt "usb_CMD" (devidGet devid "CMD")).1 in
  obind (strSingle attrs "printer-make-and-model") (λ v,
  let txt := (Txt_IfNotEmpty txt "ty" v).1 in
  obind (strBrackets attrs "printer-make-and-model") (λ v,
  let txt := (Txt_IfNotEmpty txt "product" v).1 in
  obind (strJoined attrs "document-format-supported") (λ v,
  let txt := (Txt_IfNotEmpty txt "pdl" v).1 in
  let txt := Txt_Add txt "txtvers" "1" in
  Ok (Txt_URLIfNotEmpty txt "adminurl" adminURL).1)))))))))).

(** [func (attrs ippAttrs) decode(usbinfo UsbDeviceInfo)
    (ippinfo *IppPrinterInfo, svc DNSSdSvcInfo)].  A lookup that panics
    ends the call. *)
Definition decode (attrs : ippAttrs) (usbinfo : UsbDeviceInfo)
  : outcome (IppPrinterInfo * DNSSdSvcInfo Txt) :=
  (* Obtain IppPrinterInfo *)
  obind (strSingle attrs "printer-more-info") (λ adminURL,
  obind (strSingle attrs "printer-icons") (λ iconURL,
  (* Obtain DNSSdName *)
  obind (decode_DNSSdName attrs usbinfo) (λ dnssdName,
  (* Obtain UUID *)
  obind (getUUID attrs) (λ uuid,
  let uuid := if bool_decide (uuid = EmptyString)
              then UsbDeviceInfo_UUID usbinfo else uuid in
  (* Obtain and parse IEEE 1284 device ID *)
  obind (strSingle attrs "printer-device-id") (λ id,
  let devid := parseDeviceId id in
  obind (decode_Txt attrs devid uuid adminURL) (λ txt,
  Ok (mkIppPrinterInfo dnssdName uuid adminURL iconURL 0,
      mkDNSSdSvcInfo "_ipp._tcp" ["_universal._sub._ipp._tcp"] 0 txt))))))).












End decoder.

(** *** [decode] on a message *)

(** A TXT record as the list of its pairs, for the examples: [Add]
    appends, [IfNotEmpty] appends a value that is not empty, and
    [URLIfNotEmpty] one that begins with "http". *)
Definition listTxt_Add (txt : list (string * string)) (key value : string)
  : list (string * string) := txt ++ [(key, value)].

Definition listTxt_IfNotEmpty (txt : list (string * string)) (key value : string)
  : list (string * string) * bool :=
  if bool_decide (value ≠ EmptyString) then (listTxt_Add txt key value, true)
  else (txt, false).

Definition listTxt_URLIfNotEmpty (txt : list (string * string)) (key value : string)
  : list (string * string) * bool :=
  if HasPrefix value "http" then (listTxt_Add txt key value, true)
  else (txt, false).

(** [decode] with these, a normalization that drops the prefix
    "urn:uuid:", a fixed UUID for the USB device and [showSize]. *)
Definition sampleDecode (attrs : ippAttrs) (usbinfo : UsbDeviceInfo)
  : outcome (IppPrinterInfo * DNSSdSvcInfo (list (string * string))) :=
  decode (list (string * string)) [] listTxt_Add listTxt_IfNotEmpty
         listTxt_URLIfNotEmpty (λ uuid, TrimPrefix uuid "urn:uuid:")
         (λ _, "00000000-0000-0000-0000-000000000000") showSize attrs usbinfo.

Definition noNamePrinter : list Attribute :=
  [MakeAttr "printer-dns-sd-name" [(66, String_ EmptyString)%Z];
   MakeAttr "printer-info" [(53, TextWithLang "en" "Office printer")%Z];
   MakeAttr "printer-make-and-model" [(65, String_ "ACME LaserStar 5")%Z];
   MakeAttr "printer-icons"
     [(69, String_ "http://p.example/s.png"); (69, String_ "http://p.example/l.png")]%Z;
   MakeAttr "sides-supported"
     [(68, String_ "one-sided"); (68, String_ "two-sided-long-edge")]%Z;
   MakeAttr "media-size-supported" [(52, a4); (52, roll)]%Z;
   MakeAttr "color-supported" [(34, Boolean false)%Z];
   MakeAttr "printer-device-id" [(65, String_ "MFG:ACME;MDL:LaserStar 5;CMD:PCL,URF;")%Z]].

(** A printer-icons attribute that lists a URI and then an integer makes
    [strSingle] panic: [decode] does not return, and no name is
    advertised. *)
Example decode_panics_on_mixed_icons :
  sampleDecode
    (newIppDecoder
       [MakeAttr "printer-dns-sd-name" [(66, String_ "ACME")%Z];
        MakeAttr "printer-icons" [(69, String_ "http://p.example/s.png");
                                  (33, Integer 1)]%Z])
    (mkUsbDeviceInfo "ACME LaserStar")
  = Panic "interface conversion: goipp.Value is not goipp.String".
Proof. reflexivity. Qed.

Example sampleDecode_example :
  sampleDecode (newIppDecoder noNamePrinter) (mkUsbDeviceInfo "ACME LaserStar")
  = Ok (mkIppPrinterInfo "ACME LaserStar 5" "00000000-0000-0000-0000-000000000000"
          EmptyString "http://p.example/s.png" 0,
        mkDNSSdSvcInfo "_ipp._tcp" ["_universal._sub._ipp._tcp"] 0
          [("air", "none"); ("rp", "ipp/print"); ("priority", "50");
           ("PaperMax", "21590x35560");
           ("UUID", "00000000-0000-0000-0000-000000000000");
           ("Color", "F"); ("Duplex", "T"); ("note", EmptyString);
           ("qtotal", "1"); ("usb_MDL", "LaserStar 5"); ("usb_MFG", "ACME");
           ("usb_CMD", "PCL,URF"); ("ty", "ACME LaserStar 5");
           ("product", "(ACME LaserStar 5)"); ("txtvers", "1")]).
Proof. by vm_compute. Qed.

End Ipp.

(** * Module [Escl]: the decoder of eSCL ScannerCapabilities (escl.go) *)

Module Escl.
Import GoStrings.

(** ** XML tokens *)

(** What [xml.Decoder.RawToken] returns.  [RawToken] does not check that
    start and end elements match and does not resolve name spaces: the
    name space of a name is its prefix as written.  Comments, processing
    instructions and directives are [OtherToken]. *)
Inductive Token : Type :=
| StartElement (space local_ : string)
| EndElement (space local_ : string)
| CharData (text : string)
| OtherToken.

(** ** The decoder *)

Record esclCapsDecoder : Type := mkDecoder {
  uuid : string;
  version : string;
  platen : bool;
  adf : bool;
  duplex : bool;
  pdl : gset string;
  cs : gset string
}.

(** [func newEsclCapsDecoder() *esclCapsDecoder] *)
Definition newEsclCapsDecoder : esclCapsDecoder :=
  mkDecoder EmptyString EmptyString false false false ∅ ∅.

Definition esclPlaten : string := "/scan:ScannerCapabilities/scan:Platen".
Definition esclAdf : string := "/scan:ScannerCapabilities/scan:Adf".
Definition esclPlatenInputCaps : string := esclPlaten +:+ "/scan:PlatenInputCaps".
Definition esclAdfSimplexCaps : string := esclAdf +:+ "/scan:AdfSimplexInputCaps".
Definition esclAdfDuplexCaps : string := esclAdf +:+ "/scan:AdfDuplexCaps".
Definition esclSettingProfile : string :=
  "/scan:SettingProfiles/scan:SettingProfile".
Definition esclColorMode : string :=
  esclSettingProfile +:+ "/scan:ColorModes/scan:ColorMode".
Definition esclDocumentFormat : string :=
  esclSettingProfile +:+ "/scan:DocumentFormats/pwg:DocumentFormat".

(** [func (decoder *esclCapsDecoder) element(path string)] *)
Definition element (decoder : esclCapsDecoder) (path : string) : esclCapsDecoder :=
  if bool_decide (path = esclPlaten) then
    mkDecoder (uuid decoder) (version decoder) true (adf decoder)
              (duplex decoder) (pdl decoder) (cs decoder)
  else if bool_decide (path = esclAdf) then
    mkDecoder (uuid decoder) (version decoder) (platen decoder) true
              (duplex decoder) (pdl decoder) (cs decoder)
  else decoder.

Definition withCs (decoder : esclCapsDecoder) (c : string) : esclCapsDecoder :=
  mkDecoder (uuid decoder) (version decoder) (platen decoder) (adf decoder)
            (duplex decoder) (pdl decoder) ({[c]} ∪ cs decoder).

Section decoder.

(** The case table of package [unicode], see [GoStrings.unicode_ToLower]. *)
Variable CaseRanges_lower : Z → Z.

(** [func (decoder *esclCapsDecoder) data(path, data string)] *)
Definition data (decoder : esclCapsDecoder) (path data : string) : esclCapsDecoder :=
  if bool_decide (path = "/scan:ScannerCapabilities/scan:UUID") then
    mkDecoder data (version decoder) (platen decoder) (adf decoder)
              (duplex decoder) (pdl decoder) (cs decoder)
  else if bool_decide (path = "/scan:ScannerCapabilities/pwg:Version") then
    mkDecoder (uuid decoder) data (platen decoder) (adf decoder)
              (duplex decoder) (pdl decoder) (cs decoder)
  else if bool_decide (path ∈ [esclPlatenInputCaps +:+ esclColorMode;
                                esclAdfSimplexCaps +:+ esclColorMode;
                                esclAdfDuplexCaps +:+ esclColorMode]) then
    let data := ToLower CaseRanges_lower data in
    if HasPrefix data "rgb" then withCs decoder "color"
    else if HasPrefix data "grayscale" then withCs decoder "grayscale"
    else if HasPrefix data "blackandwhite" then withCs decoder "binary"
    else decoder
  else if bool_decide (path ∈ [esclPlatenInputCaps +:+ esclDocumentFormat;
                                esclAdfSimplexCaps +:+ esclDocumentFormat;
                                esclAdfDuplexCaps +:+ esclDocumentFormat]) then
    mkDecoder (uuid decoder) (version decoder) (platen decoder) (adf decoder)
              (duplex decoder) ({[data]} ∪ pdl decoder) (cs decoder)
  else decoder.

Fixpoint string_take (n : nat) (s : string) : string :=
  match n, s with
  | S n, String c s => String c (string_take n s)
  | _, _ => EmptyString
  end.

(** [func (b *Buffer) Truncate(n int)]: keeps the first [n] bytes; panics
    when [n] is beyond the length of the buffer. *)
Definition Truncate (path : string) (n : nat) : outcome string :=
  if n <=? String.length path then Ok (string_take n path)
  else Panic "bytes.Buffer: truncation out of range".

(** The loop of [decode].  [tokens] is what [RawToken] returns up to its
    first error (a syntax error or the end of the input), where the loop
    breaks.  [lenStack[last]] with [last = len(lenStack) - 1] panics on an
    empty stack. *)
Fixpoint decode_loop (tokens : list Token) (path : string) (lenStack : list nat)
    (decoder : esclCapsDecoder) : outcome esclCapsDecoder :=
  match tokens with
  | [] => Ok decoder
  | StartElement space local_ :: rest =>
      let lenStack := lenStack ++ [String.length path] in
      let path := path +:+ "/" +:+ space +:+ ":" +:+ local_ in
      decode_loop rest path lenStack (element decoder path)
  | EndElement _ _ :: rest =>
      let last := (Z.of_nat (length lenStack) - 1)%Z in
      if (last <? 0)%Z then Panic "index out of range [-1]"
      else
        match lenStack !! Z.to_nat last with
        | None => Panic "index out of range"
        | Some n =>
            obind (Truncate path n) (λ path,
              decode_loop rest path (take (Z.to_nat last) lenStack) decoder)
        end
  | CharData t :: rest =>
      let text := TrimSpace t in
      if 0 <? String.length text
      then decode_loop rest path lenStack (data decoder path text)
      else decode_loop rest path lenStack decoder
  | OtherToken :: rest => decode_loop rest path lenStack decoder
  end.

(** [func (decoder *esclCapsDecoder) decode(in io.Reader) error]: the
    decoder after the call and the error returned, [None] for nil. *)
Definition decode (decoder : esclCapsDecoder) (tokens : list Token)
  : outcome (esclCapsDecoder * option string) :=
  obind (decode_loop tokens EmptyString [] decoder) (λ decoder,
    Ok (decoder, None)).

(** ** DNS-SD records *)

(** Modelled from the spec: the TXT record of a DNS-SD service and its
    methods [Add] and [IfNotEmpty], whose source file is missing; the spec
    describes the record as an ordered list of key/value pairs.  [Add]
    appends a pair, [IfNotEmpty] appends it when the value is not empty. *)
Definition Txt_Add (txt : list (string * string)) (key value : string)
  : list (string * string) :=
  txt ++ [(key, value)].

Definition Txt_IfNotEmpty (txt : list (string * string)) (key value : string)
  : list (string * string) :=
  if bool_decide (value ≠ EmptyString) then Txt_Add txt key value else txt.

Record DnsSdInfo : Type := mkDnsSdInfo {
  Type_ : string;
  Port : Z;
  Txt : list (string * string)
}.

(** The field of [UsbDeviceInfo] that [EsclService] reads. *)
Record UsbDeviceInfo : Type := mkUsbDeviceInfo {
  Product : string
}.

Definition string_le (a b : string) : Prop := String.leb a b = true.

#[global] Instance string_le_dec : RelDecision string_le.
Proof. intros a b. unfold string_le. apply _. Defined.

(** [sort.Strings]: ascending byte-wise order. *)
Definition sortStrings (l : list string) : list string :=
  merge_sort string_le l.

(** [strings.Join] *)
Definition Join (l : list string) (sep : string) : string := String.concat sep l.

(** ** [EsclService] *)

(** The outcome of [c.Get(uri)] followed by [ioutil.ReadAll(resp.Body)]:
    the body is the token sequence of the bytes read, or a read error. *)
Record HttpResponse : Type := mkHttpResponse {
  StatusCode : Z;
  Status : string;
  Body : list Token + string
}.

(** The test "If we have no data, assume eSCL response was invalid". *)
Definition invalidResponse (decoder : esclCapsDecoder) : bool :=
  bool_decide (uuid decoder = EmptyString)
  || bool_decide (version decoder = EmptyString)
  || (size (cs decoder) =? 0) || (size (pdl decoder) =? 0)
  || negb (platen decoder && adf decoder).

(** The TXT record [EsclService] builds from the decoder. *)
Definition esclTxt (decoder : esclCapsDecoder) (usbinfo : UsbDeviceInfo)
  : list (string * string) :=
  let txt := [] in
  let txt := if duplex decoder then Txt_Add txt "duplex" "T"
             else Txt_Add txt "duplex" "F" in
  let txt :=
    if platen decoder && negb (adf decoder) then Txt_Add txt "is" "platen"
    else if negb (platen decoder) && adf decoder then Txt_Add txt "is" "adf"
    else if platen decoder && adf decoder then Txt_Add txt "is" "platen,adf"
    else txt in
  let txt := Txt_IfNotEmpty txt "cs" (Join (sortStrings (elements (cs decoder))) ",") in
  let txt := Txt_IfNotEmpty txt "UUID" (uuid decoder) in
  let txt := Txt_IfNotEmpty txt "pdl" (Join (sortStrings (elements (pdl decoder))) ",") in
  let txt := Txt_Add txt "ty" (Product usbinfo) in
  let txt := Txt_Add txt "rs" "eSCL" in
  let txt := Txt_IfNotEmpty txt "vers" (version decoder) in
  Txt_IfNotEmpty txt "txtvers" "1".

(** The label [ERROR]: [err = fmt.Errorf("eSCL: %s", err)], no infos. *)
Definition esclError (err : string) : list DnsSdInfo * option string :=
  ([], Some ("eSCL: " +:+ err)).

(** [func EsclService(port int, usbinfo UsbDeviceInfo, c *http.Client)
    (infos []DnsSdInfo, err error)], given what the client gets. *)
Definition EsclService (port : Z) (usbinfo : UsbDeviceInfo)
    (get : HttpResponse + string) : outcome (list DnsSdInfo * option string) :=
  match get with
  | inr err => Ok (esclError err)
  | inl resp =>
      if bool_decide (Z.quot (StatusCode resp) 100 ≠ 2%Z) then
        Ok (esclError ("HTTP status: " +:+ Status resp))
      else
        match Body resp with
        | inr err => Ok (esclError err)
        | inl xmlData =>
            (* Decode the XML *)
            obind (decode newEsclCapsDecoder xmlData) (λ '(decoder, err),
              match err with
              | Some e => Ok (esclError e)
              | None =>
                  let err :=
                    if invalidResponse decoder then Some "invalid response"
                    else None in
                  let info := mkDnsSdInfo "_uscan._tcp" port (esclTxt decoder usbinfo) in
                  Ok ([info], err)
              end)
        end
  end.

(** ** Which responses are rejected (C3) *)

(** The capabilities of a flatbed scanner without document feeder:
<<
  <scan:ScannerCapabilities>
    <pwg:Version>2.6</pwg:Version>
    <scan:UUID>0fd8f3a9-3b5c-4a7e-9c55-0c1b6c7a2d11</scan:UUID>
    <scan:Platen><scan:PlatenInputCaps>
      <scan:SettingProfiles><scan:SettingProfile>
        <scan:ColorModes><scan:ColorMode>RGB24</scan:ColorMode></scan:ColorModes>
        <scan:DocumentFormats>
          <pwg:DocumentFormat>image/jpeg</pwg:DocumentFormat>
        </scan:DocumentFormats>
      </scan:SettingProfile></scan:SettingProfiles>
    </scan:PlatenInputCaps></scan:Platen>
  </scan:ScannerCapabilities>
>> *)
Definition platenOnlyCaps : list Token :=
  [StartElement "scan" "ScannerCapabilities";
   StartElement "pwg" "Version"; CharData "2.6"; EndElement "pwg" "Version";
   StartElement "scan" "UUID";
   CharData "0fd8f3a9-3b5c-4a7e-9c55-0c1b6c7a2d11";
   EndElement "scan" "UUID";
   StartElement "scan" "Platen"; StartElement "scan" "PlatenInputCaps";
   StartElement "scan" "SettingProfiles"; StartElement "scan" "SettingProfile";
   StartElement "scan" "ColorModes"; StartElement "scan" "ColorMode";
   CharData "RGB24";
   EndElement "scan" "ColorMode"; EndElement "scan" "ColorModes";
   StartElement "scan" "DocumentFormats"; StartElement "pwg" "DocumentFormat";
   CharData "image/jpeg";
   EndElement "pwg" "DocumentFormat"; EndElement "scan" "DocumentFormats";
   EndElement "scan" "SettingProfile"; EndElement "scan" "SettingProfiles";
   EndElement "scan" "PlatenInputCaps"; EndElement "scan" "Platen";
   EndElement "scan" "ScannerCapabilities"].

Definition flatbed : UsbDeviceInfo := mkUsbDeviceInfo "ACME Scan 100".

Definition okWith (tokens : list Token) : HttpResponse + string :=
  inl (mkHttpResponse 200 "200 OK" (inl tokens)).

(** X20.  What [EsclService] answers after a successful transfer and decoding:
    the error is set exactly when [invalidResponse] holds, that is when
    the UUID, the version, the color modes or the formats are missing, or
    when Platen and Adf are not both present. *)
Lemma EsclService_error_iff port usbinfo resp tokens decoder :
  Z.quot (StatusCode resp) 100 = 2%Z → Body resp = inl tokens →
  decode newEsclCapsDecoder tokens = Ok (decoder, None) →
  ∃ infos err,
    EsclService port usbinfo (inl resp) = Ok (infos, err)
    ∧ (err ≠ None ↔
       uuid decoder = EmptyString ∨ version decoder = EmptyString
       ∨ cs decoder = ∅ ∨ pdl decoder = ∅
       ∨ ¬ (platen decoder = true ∧ adf decoder = true)).
Proof.
  intros Hst Hbody Hdec. unfold EsclService.
  rewrite bool_decide_eq_false_2 by (intros ?; done).
  rewrite Hbody, Hdec. cbn [obind]. do 2 eexists. split; [reflexivity |].
  transitivity (invalidResponse decoder = true).
  { destruct (invalidResponse decoder); split; intros H; done. }
  unfold invalidResponse.
  rewrite !orb_true_iff, !bool_decide_eq_true, !Nat.eqb_eq, !size_empty_iff,
    !leibniz_equiv_iff, negb_true_iff, andb_false_iff.
  destruct (platen decoder), (adf decoder); intuition congruence.
Qed.

(** C3 (defect).  A capabilities document with UUID, version, a color
    mode, a document format and a Platen element, but no Adf element, is
    turned down with "invalid response": the test needs Platen and Adf
    both, although the "is" field built next provides for either alone. *)
Theorem EsclService_rejects_platen_only :
  ∃ decoder infos,
    decode newEsclCapsDecoder platenOnlyCaps = Ok (decoder, None)
    ∧ uuid decoder ≠ EmptyString ∧ version decoder ≠ EmptyString
    ∧ cs decoder = {["color"]} ∧ pdl decoder = {["image/jpeg"]}
    ∧ platen decoder = true ∧ adf decoder = false
    ∧ EsclService 60000 flatbed (okWith platenOnlyCaps)
      = Ok (infos, Some "invalid response")
    ∧ (Txt <$> infos) !! 0 ≫= (λ txt, txt !! 1) = Some ("is", "platen").
Proof.
  eexists. eexists.
  split; [vm_compute; reflexivity |].
  split; [by vm_compute |]. split; [by vm_compute |].
  split; [reflexivity |]. split; [reflexivity |].
  split; [reflexivity |]. split; [reflexivity |].
  split; [vm_compute; reflexivity |]. vm_compute; reflexivity.
Qed.

(** ** Does [decode] return? (C10) *)

(** No end element without a start element still open. *)
Fixpoint well_nested (depth : nat) (tokens : list Token) : bool :=
  match tokens with
  | [] => true
  | StartElement _ _ :: rest => well_nested (S depth) rest
  | EndElement _ _ :: rest =>
      match depth with
      | 0 => false
      | S depth => well_nested depth rest
      end
  | _ :: rest => well_nested depth rest
  end.

Lemma length_string_take n s :
  n ≤ String.length s → String.length (string_take n s) = n.
Proof.
  revert s. induction n as [|n IH]; intros [|c s] Hn; simpl in *; try lia.
  rewrite IH; lia.
Qed.

Lemma length_string_app (s t : string) :
  String.length (s +:+ t) = String.length s + String.length t.
Proof. induction s as [|c s IH]; simpl; [done | by rewrite IH]. Qed.

(** The saved lengths grow along the stack and do not exceed the length
    of the path: [Truncate] is always in range. *)
Definition stack_ok (path : string) (lenStack : list nat) : Prop :=
  StronglySorted le (lenStack ++ [String.length path]).

(** On a token sequence in which every end element closes an open start
    element, the loop runs to the end of the input and [decode] returns
    nil. *)
Lemma decode_loop_well_nested tokens : ∀ path lenStack decoder,
  stack_ok path lenStack →
  well_nested (length lenStack) tokens = true →
  ∃ decoder', decode_loop tokens path lenStack decoder = Ok decoder'.
Proof.
  induction tokens as [|[space loc|space loc|t|] rest IH];
    intros path lenStack decoder Hok Hwn; cbn [decode_loop].
  - by eexists.
  - apply IH.
    + unfold stack_ok in *. apply StronglySorted_app in Hok as (Hlt & Hs & _).
      rewrite <- app_assoc. apply StronglySorted_app_2; [| done |].
      * intros x1 x2 Hx1 Hx2.
        specialize (Hlt x1 (String.length path) Hx1 ltac:(by apply list_elem_of_singleton)).
        apply elem_of_cons in Hx2 as [->|Hx2]; [done |].
        apply list_elem_of_singleton in Hx2 as ->.
        rewrite !length_string_app. lia.
      * repeat constructor. rewrite !length_string_app. lia.
    + rewrite length_app. simpl. by rewrite Nat.add_1_r.
  - cbn [well_nested] in Hwn.
    destruct (length lenStack) as [|d] eqn:Hlen; [done |].
    replace (Z.of_nat (S d) - 1)%Z with (Z.of_nat d) by lia.
    destruct (Z.ltb_spec (Z.of_nat d) 0); [lia |]. rewrite Nat2Z.id.
    destruct (lookup_lt_is_Some_2 lenStack d ltac:(lia)) as [n Hn].
    rewrite Hn.
    assert (lenStack = take d lenStack ++ [n]) as Hsplit.
    { rewrite <- (take_S_r _ _ _ Hn), <- Hlen. by rewrite firstn_all. }
    unfold stack_ok in Hok.
    assert (n ≤ String.length path) as Hle.
    { apply (StronglySorted_app_1_elem_of _ _ _ _ _ Hok).
      - by apply list_elem_of_lookup_2 with d.
      - by apply list_elem_of_singleton. }
    unfold Truncate. destruct (Nat.leb_spec n (String.length path)); [| lia].
    cbn [obind]. apply IH.
    + unfold stack_ok. rewrite length_string_take by done.
      rewrite <- Hsplit. by apply StronglySorted_app_1_l in Hok.
    + rewrite length_take. rewrite Hlen. by replace (d `min` S d) with d by lia.
  - cbn [well_nested] in Hwn. destruct (0 <? _); by apply IH.
  - cbn [well_nested] in Hwn. by apply IH.
Qed.

(** X21.  [decode] returns nil on every token sequence in which each end
    element closes an element that is open, whatever else the document
    holds. *)
Lemma decode_well_nested decoder tokens :
  well_nested 0 tokens = true →
  ∃ decoder', decode decoder tokens = Ok (decoder', None).
Proof.
  intros Hwn. unfold decode.
  destruct (decode_loop_well_nested tokens EmptyString [] decoder) as [d ->];
    [repeat constructor | done |].
  by eexists.
Qed.

(** C10 (defect).  An end element that closes nothing, as in the input
    [</a>], makes the loop read [lenStack[-1]]: [decode] panics instead of
    returning nil.  The same happens after well-formed elements, as in
    [<a></a></a>]. *)
Theorem decode_panics_on_stray_end_element :
  decode newEsclCapsDecoder [EndElement EmptyString "a"]
    = Panic "index out of range [-1]"
  ∧ decode newEsclCapsDecoder
      [StartElement EmptyString "a"; EndElement EmptyString "a";
       EndElement EmptyString "a"]
    = Panic "index out of range [-1]"
  ∧ EsclService 60000 flatbed (okWith [EndElement EmptyString "a"])
    = Panic "index out of range [-1]".
Proof. split; [reflexivity | split; reflexivity]. Qed.

(** ** Further properties of the capabilities decoder *)

(** Token sequences in which every element is closed: text, other
    tokens, an element around such a sequence, and their concatenations.
    The names of the end elements are not looked at. *)
Inductive balanced : list Token → Prop :=
| balanced_nil : balanced []
| balanced_text t : balanced [CharData t]
| balanced_other : balanced [OtherToken]
| balanced_element space loc space' loc' inner :
    balanced inner →
    balanced (StartElement space loc :: inner ++ [EndElement space' loc'])
| balanced_app tokens1 tokens2 :
    balanced tokens1 → balanced tokens2 → balanced (tokens1 ++ tokens2).

Lemma string_take_app (s t : string) : string_take (String.length s) (s +:+ t) = s.
Proof.
  induction s as [|c s IH]; [by destruct t |].
  change (String c s +:+ t) with (String c (s +:+ t)).
  cbn [String.length string_take]. by rewrite IH.
Qed.

(** X22.  The path is restored after an element: once a balanced run of
    tokens has been read, the decoder goes on with the path and the stack
    it had before the run, whatever follows.  What an element contains
    does not change the path under which the tokens after it are read. *)
Theorem decode_loop_balanced (tokens : list Token) :
  balanced tokens →
  ∀ path lenStack decoder, ∃ decoder', ∀ rest,
    decode_loop (tokens ++ rest) path lenStack decoder
    = decode_loop rest path lenStack decoder'.
Proof.
  induction 1 as [|t| |space loc space' loc' inner _ IH|tokens1 tokens2 _ IH1 _ IH2];
    intros path lenStack decoder.
  - by exists decoder.
  - exists (if 0 <? String.length (TrimSpace t)
            then data decoder path (TrimSpace t) else decoder).
    intros rest. cbn [app decode_loop]. by destruct (0 <? _).
  - by exists decoder.
  - set (path' := path +:+ "/" +:+ space +:+ ":" +:+ loc).
    destruct (IH path' (lenStack ++ [String.length path]) (element decoder path'))
      as [decoder' Hinner].
    exists decoder'. intros rest.
    rewrite <- app_comm_cons, <- app_assoc. cbn [decode_loop]. fold path'.
    rewrite Hinner. cbn [app decode_loop].
    rewrite length_app. cbn [length].
    replace (Z.of_nat (length lenStack + 1) - 1)%Z with (Z.of_nat (length lenStack))
      by lia.
    destruct (Z.ltb_spec (Z.of_nat (length lenStack)) 0); [lia |].
    rewrite Nat2Z.id, lookup_app_r by lia. rewrite Nat.sub_diag. cbn [lookup list_lookup].
    unfold Truncate.
    assert (String.length path ≤ String.length path') as Hle
      by (unfold path'; rewrite length_string_app; lia).
    destruct (Nat.leb_spec (String.length path) (String.length path')); [| lia].
    cbn [obind]. unfold path'. rewrite string_take_app.
    by rewrite take_app_length.
  - destruct (IH1 path lenStack decoder) as [decoder1 H1].
    destruct (IH2 path lenStack decoder1) as [decoder2 H2].
    exists decoder2. intros rest. by rewrite <- app_assoc, H1, H2.
Qed.

(** The color modes a TXT record can name. *)
Definition colorKeywords : gset string := {["color"; "grayscale"; "binary"]}.

Lemma element_keeps decoder path :
  cs (element decoder path) = cs decoder
  ∧ uuid (element decoder path) = uuid decoder
  ∧ (platen decoder = true → platen (element decoder path) = true)
  ∧ (adf decoder = true → adf (element decoder path) = true).
Proof. unfold element. by repeat case_bool_decide. Qed.

Lemma data_keeps decoder path text :
  (cs decoder ⊆ colorKeywords → cs (data decoder path text) ⊆ colorKeywords)
  ∧ platen (data decoder path text) = platen decoder
  ∧ adf (data decoder path text) = adf decoder.
Proof.
  unfold data, withCs.
  repeat (case_bool_decide || case_match); cbn [cs platen adf];
    (split; [| done]); intros Hcs; try done;
    (intros x [->%elem_of_singleton|Hx]%elem_of_union; [| by apply Hcs]);
    unfold colorKeywords; rewrite !elem_of_union, !elem_of_singleton; auto.
Qed.

(** X23.  Two invariants of decoding.  The color modes collected are
    among "color", "grayscale" and "binary", whatever the document says.
    And the Platen and Adf flags are only ever raised: no token read later
    takes back a source seen earlier. *)
Theorem decode_loop_invariants (tokens : list Token) :
  ∀ path lenStack decoder decoder',
    decode_loop tokens path lenStack decoder = Ok decoder' →
    (cs decoder ⊆ colorKeywords → cs decoder' ⊆ colorKeywords)
    ∧ (platen decoder = true → platen decoder' = true)
    ∧ (adf decoder = true → adf decoder' = true).
Proof.
  induction tokens as [|[space loc|space loc|t|] rest IH];
    intros path lenStack decoder decoder'; cbn [decode_loop].
  - by intros [= ->].
  - intros Hd. apply IH in Hd as (Hcs & Hp & Ha).
    destruct (element_keeps decoder
                (path +:+ "/" +:+ space +:+ ":" +:+ loc)) as (Ec & _ & Ep & Ea).
    rewrite Ec in Hcs. split; [done |]. split; intros ?; auto.
  - destruct (_ <? 0)%Z; [done |].
    destruct (lenStack !! _); [| done].
    destruct (Truncate path n) as [path'|]; [| done]. cbn [obind]. apply IH.
  - destruct (0 <? _).
    + intros Hd. apply IH in Hd as (Hcs & Hp & Ha).
      destruct (data_keeps decoder path (TrimSpace t)) as (Ec & Ep & Ea).
      rewrite Ep in Hp. rewrite Ea in Ha. split; [| done]. auto.
    + apply IH.
  - apply IH.
Qed.

End decoder.

(** ** The properties above on a flatbed scanner *)

(** A case table that leaves every rune above U+007F as it is.  The
    documents below are written in ASCII: no rune of them is looked up. *)
Definition asciiOnly : Z → Z := λ r, r.

(** A case table that knows the Kelvin sign, U+212A, whose lower case is
    the letter k.  The color mode is lowered rune by rune before it is
    compared. *)
Definition kelvinTable : Z → Z := λ r, if (r =? 8490)%Z then 107%Z else r.

Example data_ToLower :
  cs (data kelvinTable newEsclCapsDecoder (esclPlatenInputCaps +:+ esclColorMode)
        ("Blac" +:+ kelvin +:+ "AndWhite1"))
  = {["binary"]}.
Proof. by vm_compute. Qed.

Lemma decode_well_nested_witness :
  well_nested 0 platenOnlyCaps = true
  ∧ ∃ decoder', decode asciiOnly newEsclCapsDecoder platenOnlyCaps = Ok (decoder', None).
Proof.
  assert (well_nested 0 platenOnlyCaps = true) as H by reflexivity.
  split; [exact H |].
  exact (decode_well_nested asciiOnly newEsclCapsDecoder platenOnlyCaps H).
Defined.

Lemma EsclService_error_iff_witness :
  ∃ decoder infos err,
    decode asciiOnly newEsclCapsDecoder platenOnlyCaps = Ok (decoder, None)
    ∧ EsclService asciiOnly 60000 flatbed
        (inl (mkHttpResponse 200 "200 OK" (inl platenOnlyCaps)))
      = Ok (infos, err)
    ∧ (err ≠ None ↔
       uuid decoder = EmptyString ∨ version decoder = EmptyString
       ∨ cs decoder = ∅ ∨ pdl decoder = ∅
       ∨ ¬ (platen decoder = true ∧ adf decoder = true)).
Proof.
  assert (∃ decoder,
            decode asciiOnly newEsclCapsDecoder platenOnlyCaps = Ok (decoder, None))
    as [decoder Hdec] by (eexists; vm_compute; reflexivity).
  destruct (EsclService_error_iff asciiOnly 60000 flatbed
              (mkHttpResponse 200 "200 OK" (inl platenOnlyCaps))
              platenOnlyCaps decoder eq_refl eq_refl Hdec)
    as (infos & err & Hs & Hiff).
  exists decoder, infos, err. split; [exact Hdec |]. split; [exact Hs | exact Hiff].
Defined.

Lemma decode_loop_balanced_witness :
  balanced [StartElement "scan" "Platen"; CharData "x"; EndElement "scan" "Platen"]
  ∧ ∃ decoder', ∀ rest,
      decode_loop asciiOnly
                  ([StartElement "scan" "Platen"; CharData "x";
                    EndElement "scan" "Platen"] ++ rest)
                  "/scan:ScannerCapabilities" [0] newEsclCapsDecoder
      = decode_loop asciiOnly rest "/scan:ScannerCapabilities" [0] decoder'.
Proof.
  assert (balanced [StartElement "scan" "Platen"; CharData "x";
                    EndElement "scan" "Platen"]) as Hb
    by apply (balanced_element "scan" "Platen" "scan" "Platen" [CharData "x"]),
             balanced_text.
  split; [exact Hb |].
  exact (decode_loop_balanced asciiOnly _ Hb "/scan:ScannerCapabilities" [0]
           newEsclCapsDecoder).
Defined.

Lemma decode_loop_invariants_witness :
  ∃ decoder',
    decode_loop asciiOnly platenOnlyCaps EmptyString [] newEsclCapsDecoder = Ok decoder'
    ∧ cs decoder' ⊆ colorKeywords.
Proof.
  assert (∃ decoder',
            decode_loop asciiOnly platenOnlyCaps EmptyString [] newEsclCapsDecoder
            = Ok decoder')
    as [decoder' Hd] by (eexists; vm_compute; reflexivity).
  exists decoder'. split; [exact Hd |].
  apply (decode_loop_invariants asciiOnly platenOnlyCaps EmptyString []
           newEsclCapsDecoder decoder' Hd).
  apply empty_subseteq.
Defined.

End Escl.

(** * Module [Pnp]: map keys of addresses and the PnP manager (usbcommon.go) *)

Module Pnp.
Import Usb.

(** [func (addr UsbAddr) MapKey() string]:
    [fmt.Sprintf("%d:%d", addr.Bus, addr.Address)].  The verb [%d] prints
    an integer in decimal, with a minus sign when negative, as [pretty]
    does. *)
Definition MapKey (addr : UsbAddr) : string :=
  pretty (Bus addr) +:+ ":" +:+ pretty (Address addr).

Fixpoint has_colon (s : string) : bool :=
  match s with
  | EmptyString => false
  | String c s => Ascii.eqb c ":"%char || has_colon s
  end.

Lemma pretty_N_go_no_colon x s :
  has_colon s = false → has_colon (pretty_N_go x s) = false.
Proof.
  revert s. induction (N.lt_wf_0 x) as [x _ IH]; intros s Hs.
  assert (x = 0 ∨ 0 < x)%N as [->|Hx] by lia.
  - by rewrite pretty_N_go_0.
  - rewrite pretty_N_go_step by done. apply IH; [by apply N.div_lt |].
    cbn [has_colon]. rewrite Hs, orb_false_r.
    unfold pretty_N_char. by repeat case_match.
Qed.

Lemma pretty_N_no_colon (x : N) : has_colon (pretty x) = false.
Proof.
  unfold pretty, pretty_N. case_decide; [done |].
  by apply pretty_N_go_no_colon.
Qed.

Lemma pretty_Z_no_colon (z : Z) : has_colon (pretty z) = false.
Proof.
  destruct z as [|p|p]; [done | apply pretty_N_no_colon |].
  unfold pretty, pretty_Z. cbn [String.append has_colon].
  apply (pretty_N_no_colon (N.pos p)).
Qed.

Lemma append_colon_inj s1 s2 t1 t2 :
  has_colon s1 = false → has_colon s2 = false →
  s1 +:+ ":" +:+ t1 = s2 +:+ ":" +:+ t2 → s1 = s2 ∧ t1 = t2.
Proof.
  revert s2. induction s1 as [|c s1 IH]; intros [|c' s2] H1 H2 Heq;
    cbn [String.append has_colon] in *.
  - by inversion Heq.
  - inversion Heq; subst. by rewrite Ascii.eqb_refl in H2.
  - inversion Heq; subst. by rewrite Ascii.eqb_refl in H1.
  - apply orb_false_iff in H1 as [_ H1]. apply orb_false_iff in H2 as [_ H2].
    inversion Heq; subst. destruct (IH s2 H1 H2) as [-> ->]; done.
Qed.

(** X24.  [MapKey] tells addresses apart: two addresses with the same key
    are the same address. *)
Theorem MapKey_inj (a b : UsbAddr) : MapKey a = MapKey b → a = b.
Proof.
  unfold MapKey. intros Heq.
  apply append_colon_inj in Heq as [Hb Ha]; [| apply pretty_Z_no_colon..].
  apply (inj pretty) in Hb. apply (inj pretty) in Ha.
  destruct a, b; simpl in *. by subst.
Qed.

Lemma MapKey_inj_witness :
  MapKey (mkUsbAddr 1 12) = "1:12" ∧ MapKey (mkUsbAddr 11 2) = "11:2"
  ∧ mkUsbAddr 3 4 = mkUsbAddr 3 4.
Proof.
  split; [reflexivity |]. split; [reflexivity |].
  exact (MapKey_inj (mkUsbAddr 3 4) (mkUsbAddr 3 4) eq_refl).
Defined.

(** ** The PnP manager *)

Section pnp.

(** [*Device]: the object [NewDevice] returns. *)
Variable Device : Type.

(** The variables of [PnPStart], and the devices it has closed so far, in
    order. *)
Record PnPState : Type := mkPnPState {
  devices : list UsbAddr;
  devByAddr : gmap string Device;
  closed : list Device
}.

(** [devices := UsbAddrList{}; devByAddr := make(map[string]*Device)] *)
Definition initialState : PnPState := mkPnPState [] ∅ [].

(** One turn of the loop over [added]; [NewDevice] returns a device or an
    error. *)
Definition addDevice (NewDevice : UsbAddr → Device + string)
    (devByAddr : gmap string Device) (addr : UsbAddr) : gmap string Device :=
  match NewDevice addr with
  | inl dev => <[MapKey addr := dev]> devByAddr
  | inr _ => devByAddr
  end.

(** One turn of the loop over [removed]: the device found under the key
    is closed and its entry deleted. *)
Definition removeDevice (st : gmap string Device * list Device)
    (addr : UsbAddr) : gmap string Device * list Device :=
  match st.1 !! MapKey addr with
  | Some dev => (delete (MapKey addr) st.1, st.2 ++ [dev])
  | None => st
  end.

(** One iteration of the loop of [func PnPStart()], up to the wait on
    [UsbHotPlugChan]: [newdevices] is what [BuildUsbAddrList()] returned,
    [NewDevice] what bringing up a device does during this iteration. *)
Definition pnp_iteration (NewDevice : UsbAddr → Device + string)
    (newdevices : list UsbAddr) (st : PnPState) : PnPState :=
  let '(added, removed) := Diff (devices st) newdevices in
  let m := foldl (addDevice NewDevice) (devByAddr st) added in
  let '(m, cl) := foldl removeDevice (m, closed st) removed in
  mkPnPState newdevices m cl.

(** The loop run over a sequence of bus snapshots. *)
Definition pnp_run (events : list ((UsbAddr → Device + string) * list UsbAddr))
    (st : PnPState) : PnPState :=
  foldl (λ st ev, pnp_iteration ev.1 ev.2 st) st events.

Lemma lookup_foldl_addDevice_other NewDevice added : ∀ m k,
  (∀ a, a ∈ added → MapKey a ≠ k) →
  foldl (addDevice NewDevice) m added !! k = m !! k.
Proof.
  induction added as [|b added IH]; intros m k Hk; cbn [foldl]; [done |].
  rewrite IH by (intros a Ha; apply Hk; by right).
  unfold addDevice. destruct (NewDevice b); [| done].
  apply lookup_insert_ne. apply Hk. by left.
Qed.

Lemma lookup_foldl_addDevice NewDevice added : ∀ m a,
  NoDup added → a ∈ added →
  foldl (addDevice NewDevice) m added !! MapKey a =
  match NewDevice a with
  | inl dev => Some dev
  | inr _ => m !! MapKey a
  end.
Proof.
  induction added as [|b added IH]; intros m a Hnd Hin; [by apply elem_of_nil in Hin |].
  apply NoDup_cons in Hnd as [Hb Hnd]. cbn [foldl].
  apply elem_of_cons in Hin as [->|Hin].
  - rewrite lookup_foldl_addDevice_other.
    + unfold addDevice. destruct (NewDevice b); [apply lookup_insert_eq | done].
    + intros a Ha Heq. apply MapKey_inj in Heq. by subst.
  - rewrite IH by done. destruct (NewDevice a); [done |].
    unfold addDevice. destruct (NewDevice b); [| done].
    apply lookup_insert_ne. intros Heq. apply MapKey_inj in Heq. by subst.
Qed.

Lemma lookup_foldl_removeDevice removed : ∀ m cl k,
  (foldl removeDevice (m, cl) removed).1 !! k =
  if decide (k ∈ MapKey <$> removed) then None else m !! k.
Proof.
  induction removed as [|a removed IH]; intros m cl k; cbn [foldl].
  - rewrite decide_False; [done | apply not_elem_of_nil].
  - unfold removeDevice at 2. cbn [fst snd]. rewrite fmap_cons.
    destruct (m !! MapKey a) as [dev|] eqn:Hm; rewrite IH.
    + destruct (decide (k ∈ MapKey <$> removed)) as [Hin|Hnin].
      * by rewrite decide_True by (by right).
      * destruct (decide (k = MapKey a)) as [->|Hne].
        -- rewrite decide_True by (by left). apply lookup_delete_eq.
        -- rewrite decide_False by (intros [?|?]%elem_of_cons; done).
           by apply lookup_delete_ne.
    + destruct (decide (k ∈ MapKey <$> removed)) as [Hin|Hnin].
      * by rewrite decide_True by (by right).
      * destruct (decide (k = MapKey a)) as [->|Hne].
        -- by rewrite decide_True by (by left).
        -- by rewrite decide_False by (intros [?|?]%elem_of_cons; done).
Qed.

Lemma closed_foldl_removeDevice removed : ∀ m cl,
  NoDup removed →
  (foldl removeDevice (m, cl) removed).2 =
  cl ++ omap (λ a, m !! MapKey a) removed.
Proof.
  induction removed as [|a removed IH]; intros m cl Hnd; cbn [foldl omap list_omap].
  - by rewrite app_nil_r.
  - apply NoDup_cons in Hnd as [Ha Hnd].
    assert (∀ m' : gmap string Device,
              (∀ b, b ∈ removed → m' !! MapKey b = m !! MapKey b) →
            omap (λ b, m' !! MapKey b) removed = omap (λ b, m !! MapKey b) removed)
      as Hext.
    { intros m'. clear. induction removed as [|b removed IH']; intros H; [done |].
      cbn [omap list_omap]. rewrite (H b) by (by left).
      rewrite IH'; [done |]. intros c Hc. apply H. by right. }
    unfold removeDevice at 2. cbn [fst snd].
    destruct (m !! MapKey a) as [dev|] eqn:Hm.
    + rewrite IH by done. rewrite <- app_assoc. cbn [app]. f_equal. f_equal.
      apply Hext. intros b Hb. apply lookup_delete_ne.
      intros Heq. apply MapKey_inj in Heq. by subst.
    + by rewrite IH.
Qed.

Lemma omap_lookup_ext (m m' : gmap string Device) (l : list UsbAddr) :
  (∀ b, b ∈ l → m' !! MapKey b = m !! MapKey b) →
  omap (λ b, m' !! MapKey b) l = omap (λ b, m !! MapKey b) l.
Proof.
  induction l as [|b l IH]; intros H; [done |].
  cbn [omap list_omap]. rewrite (H b) by (by left).
  rewrite IH; [done |]. intros c Hc. apply H. by right.
Qed.

(** The map only holds devices that are on the bus. *)
Definition within_bus (st : PnPState) : Prop :=
  ∀ k, is_Some (devByAddr st !! k) → ∃ a, a ∈ devices st ∧ k = MapKey a.

Lemma pnp_iteration_unfold NewDevice newdevices st :
  sorted (devices st) → sorted newdevices →
  devices (pnp_iteration NewDevice newdevices st) = newdevices
  ∧ (∀ k, devByAddr (pnp_iteration NewDevice newdevices st) !! k =
       if decide (k ∈ MapKey <$> filter (λ a, a ∉ newdevices) (devices st))
       then None
       else foldl (addDevice NewDevice) (devByAddr st)
                  (filter (λ a, a ∉ devices st) newdevices) !! k)
  ∧ closed (pnp_iteration NewDevice newdevices st) =
    closed st ++ omap (λ a, foldl (addDevice NewDevice) (devByAddr st)
                              (filter (λ a, a ∉ devices st) newdevices)
                            !! MapKey a)
                      (filter (λ a, a ∉ newdevices) (devices st)).
Proof.
  intros Hold Hnew. unfold pnp_iteration. rewrite Diff_filter by done.
  set (m := foldl (addDevice NewDevice) (devByAddr st) _).
  set (removed := filter (λ a, a ∉ newdevices) (devices st)).
  pose proof (lookup_foldl_removeDevice removed m (closed st)) as Hl.
  pose proof (closed_foldl_removeDevice removed m (closed st)) as Hc.
  destruct (foldl removeDevice (m, closed st) removed) as [m' cl].
  cbn [fst snd devices devByAddr closed] in *.
  split; [done |]. split; [done |].
  apply Hc. by apply sorted_NoDup, sorted_filter.
Qed.

Lemma pnp_iteration_within_bus NewDevice newdevices st :
  sorted (devices st) → sorted newdevices → within_bus st →
  within_bus (pnp_iteration NewDevice newdevices st).
Proof.
  intros Hold Hnew Hinv k [dev Hk].
  destruct (pnp_iteration_unfold NewDevice newdevices st Hold Hnew)
    as (Hdev & Hmap & _).
  rewrite Hdev. rewrite Hmap in Hk.
  case_decide as Hrem; [done |].
  destruct (decide (k ∈ MapKey <$> filter (λ a, a ∉ devices st) newdevices))
    as [Hadd|Hadd].
  - apply list_elem_of_fmap in Hadd as (a & -> & [_ Ha]%list_elem_of_filter).
    by exists a.
  - rewrite lookup_foldl_addDevice_other in Hk.
    + destruct (Hinv k) as (a & Ha & ->); [by eexists |].
      exists a. split; [| done].
      destruct (decide (a ∈ newdevices)) as [|Hn]; [done |].
      destruct Hrem. apply list_elem_of_fmap. exists a. split; [done |].
      by apply list_elem_of_filter.
    + intros a Ha <-. apply Hadd. by apply list_elem_of_fmap_2.
Qed.

(** X25.  Whatever the bus snapshots and whatever bring-up does, the map of
    the PnP manager only ever holds devices whose address is in the latest
    snapshot: a device that has left the bus is no longer in the map. *)
Theorem pnp_run_within_bus
    (events : list ((UsbAddr → Device + string) * list UsbAddr)) :
  Forall (λ ev, sorted ev.2) events →
  within_bus (pnp_run events initialState).
Proof.
  intros Hev. unfold pnp_run.
  assert (sorted (devices initialState) ∧ within_bus initialState) as Hinit.
  { split; [constructor |]. intros k [dev Hk]. cbn [initialState devByAddr] in Hk.
    by rewrite lookup_empty in Hk. }
  revert Hinit. generalize initialState.
  induction Hev as [|[NewDevice newdevices] events Hs Hev IH];
    intros st [Hsorted Hinv]; cbn [foldl fst snd]; [done |].
  apply IH. cbn [snd] in Hs. split.
  - by rewrite (proj1 (pnp_iteration_unfold NewDevice newdevices st Hsorted Hs)).
  - by apply pnp_iteration_within_bus.
Qed.

(** X26.  After an iteration, a device of the new snapshot that was
    already on the bus keeps its entry, or keeps having none: bring-up is
    not tried again.  A device that has just arrived has an entry exactly
    when its bring-up succeeded. *)
Theorem pnp_iteration_lookup NewDevice newdevices st (a : UsbAddr) :
  sorted (devices st) → sorted newdevices → within_bus st →
  a ∈ newdevices →
  devByAddr (pnp_iteration NewDevice newdevices st) !! MapKey a =
  if decide (a ∈ devices st) then devByAddr st !! MapKey a
  else match NewDevice a with
       | inl dev => Some dev
       | inr _ => None
       end.
Proof.
  intros Hold Hnew Hinv Ha.
  destruct (pnp_iteration_unfold NewDevice newdevices st Hold Hnew)
    as (_ & Hmap & _).
  rewrite Hmap. rewrite decide_False.
  2:{ intros (b & Heq & [Hb _]%list_elem_of_filter)%list_elem_of_fmap.
      apply MapKey_inj in Heq. by subst. }
  case_decide as Hin.
  - apply lookup_foldl_addDevice_other.
    intros b [Hb _]%list_elem_of_filter Heq.
    apply MapKey_inj in Heq. by subst.
  - rewrite lookup_foldl_addDevice.
    + destruct (NewDevice a); [done |].
      destruct (devByAddr st !! MapKey a) as [dev|] eqn:Hk; [| done].
      destruct (Hinv (MapKey a)) as (b & Hb & Heq); [by eexists |].
      apply MapKey_inj in Heq. by subst.
    + by apply sorted_NoDup, sorted_filter.
    + by apply list_elem_of_filter.
Qed.

(** X27.  An iteration closes, in ascending order of address, the devices
    it holds for the addresses that left the bus, each once, and no other
    device. *)
Theorem pnp_iteration_closed NewDevice newdevices st :
  sorted (devices st) → sorted newdevices →
  closed (pnp_iteration NewDevice newdevices st) =
  closed st ++ omap (λ a, devByAddr st !! MapKey a)
                    (filter (λ a, a ∉ newdevices) (devices st)).
Proof.
  intros Hold Hnew.
  destruct (pnp_iteration_unfold NewDevice newdevices st Hold Hnew)
    as (_ & _ & ->).
  f_equal. apply omap_lookup_ext.
  intros b [_ Hb]%list_elem_of_filter.
  apply lookup_foldl_addDevice_other.
  intros c [Hc _]%list_elem_of_filter Heq.
  apply MapKey_inj in Heq. by subst.
Qed.

End pnp.

(** ** The PnP manager on sample snapshots *)

(** A bring-up that yields the key of the address as the device, and
    fails on bus 9. *)
Definition sampleNewDevice (addr : UsbAddr) : string + string :=
  if (Bus addr =? 9)%Z then inr "no IPP-over-USB interface" else inl (MapKey addr).

Definition snapshot1 : list UsbAddr := [mkUsbAddr 1 2; mkUsbAddr 1 5].
Definition snapshot2 : list UsbAddr := [mkUsbAddr 1 5; mkUsbAddr 2 1; mkUsbAddr 9 1].

Lemma snapshots_sorted : sorted snapshot1 ∧ sorted snapshot2.
Proof. split; vm_compute; repeat constructor. Qed.

Lemma initialState_within_bus : within_bus string (initialState string).
Proof. intros k [dev Hk]. cbn in Hk. by rewrite lookup_empty in Hk. Qed.

Lemma pnp_run_within_bus_witness :
  let events := [(sampleNewDevice, snapshot1); (sampleNewDevice, snapshot2)] in
  Forall (λ ev, sorted ev.2) events
  ∧ within_bus string (pnp_run string events (initialState string)).
Proof.
  intros events.
  assert (Forall (λ ev, sorted ev.2) events) as Hev.
  { repeat constructor; cbn [snd]; apply snapshots_sorted. }
  split; [exact Hev | exact (pnp_run_within_bus string events Hev)].
Defined.

Lemma pnp_iteration_lookup_witness :
  let st := pnp_iteration string sampleNewDevice snapshot1 (initialState string) in
  sorted (devices string st) ∧ sorted snapshot2 ∧ within_bus string st
  ∧ mkUsbAddr 1 5 ∈ snapshot2
  ∧ devByAddr string (pnp_iteration string sampleNewDevice snapshot2 st)
      !! MapKey (mkUsbAddr 1 5)
    = if decide (mkUsbAddr 1 5 ∈ devices string st)
      then devByAddr string st !! MapKey (mkUsbAddr 1 5)
      else match sampleNewDevice (mkUsbAddr 1 5) with
           | inl dev => Some dev
           | inr _ => None
           end.
Proof.
  intros st.
  assert (sorted (devices string st)) as H1 by apply snapshots_sorted.
  assert (sorted snapshot2) as H2 by apply snapshots_sorted.
  assert (within_bus string st) as H3.
  { apply pnp_iteration_within_bus;
      [constructor | apply snapshots_sorted | apply initialState_within_bus]. }
  assert (mkUsbAddr 1 5 ∈ snapshot2) as H4 by (by left).
  split; [exact H1 |]. split; [exact H2 |]. split; [exact H3 |].
  split; [exact H4 |].
  exact (pnp_iteration_lookup string sampleNewDevice snapshot2 st
           (mkUsbAddr 1 5) H1 H2 H3 H4).
Defined.

Lemma pnp_iteration_closed_witness :
  let st := pnp_iteration string sampleNewDevice snapshot1 (initialState string) in
  sorted (devices string st) ∧ sorted snapshot2
  ∧ closed string (pnp_iteration string sampleNewDevice snapshot2 st)
    = closed string st
      ++ omap (λ a, devByAddr string st !! MapKey a)
              (filter (λ a, a ∉ snapshot2) (devices string st)).
Proof.
  intros st.
  assert (sorted (devices string st)) as H1 by apply snapshots_sorted.
  assert (sorted snapshot2) as H2 by apply snapshots_sorted.
  split; [exact H1 |]. split; [exact H2 |].
  exact (pnp_iteration_closed string sampleNewDevice snapshot2 st H1 H2).
Defined.

Example pnp_run_example :
  let st := pnp_run string
              [(sampleNewDevice, snapshot1); (sampleNewDevice, snapshot2)]
              (initialState string) in
  devices string st = snapshot2
  ∧ closed string st = ["1:2"]
  ∧ devByAddr string st !! "1:5" = Some "1:5"
  ∧ devByAddr string st !! "2:1" = Some "2:1"
  ∧ devByAddr string st !! "9:1" = None
  ∧ devByAddr string st !! "1:2" = None.
Proof. vm_compute. repeat split. Qed.

End Pnp.

(** * Module [Ipp0]: ipp.go, the earlier revision of the IPP decoder,
      whose lookups take several names for fallback *)

Module Ipp0.
Import Ipp.

(** [func (attrs ippAttrs) getAttr(t goipp.Type, names ...string) []goipp.Value]:
    the values of the first name that is present with a first value of
    type [t]; nil when there is none. *)
Fixpoint getAttr (attrs : ippAttrs) (t : Type_) (names : list string)
  : outcome (list Value) :=
  match names with
  | [] => Ok []
  | name :: names =>
      match attrs !! name with
      | Some [] => Panic "index out of range [0] with length 0"
      | Some ((tag0, v0) :: rest) =>
          if decide (TypeOf v0 = t) then Ok (snd <$> ((tag0, v0) :: rest))
          else getAttr attrs t names
      | None => getAttr attrs t names
      end
  end.

(** [func (attrs ippAttrs) getStrings(names ...string) []string]: the
    slice is made with [make], so it is never nil. *)
Definition getStrings (attrs : ippAttrs) (names : list string)
  : outcome (list string) :=
  obind (getAttr attrs TypeString names) assertStrings.

(** [func (attrs ippAttrs) getString(names ...string) string]: the test
    [strings == nil] never holds, and [strings[0]] panics on the empty
    slice. *)
Definition getString (attrs : ippAttrs) (names : list string) : outcome string :=
  obind (getStrings attrs names) (λ strs,
    match strs with
    | [] => Panic "index out of range [0] with length 0"
    | s :: _ => Ok s
    end).

(** [func (attrs ippAttrs) getBool(names ...string) string] *)
Definition getBool (attrs : ippAttrs) (names : list string) : outcome string :=
  obind (getAttr attrs TypeBoolean names) (λ vals,
    match vals with
    | [] => Ok EmptyString
    | Boolean true :: _ => Ok "T"
    | Boolean false :: _ => Ok "F"
    | _ :: _ => Panic "interface conversion: goipp.Value is not goipp.Boolean"
    end).

(** The statement of [Decode] under the comment "Obtain dnssd_name": the
    value it leaves in [dnssd_name]. *)
Definition Decode_dnssd_name (attrs : ippAttrs) : outcome string :=
  getString attrs ["printer-dns-sd-name"; "printer-info"; "printer-make-and-model"].

(** [DnsSdInfo], over the type of its TXT record. *)
Record DnsSdInfo (Txt : Type) : Type := mkDnsSdInfo {
  InfoType : string;
  InfoPort : Z;
  InfoTxt : Txt
}.
Arguments mkDnsSdInfo {Txt} _ _ _.
Arguments InfoTxt {Txt} _.

Section decoder.

(** The TXT record [info.Txt], empty at first, and its methods [Add],
    [AddNotEmpty] and [JoinNotEmpty]: their source file is not at hand, and
    they are taken as functions that return. *)
Variable Txt : Type.
Variable Txt_zero : Txt.
Variable Txt_Add : Txt → string → string → Txt.
Variable Txt_AddNotEmpty : Txt → string → string → Txt.
Variable Txt_JoinNotEmpty : Txt → string → list string → Txt.

(** [func (attrs ippAttrs) Decode() (dnssd_name string, info DnsSdInfo)].
    The loop over the fields of the device id is the one of [Ipp.decode],
    [parseDeviceId]. *)
Definition Decode (attrs : ippAttrs) : outcome (string * DnsSdInfo Txt) :=
  (* Obtain dnssd_name *)
  obind (Decode_dnssd_name attrs) (λ dnssd_name,
  (* Obtain and parse IEEE 1284 device ID *)
  obind (getString attrs ["printer-device-id"]) (λ id,
  let devid := parseDeviceId id in
  obind (getString attrs ["printer-location"]) (λ v,
  let txt := Txt_Add Txt_zero "note" v in
  obind (getStrings attrs ["document-format-supported"]) (λ v,
  let txt := Txt_JoinNotEmpty txt "pdl" v in
  let txt := Txt_Add txt "rp" "ipp/print" in
  let txt := Txt_AddNotEmpty txt "URF" (devidGet devid "URF") in
  obind (getString attrs ["printer-uuid"]) (λ v,
  let txt := Txt_AddNotEmpty txt "UUID" (GoStrings.TrimPrefix v "urn:uuid:") in
  let txt := Txt_Add txt "txtvers" "1" in
  obind (getString attrs ["printer-make-and-model"]) (λ v,
  let txt := Txt_AddNotEmpty txt "ty" v in
  obind (getBool attrs ["color-supported"]) (λ v,
  let txt := Txt_AddNotEmpty txt "Color" v in
  Ok (dnssd_name, mkDnsSdInfo "_ipp._tcp" 0 txt)))))))).

End decoder.

(** [Decode] with a TXT record that is the list of its pairs: [Add]
    appends, [AddNotEmpty] appends a value that is not empty, and
    [JoinNotEmpty] the values joined by commas when there are any. *)
Definition sampleDecode0 (attrs : ippAttrs)
  : outcome (string * DnsSdInfo (list (string * string))) :=
  Decode (list (string * string)) [] listTxt_Add
         (λ txt key value, (listTxt_IfNotEmpty txt key value).1)
         (λ txt key values,
            (listTxt_IfNotEmpty txt key (String.concat "," values)).1)
         attrs.

(** No value of type [t] under the name: the name is absent, or its first
    value has another type. *)
Definition skipped (attrs : ippAttrs) (t : Type_) (name : string) : Prop :=
  match attrs !! name with
  | None => True
  | Some [] => False
  | Some ((_, v0) :: _) => TypeOf v0 ≠ t
  end.

#[global] Instance skipped_dec attrs t name : Decision (skipped attrs t name).
Proof.
  unfold skipped. destruct (attrs !! name) as [[|[? ?] ?]|]; apply _.
Defined.

Lemma getAttr_skip (attrs : ippAttrs) t (pre names : list string) :
  Forall (skipped attrs t) pre →
  getAttr attrs t (pre ++ names) = getAttr attrs t names.
Proof.
  induction 1 as [|name pre Hs _ IH]; [done |].
  cbn [app getAttr]. unfold skipped in Hs.
  destruct (attrs !! name) as [[|[tag0 v0] rest]|]; [done | | done].
  by rewrite decide_False.
Qed.

(** X28.  The fallback of [getAttr]: the names are tried in the order
    given, a name that is absent or whose first value has another type is
    passed over, and the first name left gives all its values. *)
Theorem getAttr_first_match (attrs : ippAttrs) (t : Type_)
    (pre post : list string) (name : string) (tag0 : Z) (v0 : Value)
    (rest : list (Z * Value)) :
  Forall (skipped attrs t) pre →
  attrs !! name = Some ((tag0, v0) :: rest) → TypeOf v0 = t →
  getAttr attrs t (pre ++ name :: post) = Ok (v0 :: rest.*2).
Proof.
  intros Hpre Hl Ht. rewrite getAttr_skip by done.
  cbn [getAttr]. rewrite Hl. by rewrite decide_True.
Qed.

(** X29.  [getString] has no default: when none of the names is present
    with a string as first value, it does not return the empty string, it
    panics on [strings[0]]. *)
Theorem getString_missing_panics (attrs : ippAttrs) (names : list string) :
  Forall (skipped attrs TypeString) names →
  getString attrs names = Panic "index out of range [0] with length 0".
Proof.
  intros Hall. unfold getString, getStrings.
  rewrite <- (app_nil_r names), getAttr_skip by done. done.
Qed.

Definition infoOnly : ippAttrs :=
  {["printer-info" := [(65, String_ "Office printer")%Z];
    "printer-dns-sd-name" := [(53, TextWithLang "en" "ACME")%Z]]}.

Lemma getAttr_first_match_witness :
  getAttr infoOnly TypeString
    (["printer-dns-sd-name"] ++ "printer-info" :: ["printer-make-and-model"])
  = Ok [String_ "Office printer"].
Proof.
  apply (getAttr_first_match infoOnly TypeString ["printer-dns-sd-name"]
           ["printer-make-and-model"] "printer-info" 65%Z
           (String_ "Office printer") []);
    [constructor; [by vm_compute | constructor] | reflexivity | reflexivity].
Defined.

Lemma getString_missing_panics_witness :
  getString infoOnly ["printer-location"]
  = Panic "index out of range [0] with length 0".
Proof.
  apply getString_missing_panics. constructor; [by vm_compute | constructor].
Defined.

(** ** The DNS-SD name of the two decoders (C7) *)

(** A printer that sends an empty printer-dns-sd-name. *)
Definition emptyNamePrinter : list Attribute :=
  [MakeAttr "printer-dns-sd-name" [(66, String_ EmptyString)%Z];
   MakeAttr "printer-info" [(65, String_ "Office printer")%Z];
   MakeAttr "printer-make-and-model" [(65, String_ "ACME LaserStar 5")%Z];
   MakeAttr "printer-device-id" [(65, String_ "MFG:ACME;MDL:LaserStar 5;")%Z];
   MakeAttr "printer-location" [(65, String_ "Room 1")%Z];
   MakeAttr "printer-uuid"
     [(69, String_ "urn:uuid:0fd8f3a9-3b5c-4a7e-9c55-0c1b6c7a2d11")%Z];
   MakeAttr "color-supported" [(34, Boolean true)%Z]].




(** The attribute is present and all its values are strings. *)
Definition stringAttr (attrs : ippAttrs) (name : string) : Prop :=
  match attrs !! name with
  | Some ((_, String_ _) :: rest) => Forall (λ tv, TypeOf tv.2 = TypeString) rest
  | _ => False
  end.

#[global] Instance stringAttr_dec attrs name : Decision (stringAttr attrs name).
Proof.
  unfold stringAttr. destruct (attrs !! name) as [[|[? []] ?]|]; apply _.
Defined.







Section dnssd_name.

(** The parts of the repository the two decoders call and whose source
    files are not at hand; the two revisions of the TXT record are taken
    to share the record and the method [Add]. *)
Variable Txt : Type.
Variable Txt_zero : Txt.
Variable Txt_Add : Txt → string → string → Txt.
Variable Txt_IfNotEmpty : Txt → string → string → Txt * bool.
Variable Txt_URLIfNotEmpty : Txt → string → string → Txt * bool.
Variable Txt_AddNotEmpty : Txt → string → string → Txt.
Variable Txt_JoinNotEmpty : Txt → string → list string → Txt.
Variable UUIDNormalize : string → string.
Variable UsbDeviceInfo_UUID : UsbDeviceInfo → string.
Variable Classify : Z → Z → string.


End dnssd_name.



Example Decode_example :
  sampleDecode0 (newIppDecoder emptyNamePrinter)
  = Ok (EmptyString,
        mkDnsSdInfo "_ipp._tcp" 0
          [("note", "Room 1"); ("rp", "ipp/print");
           ("UUID", "0fd8f3a9-3b5c-4a7e-9c55-0c1b6c7a2d11"); ("txtvers", "1");
           ("ty", "ACME LaserStar 5"); ("Color", "T")]).
Proof. by vm_compute. Qed.

End Ipp0.

(** * Module [UsbInfo]: the identification string of a device (usbcommon.go) *)

Module UsbInfo.
Import GoStrings.

(** [UsbDeviceInfo]; [Vendor] and [Product] are [uint16]. *)
Record UsbDeviceInfo : Type := mkUsbDeviceInfo {
  Vendor : Z;
  Product : Z;
  SerialNumber : string;
  Manufacturer : string;
  ProductName : string
}.

(** ** Runes *)

(** The number of bytes of the first rune of a non-empty string, as
    [range] over a string and [utf8.DecodeRuneInString] see it: a byte
    below 0x80 is a rune; a well-formed sequence of two to four bytes is a
    rune; any other byte is taken alone, as the rune U+FFFD. *)
Definition runeWidth (s : string) : nat :=
  match s with
  | EmptyString => 0
  | String b0 rest =>
      let n0 := nat_of_ascii b0 in
      if n0 <? 128 then 1
      else if (194 <=? n0) && (n0 <=? 223) then
        match rest with
        | String b1 _ => if byte_in 128 191 b1 then 2 else 1
        | _ => 1
        end
      else if (224 <=? n0) && (n0 <=? 239) then
        let lo := if n0 =? 224 then 160 else 128 in
        let hi := if n0 =? 237 then 159 else 191 in
        match rest with
        | String b1 (String b2 _) =>
            if byte_in lo hi b1 && byte_in 128 191 b2 then 3 else 1
        | _ => 1
        end
      else if (240 <=? n0) && (n0 <=? 244) then
        let lo := if n0 =? 240 then 144 else 128 in
        let hi := if n0 =? 244 then 143 else 191 in
        match rest with
        | String b1 (String b2 (String b3 _)) =>
            if byte_in lo hi b1 && byte_in 128 191 b2 && byte_in 128 191 b3
            then 4 else 1
        | _ => 1
        end
      else 1
  end.

Fixpoint string_drop (n : nat) (s : string) : string :=
  match n, s with
  | S n, String _ s => string_drop n s
  | _, _ => s
  end.

Lemma length_string_drop n s : String.length (string_drop n s) ≤ String.length s.
Proof.
  revert s. induction n as [|n IH]; intros [|c s]; simpl; try lia.
  specialize (IH s). lia.
Qed.

Lemma byte_in_accepted lo hi c :
  byte_in lo hi c = accepted (Z.of_nat lo) (Z.of_nat hi) c.
Proof.
  unfold byte_in, accepted, byteval.
  destruct (Nat.leb_spec lo (nat_of_ascii c)), (Z.leb_spec (Z.of_nat lo) (Z.of_nat (nat_of_ascii c)));
    try lia;
  destruct (Nat.leb_spec (nat_of_ascii c) hi), (Z.leb_spec (Z.of_nat (nat_of_ascii c)) (Z.of_nat hi));
    try lia; done.
Qed.

(** [runeWidth] is the width that [DecodeRuneInString] finds. *)
Lemma runeWidth_DecodeRuneInString s : runeWidth s = (DecodeRuneInString s).2.
Proof.
  destruct s as [|b0 rest]; [done |].
  unfold runeWidth, DecodeRuneInString, byteval. cbv zeta.
  generalize (nat_of_ascii b0). intros n0.
  destruct (Nat.ltb_spec n0 128), (Z.ltb_spec (Z.of_nat n0) 128); try lia; [done |].
  destruct (Nat.leb_spec 194 n0), (Z.ltb_spec (Z.of_nat n0) 194); try lia; cbn [andb orb].
  2:{ destruct (224 <=? n0) eqn:E1; [apply Nat.leb_le in E1; lia |].
      destruct (240 <=? n0) eqn:E2; [apply Nat.leb_le in E2; lia |]. done. }
  destruct (Nat.leb_spec n0 223), (Z.ltb_spec (Z.of_nat n0) 224); try lia; cbn [andb orb].
  - destruct (Z.ltb_spec 244 (Z.of_nat n0)); [lia |].
    destruct (Z.eqb_spec (Z.of_nat n0) 224); [lia |].
    destruct (Z.eqb_spec (Z.of_nat n0) 240); [lia |].
    destruct (Z.eqb_spec (Z.of_nat n0) 237); [lia |].
    destruct (Z.eqb_spec (Z.of_nat n0) 244); [lia |].
    destruct rest as [|b1 rest]; [done |].
    rewrite (byte_in_accepted 128 191). by destruct (accepted _ _ b1).
  - destruct (Nat.leb_spec 224 n0); [| lia]. cbn [andb].
    destruct (Nat.leb_spec n0 239), (Z.ltb_spec (Z.of_nat n0) 240); try lia; cbn [andb orb].
    + destruct (Z.ltb_spec 244 (Z.of_nat n0)); [lia |].
      destruct (Z.eqb_spec (Z.of_nat n0) 240); [lia |].
      destruct (Z.eqb_spec (Z.of_nat n0) 244); [lia |].
      destruct rest as [|b1 [|b2 rest]]; [done | done |].
      destruct (Nat.eqb_spec n0 224), (Z.eqb_spec (Z.of_nat n0) 224); try lia;
      destruct (Nat.eqb_spec n0 237), (Z.eqb_spec (Z.of_nat n0) 237); try lia;
        rewrite !byte_in_accepted; by destruct (accepted _ _ b1 && accepted _ _ b2).
    + destruct (Nat.leb_spec 240 n0); [| lia]. cbn [andb].
      destruct (Nat.leb_spec n0 244), (Z.ltb_spec 244 (Z.of_nat n0)); try lia; [| done].
      destruct (Z.eqb_spec (Z.of_nat n0) 224); [lia |].
      destruct (Z.eqb_spec (Z.of_nat n0) 237); [lia |].
      destruct rest as [|b1 [|b2 [|b3 rest]]]; [done | done | done |].
      destruct (Nat.eqb_spec n0 240), (Z.eqb_spec (Z.of_nat n0) 240); try lia;
      destruct (Nat.eqb_spec n0 244), (Z.eqb_spec (Z.of_nat n0) 244); try lia;
        rewrite !byte_in_accepted;
        by destruct (accepted _ _ b1 && accepted _ _ b2 && accepted _ _ b3).
Qed.

(** ** [Ident] *)

(** The characters [Ident] keeps: digits, letters, hyphen and underscore. *)
Definition identChar (c : ascii) : bool :=
  is_digit c || is_lower c || is_upper c
  || Ascii.eqb c "-"%char || Ascii.eqb c "_"%char.

(** The function given to [strings.Map], on a rune of one byte below
    0x80. *)
Definition identByte (c : ascii) : ascii := if identChar c then c else "-"%char.

(** [strings.Map] with the function of [Ident]: rune by rune; every rune
    that is not a kept character, among them all the runes of several
    bytes and U+FFFD, becomes a hyphen. *)
Equations? identMap (s : string) : string by wf (String.length s) lt :=
  identMap EmptyString := EmptyString;
  identMap (String b0 rest) :=
    String (if nat_of_ascii b0 <? 128 then identByte b0 else "-"%char)
           (identMap (string_drop (runeWidth (String b0 rest) - 1) rest)).
Proof.
  pose proof (length_string_drop (runeWidth (String b0 rest) - 1) rest) as H.
  change (String.length (String b0 rest)) with (S (String.length rest)).
  revert H. generalize (runeWidth (String b0 rest) - 1). intros n H. lia.
Qed.

Definition hexDigit (n : Z) : ascii :=
  ascii_of_nat (Z.to_nat (if (n <? 10)%Z then 48 + n else 87 + n)).

(** [%4.4x] of a [uint16]: four hexadecimal digits, lower case. *)
Definition hex4 (v : Z) : string :=
  let v := (v mod 65536)%Z in
  String (hexDigit (v / 4096))
    (String (hexDigit (v / 256 mod 16))
      (String (hexDigit (v / 16 mod 16))
        (String (hexDigit (v mod 16)) EmptyString))).

(** [func (info UsbDeviceInfo) Ident() string] *)
Definition Ident (info : UsbDeviceInfo) : string :=
  identMap (hex4 (Vendor info) +:+ "-" +:+ SerialNumber info
            +:+ "-" +:+ ProductName info).

(** [func (info UsbDeviceInfo) Comment() string] *)
Definition Comment (info : UsbDeviceInfo) : string :=
  let c :=
    if negb (HasPrefix (ProductName info) (Manufacturer info))
    then EmptyString +:+ Manufacturer info +:+ " " +:+ ProductName info
    else ProductName info in
  c +:+ " serial=" +:+ SerialNumber info.

Example Ident_example :
  Ident (mkUsbDeviceInfo 1008 3095 "CN12/345" "HP" "HP LaserJet (M28)")
  = "03f0-CN12-345-HP-LaserJet--M28-".
Proof. reflexivity. Qed.

Lemma identChar_ascii c : identChar c = true → (nat_of_ascii c <? 128) = true.
Proof.
  unfold identChar, is_digit, is_lower, is_upper, byte_in. intros H.
  repeat (apply orb_true_iff in H as [H|H]);
    try (apply andb_true_iff in H as [_ H%Nat.leb_le]; apply Nat.ltb_lt; lia);
    apply Ascii.eqb_eq in H; by subst.
Qed.

Lemma identByte_ok c : identChar (identByte c) = true.
Proof. unfold identByte. by destruct (identChar c) eqn:E. Qed.

Lemma identMap_chars s : string_forallb identChar (identMap s) = true.
Proof.
  funelim (identMap s); simp identMap; cbn [string_forallb]; [done |].
  rewrite H, andb_true_r. destruct (_ <? 128); [apply identByte_ok | done].
Qed.

Lemma identMap_prefix a b :
  string_forallb identChar a = true → identMap (a +:+ b) = a +:+ identMap b.
Proof.
  induction a as [|c a IH]; [done |].
  cbn [string_forallb]. intros [Hc Ha]%andb_true_iff.
  change (String c a +:+ b) with (String c (a +:+ b)).
  simp identMap. pose proof (identChar_ascii c Hc) as Hlt.
  rewrite Hlt. unfold identByte. rewrite Hc.
  change (String c a +:+ identMap b) with (String c (a +:+ identMap b)).
  f_equal. unfold runeWidth. rewrite Hlt. cbn [Nat.sub string_drop].
  by apply IH.
Qed.

Lemma identMap_fixed s : string_forallb identChar s = true → identMap s = s.
Proof.
  intros Hs. pose proof (identMap_prefix s EmptyString Hs) as H.
  assert (∀ t, t +:+ EmptyString = t) as Hnil
    by (induction t as [|c t IH]; [done |];
        change (String c t +:+ EmptyString) with (String c (t +:+ EmptyString));
        by rewrite IH).
  rewrite Hnil in H. rewrite H. by simp identMap.
Qed.

Lemma hexDigit_ok n : (0 ≤ n < 16)%Z → identChar (hexDigit n) = true.
Proof.
  intros Hn.
  assert (n = 0 ∨ n = 1 ∨ n = 2 ∨ n = 3 ∨ n = 4 ∨ n = 5 ∨ n = 6 ∨ n = 7
          ∨ n = 8 ∨ n = 9 ∨ n = 10 ∨ n = 11 ∨ n = 12 ∨ n = 13 ∨ n = 14
          ∨ n = 15)%Z as H by lia.
  repeat (destruct H as [->|H]; [reflexivity |]). by subst.
Qed.

Lemma hex4_chars v : string_forallb identChar (hex4 v) = true.
Proof.
  unfold hex4. cbv zeta. cbn [string_forallb].
  pose proof (Z.mod_pos_bound v 65536 ltac:(lia)) as Hv.
  rewrite !hexDigit_ok; [done | ..].
  - apply Z.mod_pos_bound. lia.
  - apply Z.mod_pos_bound. lia.
  - apply Z.mod_pos_bound. lia.
  - split; [apply Z.div_pos; lia | apply Z.div_lt_upper_bound; lia].
Qed.

(** X30.  The identification string is made of digits, letters, hyphens
    and underscores only, so it can serve as a file name; it starts with
    the vendor id in four hexadecimal digits; and cleaning it again leaves
    it as it is. *)
Theorem Ident_canonical (info : UsbDeviceInfo) :
  string_forallb identChar (Ident info) = true
  ∧ Ident info = hex4 (Vendor info) +:+ "-"
                 +:+ identMap (SerialNumber info +:+ "-" +:+ ProductName info)
  ∧ identMap (Ident info) = Ident info.
Proof.
  split; [apply identMap_chars |]. split.
  - unfold Ident.
    change (hex4 (Vendor info) +:+ "-" +:+ SerialNumber info +:+ "-"
            +:+ ProductName info)
      with (hex4 (Vendor info)
            +:+ String "-"%char (SerialNumber info +:+ "-" +:+ ProductName info)).
    rewrite identMap_prefix by apply hex4_chars. f_equal.
    by simp identMap.
  - apply identMap_fixed, identMap_chars.
Qed.

End UsbInfo.
